(** * prosstt/simulation.py: a shallow embedding and its properties

    The simulation code works on numpy float arrays and draws from the
    global random sources of [random], [numpy.random] and [scipy.stats].
    The embedding is

    - numbers: floats are exact rationals ([Q]); every finite float is a
      rational, rounding is not modelled, and a [nan] is written out where
      the code can produce one (the correlation of a constant vector);
      the cast of a float array to int64 is written out with its
      overflow;
    - arrays: [list Q] for vectors and [list (list Q)] for matrices, with
      Python's index rule (negative indices count from the end, anything
      else out of range raises [IndexError]);
    - randomness: two tapes, one of floats and one of naturals, read by a
      cursor; every distribution returns the next value of its tape, so a
      statement for every tape is a statement for every outcome of the
      random source; the negative binomial first checks its parameters,
      as scipy does;
    - control: a state-and-exception monad over the tapes; the only loop
      without a bound ([simulate_W]) takes fuel and reports [Diverge] when
      it runs out. *)

From Stdlib Require Import List ZArith QArith Qabs Qminmax Lia Lqa Bool
  Arith Permutation.
Import ListNotations.

Set Implicit Arguments.

(** * Part I: the embedding *)

(** ** Python values and exceptions *)

Module Py.

Inductive exn : Type :=
| IndexError
| ValueError
| TypeError
| KeyError
| NameError
| ZeroDivisionError
| SystemExit (code : Z).

Definition is_IndexError (e : exn) : bool :=
  match e with IndexError => true | _ => false end.

(** [xs[i]]: negative indices count from the end. *)
Definition index {A} (xs : list A) (i : Z) : option A :=
  let n := Z.of_nat (length xs) in
  if (0 <=? i)%Z then nth_error xs (Z.to_nat i)
  else if (- n <=? i)%Z then nth_error xs (Z.to_nat (n + i))
  else None.

(** [range(lo, hi)] with the default step 1. *)
Definition range (lo hi : Z) : list Z :=
  map (fun j => (lo + Z.of_nat j)%Z) (seq 0 (Z.to_nat (hi - lo))).

(** [xs[i] = v] at a position counted from the front. *)
Fixpoint set_nth {A} (xs : list A) (i : nat) (v : A) : option (list A) :=
  match xs, i with
  | [], _ => None
  | _ :: tl, O => Some (v :: tl)
  | x :: tl, S j => option_map (cons x) (set_nth tl j v)
  end.

End Py.

(** ** Results, the random tapes and the monad *)

Inductive res (A : Type) : Type :=
| Ok (a : A)
| Raise (e : Py.exn)
| Diverge.

Arguments Ok {A} a.
Arguments Raise {A} e.
Arguments Diverge {A}.

Definition rbind {A B} (r : res A) (f : A -> res B) : res B :=
  match r with
  | Ok a => f a
  | Raise e => Raise e
  | Diverge => Diverge
  end.

Notation "x <-- r ;; k" := (rbind r (fun x => k))
  (at level 61, r at next level, right associativity).

(** [try: body except IndexError: handler] *)
Definition rcatch_index {A} (body handler : res A) : res A :=
  match body with
  | Raise e => if Py.is_IndexError e then handler else Raise e
  | r => r
  end.

Definition of_option {A} (o : option A) (e : Py.exn) : res A :=
  match o with Some a => Ok a | None => Raise e end.

(** [xs[i]] as an expression that can raise. *)
Definition getitem {A} (xs : list A) (i : Z) : res A :=
  of_option (Py.index xs i) Py.IndexError.

Record tape : Type := {
  floats : nat -> Q;
  fpos : nat;
  ints : nat -> nat;
  ipos : nat
}.

Definition M (A : Type) : Type := tape -> res A * tape.

Definition ret {A} (a : A) : M A := fun s => (Ok a, s).

Definition bind {A B} (m : M A) (f : A -> M B) : M B :=
  fun s =>
    match m s with
    | (Ok a, s') => f a s'
    | (Raise e, s') => (Raise e, s')
    | (Diverge, s') => (Diverge, s')
    end.

Notation "x <- m ;; k" := (bind m (fun x => k))
  (at level 61, m at next level, right associativity).

Definition raise {A} (e : Py.exn) : M A := fun s => (Raise e, s).

Definition diverge {A} : M A := fun s => (Diverge, s).

Definition lift {A} (r : res A) : M A := fun s => (r, s).

Definition catch_index {A} (body handler : M A) : M A :=
  fun s =>
    match body s with
    | (Raise e, s') =>
        if Py.is_IndexError e then handler s' else (Raise e, s')
    | r => r
    end.

Fixpoint mapM {A B} (f : A -> M B) (xs : list A) : M (list B) :=
  match xs with
  | [] => ret []
  | x :: tl => y <- f x ;; ys <- mapM f tl ;; ret (y :: ys)
  end.

Definition next_float : M Q :=
  fun s => (Ok (floats s (fpos s)),
            {| floats := floats s; fpos := S (fpos s);
               ints := ints s; ipos := ipos s |}).

Definition next_int : M nat :=
  fun s => (Ok (ints s (ipos s)),
            {| floats := floats s; fpos := fpos s;
               ints := ints s; ipos := S (ipos s) |}).

(** *** The distributions the code draws from

    Each returns the next value of a tape; the parameters of the
    distribution are kept as arguments and not used, except by
    [negbin_rvs], which checks them as scipy does. *)

(** [sp.stats.uniform.rvs()] *)
Definition uniform_rvs : M Q := next_float.

(** [sp.stats.norm.rvs(loc, scale)] *)
Definition norm_rvs (loc scale : Q) : M Q := next_float.

(** [sp.stats.norm.rvs(loc, scale, size=n)] *)
Definition norm_rvs_n (loc scale : Q) (n : nat) : M (list Q) :=
  mapM (fun _ => next_float) (seq 0 n).

(** [sp.stats.beta.rvs(a, b)] *)
Definition beta_rvs (a b : Q) : M Q := next_float.

(** [custm.rvs(p, r)] of [my_negbin].  Before it samples, scipy checks
    the shape arguments of a distribution and raises [ValueError] unless
    each of them is > 0, which a [nan] is not; a division by zero in
    [get_pr] gives 0 here and fails the same check.  With 0 < p < 1 and
    r > 0 the pmf is a distribution over all counts and the result is the
    next count of the tape.  For p >= 1 the pmf is no distribution and
    what scipy's search does with it is not modelled: the model takes the
    next count there as well, and the statements below keep to
    0 < p < 1. *)
Definition negbin_rvs (p r : Q) : M nat :=
  if (Qle_bool p 0 || Qle_bool r 0)%bool then raise Py.ValueError
  else next_int.

(** [rng.randrange(k)]: a value below k; [ValueError] on an empty range. *)
Definition randrange (k : nat) : M nat :=
  match k with
  | O => raise Py.ValueError
  | S _ => x <- next_int ;; ret (x mod k)%nat
  end.

(** [rng.choice(seq)]: [IndexError] on an empty sequence. *)
Definition choice {A} (xs : list A) : M A :=
  match xs with
  | [] => raise Py.IndexError
  | x0 :: _ => i <- next_int ;; ret (nth (i mod length xs)%nat xs x0)
  end.

Fixpoint insert_at {A} (pos : nat) (v : A) (xs : list A) : list A :=
  match pos, xs with
  | S p, x :: tl => x :: insert_at p v tl
  | _, _ => v :: xs
  end.

(** [np.random.permutation(G)]: the arrangement of 0..G-1 built by putting
    each next index at a drawn position of the arrangement so far; every
    arrangement is reached by some tape. *)
Fixpoint permutation_from (i n : nat) (acc : list nat) : M (list nat) :=
  match n with
  | O => ret acc
  | S n' =>
      x <- next_int ;;
      permutation_from (S i) n' (insert_at (x mod S i)%nat i acc)
  end.

Definition np_permutation (G : nat) : M (list nat) := permutation_from 0 G [].

(** ** Vectors and matrices *)

Local Open Scope Q_scope.

Definition vector : Type := list Q.
Definition matrix : Type := list (list Q).

Definition Qsum (xs : list Q) : Q := fold_right Qplus 0 xs.

(** [np.zeros(n)] and [np.zeros((r, c))] *)
Definition zeros (n : nat) : vector := repeat 0 n.
Definition zeros2 (r c : nat) : matrix := repeat (zeros c) r.

Fixpoint map2 {A B C} (f : A -> B -> C) (xs : list A) (ys : list B)
  : list C :=
  match xs, ys with
  | x :: xs', y :: ys' => f x y :: map2 f xs' ys'
  | _, _ => []
  end.

(** Elementwise [x - y] of two rows of the same length. *)
Definition vsub (x y : vector) : vector := map2 Qminus x y.

(** [np.transpose(W)] of a matrix whose rows have length [cols]. *)
Definition transpose (cols : nat) (W : matrix) : matrix :=
  map (fun t => map (fun row => nth t row 0) W) (seq 0 cols).

(** [np.dot(W, H)] for [H] with [G] columns. *)
Definition dot (W H : matrix) (G : nat) : matrix :=
  map (fun w =>
         map (fun g => Qsum (map2 (fun x h => x * nth g h 0) w H)) (seq 0 G))
      W.

(** [W[k] = row] *)
Definition setrow (W : matrix) (k : nat) (row : vector) : res matrix :=
  of_option (Py.set_nth W k row) Py.IndexError.

(** ** Negative-binomial parameters *)

(** [get_pr(a, b, m)] *)
Definition get_pr (a b m : Q) : Q * Q :=
  let s2 := a * m ^ 2 + b * m in
  let p := (s2 - m) / s2 in
  let r := (m ^ 2) / (s2 - m) in
  (p, r).

(** ** The diffusion generator *)

(** The body of [for t in range(0, T-1)], with [w] = W[t] and [v] = V[t];
    the list holds W[t+1], W[t+2], ... *)
Fixpoint diffusion_steps (n : nat) (eta s_eps w v : Q) : M vector :=
  match n with
  | O => ret []
  | S n' =>
      let w' := w + v in
      epsilon <- norm_rvs 0 s_eps ;;
      let v' := (95 # 100) * v + epsilon - eta * v in
      rest <- diffusion_steps n' eta s_eps w' v' ;;
      ret (w' :: rest)
  end.

(** [diffusion(T)]; for T = 0 the store [W[0] = ...] into an empty array
    raises after the draw. *)
Definition diffusion (T : nat) : M vector :=
  match T with
  | O => _ <- uniform_rvs ;; raise Py.IndexError
  | S n =>
      w0 <- uniform_rvs ;;
      v0 <- norm_rvs 0 (2 # 10) ;;
      let s_eps := 1 / inject_Z (Z.of_nat T) in
      eta <- uniform_rvs ;;
      rest <- diffusion_steps n eta s_eps w0 v0 ;;
      ret (w0 :: rest)
  end.

(** ** Pearson correlation

    The coefficient r = sxy / sqrt (sxx * syy) is irrational in general,
    its signed square r*|r| = sxy*|sxy| / (sxx*syy) is rational, and
    x -> x*|x| is strictly increasing: [r > c] is [r*|r| > c*|c|] and
    [|r| <= c] is [|r*|r|| <= c*c] for c >= 0.  [pearsonr] returns the
    signed square; [None] is the [nan] scipy returns for a constant
    input. *)

Definition mean (x : vector) : Q := Qsum x / inject_Z (Z.of_nat (length x)).

Definition centered (x : vector) : vector :=
  let mx := mean x in map (fun v => v - mx) x.

Definition sum_products (x y : vector) : Q := Qsum (map2 Qmult x y).

Definition is_constant (x : vector) : bool :=
  match x with
  | [] => true
  | x0 :: _ => forallb (Qeq_bool x0) x
  end.

Definition signed_square (c : Q) : Q := c * Qabs c.

Definition pearsonr (x y : vector) : res (option Q) :=
  if negb (length x =? length y)%nat then Raise Py.ValueError
  else if (length x <? 2)%nat then Raise Py.ValueError
  else if is_constant x || is_constant y then Ok None
  else
    let xm := centered x in
    let ym := centered y in
    let sxy := sum_products xm ym in
    Ok (Some (signed_square sxy
              / (sum_products xm xm * sum_products ym ym))).

(** [p[0] > cutoff]; a comparison with [nan] is false. *)
Definition exceeds (r : option Q) (cutoff : Q) : bool :=
  match r with
  | None => false
  | Some rr => negb (Qle_bool rr (signed_square cutoff))
  end.

(** [|r| <= cutoff], false for [nan]. *)
Definition within_cutoff (r : option Q) (cutoff : Q) : bool :=
  match r with
  | None => false
  | Some rr => Qle_bool (Qabs rr) (cutoff * cutoff)
  end.

(** ** The module trajectory builder *)

(** The body of [for i in range(k-1, 0)] over the indices left. *)
Fixpoint test_correlation_loop (W : matrix) (k : nat) (cutoff : Q)
  (idxs : list Z) : res bool :=
  match idxs with
  | [] => Ok false
  | i :: rest =>
      wk <-- getitem W (Z.of_nat k) ;;
      wi <-- getitem W i ;;
      p <-- pearsonr wk wi ;;
      if exceeds p cutoff then Ok true
      else test_correlation_loop W k cutoff rest
  end.

(** [test_correlation(W, k, cutoff)] *)
Definition test_correlation (W : matrix) (k : nat) (cutoff : Q) : res bool :=
  test_correlation_loop W k cutoff (Py.range (Z.of_nat k - 1) 0).

(** The [while k < K] loop of [simulate_W]; one unit of fuel per pass.
    The restart [return simulate_W(T)] leaves out the required argument
    K, so the call raises [TypeError]. *)
Fixpoint simulate_W_loop (fuel T K : nat) (cutoff : Q) (maxloops : Z)
  (W : matrix) (k : nat) (loops : Z) : M matrix :=
  match fuel with
  | O => diverge
  | S fuel' =>
      if (k <? K)%nat then
        d <- diffusion T ;;
        W' <- lift (setrow W k d) ;;
        correlates <- lift (test_correlation W' k cutoff) ;;
        if correlates then
          simulate_W_loop fuel' T K cutoff maxloops W' k (loops + 1)%Z
        else
          let loops' := 0%Z in
          let k' := S k in
          if (loops' >? maxloops)%Z then raise Py.TypeError
          else simulate_W_loop fuel' T K cutoff maxloops W' k' loops'
      else ret (transpose T W)
  end.

(** [simulate_W(T, K, cutoff, maxloops)] *)
Definition simulate_W (fuel T K : nat) (cutoff : Q) (maxloops : Z)
  : M matrix :=
  simulate_W_loop fuel T K cutoff maxloops (zeros2 K T) 0 0%Z.

Definition default_cutoff : Q := 2 # 10.
Definition default_maxloops : Z := 100%Z.

(** ** The gene-module membership builder *)

(** [results[x].append(value)] *)
Fixpoint append_at {A} (results : list (list A)) (x : nat) (value : A)
  : list (list A) :=
  match results, x with
  | [], _ => []
  | r :: tl, O => (r ++ [value]) :: tl
  | r :: tl, S x' => r :: append_at tl x' value
  end.

Fixpoint random_partition_loop {A} (k : nat) (iterable : list A)
  (results : list (list A)) : M (list (list A)) :=
  match iterable with
  | [] => ret results
  | value :: tl =>
      x <- randrange k ;;
      random_partition_loop k tl (append_at results x value)
  end.

(** [random_partition(k, iterable)] *)
Definition random_partition {A} (k : nat) (iterable : list A)
  : M (list (list A)) :=
  random_partition_loop k iterable (repeat [] k).

(** [create_groups(K, G)] *)
Definition create_groups (K G : nat) : M (list (list nat)) :=
  genes <- np_permutation G ;;
  groups1 <- random_partition K genes ;;
  genes <- np_permutation G ;;
  groups2 <- random_partition K genes ;;
  ret (map (fun z => fst z ++ snd z) (combine groups1 groups2)).

(** The inner loop [for g in groups[k]: H[k][g] += beta.rvs(a, b)] on
    row k of H. *)
Fixpoint simulate_H_row (a b : Q) (gs : list nat) (row : vector)
  : M vector :=
  match gs with
  | [] => ret row
  | g :: tl =>
      old <- lift (getitem row (Z.of_nat g)) ;;
      x <- beta_rvs a b ;;
      row' <- lift (of_option (Py.set_nth row g (old + x)) Py.IndexError) ;;
      simulate_H_row a b tl row'
  end.

(** [simulate_H(K, G, groups, a, b)]; row k of H is only written in the
    k-th pass of the outer loop, so the rows are built one after the
    other. *)
Definition simulate_H (K G : nat) (groups : list (list nat)) (a b : Q)
  : M matrix :=
  mapM (fun k =>
          gs <- lift (getitem groups (Z.of_nat k)) ;;
          simulate_H_row a b gs (zeros G))
       (seq 0 K).

(** ** The branch mean-expression composer *)

(** [bifurc_adjust(Mu_bif, Mu)] *)
Definition bifurc_adjust (Mu_bif Mu : matrix) : res matrix :=
  first <-- getitem Mu_bif 0 ;;
  last <-- getitem Mu (-1) ;;
  let dif := vsub first last in
  Ok (map (fun row => vsub row dif) Mu_bif).

(** What the code reads of the tree object. *)
Record Tree : Type := {
  branches : nat;
  time : list nat;
  modules : list nat;
  topology : list (nat * nat)
}.

(** [for b in tree.topology: Ms[b[1]] = bifurc_adjust(Ms[b[1]], Ms[b[0]])] *)
Fixpoint adjust_edges (edges : list (nat * nat)) (Ms : list matrix)
  : res (list matrix) :=
  match edges with
  | [] => Ok Ms
  | b :: rest =>
      child <-- getitem Ms (Z.of_nat (snd b)) ;;
      parent <-- getitem Ms (Z.of_nat (fst b)) ;;
      adjusted <-- bifurc_adjust child parent ;;
      Ms' <-- of_option (Py.set_nth Ms (snd b) adjusted) Py.IndexError ;;
      adjust_edges rest Ms'
  end.

(** The body of [for i in range(branches)]: the pair (W, Mu) of branch i. *)
Definition simulate_branch (fuel G : nat) (Ts Ks : list nat) (i : nat)
  : M (matrix * matrix) :=
  K <- lift (getitem Ks (Z.of_nat i)) ;;
  T <- lift (getitem Ts (Z.of_nat i)) ;;
  W <- simulate_W fuel T K default_cutoff default_maxloops ;;
  groups <- create_groups K G ;;
  H <- simulate_H K G groups 2 2 ;;
  let Mu := dot W H G in
  ret (W, Mu).

(** [simulate_branching_data(G, tree)]: the pair (Ms, Ws). *)
Definition simulate_branching_data (fuel G : nat) (tree : Tree)
  : M (list matrix * list matrix) :=
  let Ts := time tree in
  let Ks := modules tree in
  let lengths := [length Ts; length Ks] in
  if negb (forallb (fun l => l =? branches tree)%nat lengths) then
    raise (Py.SystemExit 1)
  else
    WMs <- mapM (simulate_branch fuel G Ts Ks) (seq 0 (branches tree)) ;;
    let Ws := map fst WMs in
    let Ms := map snd WMs in
    Ms' <- lift (adjust_edges (topology tree) Ms) ;;
    ret (Ms', Ws).

(** ** Pseudotimes and branches of the sampled cells *)

(** [int(...)] on a float: truncation toward zero, into Python's
    unbounded integers. *)
Definition astype_int (q : Q) : Z := Z.quot (Qnum q) (Z.pos (Qden q)).

(** [astype(int)] on a float64 array: the C cast to int64.  It truncates
    toward zero; a float whose integer part does not fit int64 gives, as
    on x86-64, the value -2^63. *)
Definition astype_int64 (q : Q) : Z :=
  let z := astype_int q in
  if ((- 2 ^ 63 <=? z) && (z <? 2 ^ 63))%Z then z else (- 2 ^ 63)%Z.


(** [collect_timestamps(timepoint, n, Tmax, t_s)]; the draws are cast
    with [astype(int)], and the two masked assignments work on the cast
    values. *)
Definition collect_timestamps (timepoint : Q) (n : nat) (Tmax : Z) (t_s : Q)
  : M (list Z) :=
  timestamps <- norm_rvs_n timepoint t_s n ;;
  let timestamps := map astype_int64 timestamps in
  let timestamps :=
    map (fun t => if (t <? 0)%Z then 0%Z else t) timestamps in
  let timestamps :=
    map (fun t => if (t >=? Tmax)%Z then (Tmax - 1)%Z else t) timestamps in
  ret timestamps.

(** A timezone and the interval of a branch are pairs [start, end]. *)
Definition interval : Type := (Z * Z)%type.

(** [belongs_to(timezone, branch)] *)
Definition belongs_to (timezone branch : interval) : bool :=
  (fst timezone >=? fst branch)%Z && (snd timezone <=? snd branch)%Z.

(** The inner loop of [assign_branches] for one timezone: the keys of
    [branch_times], in the order of the dict, whose interval holds it. *)
Definition assign_zone (branch_times : list (nat * interval)) (z : interval)
  : list nat :=
  map fst (filter (fun kb => belongs_to z (snd kb)) branch_times).

(** A [defaultdict(list)] is the list of its entries; a key gets an entry
    with its first [append]. *)
Definition defaultdict : Type := list (Z * list nat).

Fixpoint assign_branches_from (i : nat) (branch_times : list (nat * interval))
  (timezone : list interval) : defaultdict :=
  match timezone with
  | [] => []
  | z :: tl =>
      let rest := assign_branches_from (S i) branch_times tl in
      match assign_zone branch_times z with
      | [] => rest
      | ks => (Z.of_nat i, ks) :: rest
      end
  end.

(** [assign_branches(branch_times, timezone)] *)
Definition assign_branches (branch_times : list (nat * interval))
  (timezone : list interval) : defaultdict :=
  assign_branches_from 0 branch_times timezone.

(** [assignments[b]] on a [defaultdict(list)]: the empty list for a key
    that has no entry. *)
Fixpoint dd_get (assignments : defaultdict) (b : Z) : list nat :=
  match assignments with
  | [] => []
  | (key, ks) :: tl => if (key =? b)%Z then ks else dd_get tl b
  end.

(** The [for ... break] loop of [pick_branch]: the value of [b] after it. *)
Fixpoint find_zone (t : Z) (timezone : list interval) (i : Z) : Z :=
  match timezone with
  | [] => (-1)%Z
  | branch :: tl =>
      if (t >=? fst branch)%Z && (t <=? snd branch)%Z then i
      else find_zone t tl (i + 1)%Z
  end.

(** [pick_branch(t, timezone, assignments)]; the handler prints and falls
    off the end of the function, which returns Python's [None]. *)
Definition pick_branch (t : Z) (timezone : list interval)
  (assignments : defaultdict) : M (option nat) :=
  let b := find_zone t timezone 0%Z in
  let possibilities := dd_get assignments b in
  catch_index (k <- choice possibilities ;; ret (Some k)) (ret None).

(** ** The mean of a gene and the cell drawn from it *)

(** The body of the [try]: [M[t-T_off][g]]. *)
Definition try_mean (Mb : matrix) (i : Z) (g : nat) : res Q :=
  row <-- getitem Mb i ;; getitem row (Z.of_nat g).

(** The handler: [M[-1][g]]. *)
Definition last_row_mean (Mb : matrix) (g : nat) : res Q :=
  row <-- getitem Mb (-1) ;; getitem row (Z.of_nat g).

(** [try: mu = M[t-T_off][g] except IndexError: mu = M[-1][g]] *)
Definition mean_lookup (Mb : matrix) (i : Z) (g : nat) : res Q :=
  rcatch_index (try_mean Mb i g) (last_row_mean Mb g).

(** The loop [for g in range(G)] of the samplers: row n of X. *)
Definition sample_cell (alpha beta : Q) (G : nat) (Mb : matrix)
  (t T_off : Z) : M (list nat) :=
  mapM (fun g =>
          mu <- lift (mean_lookup Mb (t - T_off) g) ;;
          let pr := get_pr alpha beta mu in
          negbin_rvs (fst pr) (snd pr))
       (seq 0 G).

(** [branching_times[b]] on a dict; the key [None] is not in it. *)
Definition dict_get (d : list (nat * interval)) (b : option nat)
  : res interval :=
  match b with
  | None => Raise Py.KeyError
  | Some k =>
      of_option (option_map snd (find (fun kb => fst kb =? k)%nat d))
                Py.KeyError
  end.

(** One pass of [for n in range(len(timestamps))] in
    [sample_data_with_absolute_times]: row n of X, labels[n], branch[n].
    The labels are stored inside the gene loop and keep their initial 0
    when G = 0. *)
Definition sample_at (alpha beta : Q) (G : nat) (timezone : list interval)
  (branching_times : list (nat * interval)) (means : list matrix)
  (assignments : defaultdict) (timestamp : Q)
  : M (list nat * Z * nat) :=
  let t := astype_int timestamp in
  b <- pick_branch t timezone assignments ;;
  iv <- lift (dict_get branching_times b) ;;
  let T_off := fst iv in
  Mb <- lift (getitem means (Z.of_nat (match b with Some k => k | None => 0
                                       end))) ;;
  x <- sample_cell alpha beta G Mb t T_off ;;
  match G, b with
  | S _, Some k => ret (x, t, k)
  | _, _ => ret (x, 0%Z, O)
  end.

(** [sample_data_with_absolute_times]; [timezone], [branching_times] and
    [means] are what [tree.populate_timezone()], [tree.branch_times()] and
    [tree.means] hold. *)
Definition sample_data_with_absolute_times (n_factor G : nat)
  (timezone : list interval) (branching_times : list (nat * interval))
  (means : list matrix) (sample_times : list Q) (alpha beta : Q)
  : M (list (list nat * Z * nat)) :=
  let timestamps := flat_map (fun t => repeat t n_factor) sample_times in
  let assignments := assign_branches branching_times timezone in
  mapM (sample_at alpha beta G timezone branching_times means assignments)
       timestamps.


(** ** Blending two branches

    [transition_adjust] works on deep copies of its arguments, so it is a
    function of their values. *)

(** [row * c] on a row. *)
Definition vscale (x : vector) (c : Q) : vector := map (fun v => v * c) x.

(** [x + y] on two rows of a numpy array: entry by entry for rows of
    the same width; a row of one entry is stretched to the other; any
    other pair of widths raises [ValueError]. *)
Definition np_add (x y : vector) : res vector :=
  if (length x =? length y)%nat then Ok (map2 Qplus x y)
  else
    match x, y with
    | [a], _ => Ok (map (fun b => a + b) y)
    | _, [b] => Ok (map (fun a => a + b) x)
    | _, _ => Raise Py.ValueError
    end.

(** [M[i] = row] on a numpy array: the row must have the width of the
    rows of M, or one entry, which is repeated; else [ValueError]. *)
Definition np_setrow (Mx : matrix) (i : nat) (row : vector) : res matrix :=
  old <-- getitem Mx (Z.of_nat i) ;;
  if (length row =? length old)%nat then setrow Mx i row
  else
    match row with
    | [a] => setrow Mx i (repeat a (length old))
    | _ => Raise Py.ValueError
    end.

(** [mbw = 0.5 + i / (transition_length*2)] *)
Definition main_branch_weight (transition_length i : nat) : Q :=
  (1 # 2) + inject_Z (Z.of_nat i)
            / inject_Z (Z.of_nat (transition_length * 2)).

(** The body of [for i in range(transition_length)] over the indices
    left; the second assignment reads the row of Ma that the first one
    has just stored. *)
Fixpoint transition_adjust_loop (transition_length : nat) (idxs : list nat)
  (Ma Mb : matrix) : res (matrix * matrix) :=
  match idxs with
  | [] => Ok (Ma, Mb)
  | i :: rest =>
      let mbw := main_branch_weight transition_length i in
      a <-- getitem Ma (Z.of_nat i) ;;
      b <-- getitem Mb (Z.of_nat i) ;;
      na <-- np_add (vscale a mbw) (vscale b (1 - mbw)) ;;
      Ma' <-- np_setrow Ma i na ;;
      b' <-- getitem Mb (Z.of_nat i) ;;
      a' <-- getitem Ma' (Z.of_nat i) ;;
      nb <-- np_add (vscale b' mbw) (vscale a' (1 - mbw)) ;;
      Mb' <-- np_setrow Mb i nb ;;
      transition_adjust_loop transition_length rest Ma' Mb'
  end.

(** [transition_adjust(inp_Ma, inp_Mb, transition_length)] *)
Definition transition_adjust (inp_Ma inp_Mb : matrix)
  (transition_length : nat) : res (matrix * matrix) :=
  transition_adjust_loop transition_length (seq 0 transition_length)
                         inp_Ma inp_Mb.

(** ** The check of the branch ranges *)

Fixpoint mapR {A B} (f : A -> res B) (xs : list A) : res (list B) :=
  match xs with
  | [] => Ok []
  | x :: tl => y <-- f x ;; ys <-- mapR f tl ;; Ok (y :: ys)
  end.

(** [np.max] and [np.min] of a one-dimensional array; an empty array
    has neither and raises [ValueError]. *)
Definition np_max (xs : list Q) : res Q :=
  match xs with
  | [] => Raise Py.ValueError
  | x :: tl => Ok (fold_left Qmax tl x)
  end.

Definition np_min (xs : list Q) : res Q :=
  match xs with
  | [] => Raise Py.ValueError
  | x :: tl => Ok (fold_left Qmin tl x)
  end.

(** [np.ptp(x, axis=0)]: for every column, its maximum minus its
    minimum. *)
Definition ptp_columns (x : matrix) : res (list Q) :=
  match x with
  | [] => Raise Py.ValueError
  | r0 :: _ =>
      mapR (fun j =>
              let col := map (fun row => nth j row 0) x in
              hi <-- np_max col ;;
              lo <-- np_min col ;;
              Ok (hi - lo))
           (seq 0 (length r0))
  end.

(** [np.max(np.ptp(x, axis=0))] *)
Definition matrix_range (x : matrix) : res Q :=
  ps <-- ptp_columns x ;; np_max ps.

(** [are_lengths_ok(Ms, abs_max, rel_dif)]; [None] is the default
    argument.  The quotient 0/0 of numpy floats is [nan], and a
    comparison with it is false. *)
Definition are_lengths_ok (Ms : option (list matrix)) (abs_max rel_dif : Q)
  : res bool :=
  match Ms with
  | None => Ok false
  | Some Ms =>
      maxes <-- mapR matrix_range Ms ;;
      let max_crit :=
        forallb (fun m => negb (Qle_bool abs_max m)) maxes in
      lo <-- np_min maxes ;;
      hi <-- np_max maxes ;;
      let rel_crit :=
        if Qeq_bool hi 0 then false
        else negb (Qle_bool (lo / hi) rel_dif) in
      Ok (max_crit && rel_crit)
  end.

(** ** Vocabulary of the statements *)

(** The j-th column of a matrix given by its rows. *)
Definition column (W : matrix) (j : nat) : vector :=
  map (fun row => nth j row 0) W.

(** [m] started on tape [s] returns a value and a tape that satisfy [P]. *)
Definition runs {A} (m : M A) (s : tape) (P : A -> tape -> Prop) : Prop :=
  exists a s', m s = (Ok a, s') /\ P a s'.

(** The tape after [n] float draws. *)
Definition skip_floats (n : nat) (s : tape) : tape :=
  {| floats := floats s; fpos := fpos s + n;
     ints := ints s; ipos := ipos s |}.

(** The next [n] values of the float tape. *)
Definition upcoming (s : tape) (n : nat) : list Q :=
  map (fun i => floats s (fpos s + i)%nat) (seq 0 n).

(** The two masked assignments of [collect_timestamps] on one value. *)
Definition clip (Tmax t : Z) : Z :=
  let t := if (t <? 0)%Z then 0%Z else t in
  if (t >=? Tmax)%Z then (Tmax - 1)%Z else t.

(** A tape for examples: every float is [f], the n-th natural is [n]. *)
Definition constant_tape (f : Q) : tape :=
  {| floats := fun _ => f; fpos := 0; ints := fun n => n; ipos := 0 |}.

(** A tape for examples whose floats are the listed values, then
    zeros. *)
Definition tape_of_floats (ds : list Q) : tape :=
  {| floats := fun i => nth i ds 0; fpos := 0;
     ints := fun _ => 0%nat; ipos := 0 |}.

(** Two rows agree gene by gene. *)
Definition same_row (x y : vector) : Prop := Forall2 Qeq x y.

(** The first row of the child's matrix is the last row of the
    parent's. *)
Definition continuous (Ms : list matrix) (e : nat * nat) : Prop :=
  exists parent child first last,
    nth_error Ms (fst e) = Some parent /\
    nth_error Ms (snd e) = Some child /\
    Py.index child 0 = Some first /\
    Py.index parent (-1) = Some last /\
    same_row first last.

(** The order of the edge list under which the adjustments do not undo
    each other: no edge joins a branch to itself, and no later edge has
    as its child the parent or the child of an earlier one (an edge comes
    after the edge that adjusts its parent, and a branch has one
    parent). *)
Fixpoint topological (edges : list (nat * nat)) : bool :=
  match edges with
  | [] => true
  | e :: rest =>
      negb (fst e =? snd e)%nat
      && forallb (fun e' => negb (snd e' =? fst e)%nat
                            && negb (snd e' =? snd e)%nat) rest
      && topological rest
  end.

(** Every matrix has at least one row and all rows hold G genes. *)
Definition shaped (G : nat) (Ms : list matrix) : Prop :=
  forall Mb, In Mb Ms -> Mb <> [] /\ forall row, In row Mb -> length row = G.

(** What the code needs of a tree to run to the end: the two lengths
    agree with the branch count, every branch has at least two time steps
    and two modules, and the edges name branches. *)
Definition well_formed (tree : Tree) : Prop :=
  length (time tree) = branches tree /\
  length (modules tree) = branches tree /\
  Forall (fun T => (2 <= T)%nat) (time tree) /\
  Forall (fun K => (2 <= K)%nat) (modules tree) /\
  Forall (fun e => (fst e < branches tree)%nat /\
                   (snd e < branches tree)%nat) (topology tree).

(** A computation that does not end in [sys.exit]. *)
Definition rquiet {A} (r : res A) : Prop :=
  forall c, r <> Raise (Py.SystemExit c).

Definition quiet {A} (m : M A) : Prop :=
  forall s c, fst (m s) <> Raise (Py.SystemExit c).

(** The tree of the docstring: branch 0 splits into 1 and 2, branch 2
    into 3 and 4. *)
Definition docstring_tree : Tree :=
  {| branches := 5;
     time := [2; 2; 2; 2; 2]%nat;
     modules := [2; 2; 2; 2; 2]%nat;
     topology := [(0, 1); (0, 2); (2, 3); (2, 4)]%nat |}.

(** Three branches in a chain 0 - 1 - 2 whose edges are listed child edge
    first. *)
Definition chain_tree : Tree :=
  {| branches := 3;
     time := [2; 2; 2]%nat;
     modules := [2; 2; 2]%nat;
     topology := [(1, 2); (0, 1)]%nat |}.

(** Every exception a computation can end in satisfies [ok]. *)
Definition rraises_only {A} (ok : Py.exn -> Prop) (r : res A) : Prop :=
  forall e, r = Raise e -> ok e.

Definition raises_only {A} (ok : Py.exn -> Prop) (m : M A) : Prop :=
  forall s e, fst (m s) = Raise e -> ok e.

(** The exceptions of an index that is out of range and of a
    correlation of vectors that are too short. *)
Definition index_or_value (e : Py.exn) : Prop :=
  e = Py.IndexError \/ e = Py.ValueError.

(** The tape after [n] integer draws, and the next [n] values of the
    integer tape. *)
Definition skip_ints (n : nat) (s : tape) : tape :=
  {| floats := floats s; fpos := fpos s;
     ints := ints s; ipos := ipos s + n |}.

Definition upcoming_ints (s : tape) (n : nat) : list nat :=
  map (fun i => ints s (ipos s + i)%nat) (seq 0 n).

(** The elements of [xs], in their order, whose draw reduced below [k]
    is [j]. *)
Definition drawn_group {A} (k : nat) (xs : list A) (draws : list nat)
  (j : nat) : list A :=
  map fst (filter (fun p => (snd p mod k =? j)%nat) (combine xs draws)).


(** A mean with which [get_pr] gives parameters that [custm.rvs] takes:
    it is positive and the variance a*m^2 + b*m exceeds it. *)
Definition valid_mean (alpha beta mu : Q) : Prop :=
  0 < mu /\ 1 < alpha * mu + beta.


(** Every mean of every branch is valid. *)
Definition valid_means (alpha beta : Q) (means : list matrix) : Prop :=
  forall Mb row mu,
    In Mb means -> In row Mb -> In mu row -> valid_mean alpha beta mu.

(** The pseudotime [t] lies in the interval [z]. *)
Definition within (t : Z) (z : interval) : Prop := (fst z <= t <= snd z)%Z.

(** What one cell of the sampler's result holds for the sample time it
    was drawn for: G counts and, when there is a gene, the integer part
    of the sample time as label and a branch whose interval holds it. *)
Definition cell_of (G : nat) (branching_times : list (nat * interval))
  (timestamp : Q) (cell : list nat * Z * nat) : Prop :=
  length (fst (fst cell)) = G /\
  ((1 <= G)%nat ->
   snd (fst cell) = astype_int timestamp /\
   exists iv, In (snd cell, iv) branching_times /\
              within (astype_int timestamp) iv).

(** Row i of the two results of [transition_adjust], from rows i of its
    arguments, for rows of the same width. *)
Definition blend_first (transition_length i : nat) (a b : vector)
  : vector :=
  let w := main_branch_weight transition_length i in
  map2 Qplus (vscale a w) (vscale b (1 - w)).

Definition blend_second (transition_length i : nat) (a b : vector)
  : vector :=
  let w := main_branch_weight transition_length i in
  map2 Qplus (vscale b w)
       (vscale (blend_first transition_length i a b) (1 - w)).

(** * Part II: properties *)

(** ** Reasoning about runs *)

Lemma runs_ret {A} (a : A) s (P : A -> tape -> Prop) :
  P a s -> runs (ret a) s P.
Proof. intros H. exists a, s. split; [reflexivity | exact H]. Qed.

Lemma runs_bind {A B} (m : M A) (f : A -> M B) s
  (Q : B -> tape -> Prop) :
  runs m s (fun a s' => runs (f a) s' Q) -> runs (bind m f) s Q.
Proof.
  intros (a & s' & Hm & b & s'' & Hf & HQ).
  exists b, s''. unfold bind. rewrite Hm. split; assumption.
Qed.

Lemma runs_lift {A} (r : res A) (a : A) s (P : A -> tape -> Prop) :
  r = Ok a -> P a s -> runs (lift r) s P.
Proof. intros -> H. exists a, s. split; [reflexivity | exact H]. Qed.

Lemma runs_weaken {A} (m : M A) s (P Q : A -> tape -> Prop) :
  runs m s P -> (forall a s', P a s' -> Q a s') -> runs m s Q.
Proof.
  intros (a & s' & Hm & HP) H. exists a, s'. split; [exact Hm | auto].
Qed.

Lemma runs_next_float s (P : Q -> tape -> Prop) :
  P (floats s (fpos s)) (snd (next_float s)) -> runs next_float s P.
Proof. intros H. eexists _, _. split; [reflexivity | exact H]. Qed.

Lemma runs_next_int s (P : nat -> tape -> Prop) :
  P (ints s (ipos s)) (snd (next_int s)) -> runs next_int s P.
Proof. intros H. eexists _, _. split; [reflexivity | exact H]. Qed.

(** A loop body that always returns makes [mapM] return one value per
    element. *)
Lemma runs_mapM {A B} (f : A -> M B) (R : A -> B -> Prop) (xs : list A) :
  (forall x s, In x xs -> runs (f x) s (fun y _ => R x y)) ->
  forall s, runs (mapM f xs) s (fun ys _ => Forall2 R xs ys).
Proof.
  induction xs as [|x tl IH]; intros Hf s.
  - apply runs_ret. constructor.
  - simpl. apply runs_bind.
    eapply runs_weaken; [apply Hf; left; reflexivity|].
    intros y s1 Hy. apply runs_bind.
    eapply runs_weaken; [apply IH; intros; apply Hf; right; assumption|].
    intros ys s2 Hys. apply runs_ret. constructor; assumption.
Qed.

Lemma next_int_run (s : tape) :
  next_int s = (Ok (ints s (ipos s)), skip_ints 1 s).
Proof. unfold next_int, skip_ints. f_equal. f_equal. lia. Qed.

Lemma skip_ints_add (n m : nat) (s : tape) :
  skip_ints n (skip_ints m s) = skip_ints (m + n) s.
Proof. unfold skip_ints. simpl. f_equal. lia. Qed.

Lemma skip_ints_0 (s : tape) : skip_ints 0 s = s.
Proof. unfold skip_ints. rewrite Nat.add_0_r. destruct s; reflexivity. Qed.

Lemma upcoming_ints_S (s : tape) (n : nat) :
  upcoming_ints s (S n)
  = ints s (ipos s) :: upcoming_ints (skip_ints 1 s) n.
Proof.
  unfold upcoming_ints. cbn [seq map]. rewrite Nat.add_0_r. f_equal.
  rewrite <- seq_shift, map_map. apply map_ext. intros i.
  simpl. f_equal. lia.
Qed.



(** ** Negative-binomial parameters *)

Section GetPr.

Variables a b m : Q.
Hypothesis m_pos : 0 < m.
Hypothesis overdispersed : 1 < a * m + b.

Let s2 := a * m ^ 2 + b * m.

Lemma s2_above_mean : m < s2.
Proof.
  unfold s2. setoid_replace (a * m ^ 2 + b * m) with ((a * m + b) * m) by ring.
  setoid_replace m with (1 * m) at 1 by ring.
  apply Qmult_lt_compat_r; assumption.
Qed.

Lemma s2_pos : 0 < s2.
Proof. eapply Qlt_trans; [exact m_pos | exact s2_above_mean]. Qed.

Lemma excess_pos : 0 < s2 - m.
Proof. pose proof s2_above_mean. lra. Qed.

End GetPr.

(** C4. For rationals a, b, m with m > 0 and a*m + b > 1, [get_pr a b m]
    is (p, r) with p = (s2-m)/s2 and r = m^2/(s2-m) for s2 = a*m^2 + b*m;
    then 0 < p < 1, r > 0, and the negative-binomial moments are
    p*r/(1-p) = m and p*r/(1-p)^2 = a*m^2 + b*m. *)
Theorem get_pr_moments (a b m : Q) :
  0 < m -> 1 < a * m + b ->
  let s2 := a * m ^ 2 + b * m in
  let p := fst (get_pr a b m) in
  let r := snd (get_pr a b m) in
  p == (s2 - m) / s2 /\ r == m ^ 2 / (s2 - m) /\
  0 < p /\ p < 1 /\ 0 < r /\
  p * r / (1 - p) == m /\
  p * r / ((1 - p) ^ 2) == a * m ^ 2 + b * m.
Proof.
  intros Hm Hab s2 p r.
  pose proof (s2_above_mean Hm Hab) as Hgt.
  pose proof (s2_pos Hm Hab) as Hs2.
  pose proof (excess_pos Hm Hab) as Hex.
  fold s2 in Hgt, Hs2, Hex.
  assert (Hp : p == (s2 - m) / s2) by reflexivity.
  assert (Hr : r == m ^ 2 / (s2 - m)) by reflexivity.
  assert (Hs2nz : ~ s2 == 0) by lra.
  assert (Hexnz : ~ s2 - m == 0) by lra.
  assert (Hmnz : ~ m == 0) by lra.
  assert (H1p : 1 - p == m / s2) by (rewrite Hp; field; exact Hs2nz).
  assert (Hq : 0 < m / s2) by (apply Qlt_shift_div_l; lra).
  repeat split; try assumption.
  - rewrite Hp. apply Qlt_shift_div_l; lra.
  - rewrite Hp. apply Qlt_shift_div_r; lra.
  - rewrite Hr. apply Qlt_shift_div_l; [assumption|].
    setoid_replace (m ^ 2) with (m * m) by ring. nra.
  - rewrite H1p, Hp, Hr. field. repeat split; assumption.
  - rewrite H1p, Hp, Hr. unfold s2. field.
    repeat split; try assumption; fold s2; assumption.
Qed.

Lemma get_pr_moments_witness :
  let p := fst (get_pr (3 # 10) 2 5) in
  let r := snd (get_pr (3 # 10) 2 5) in
  0 < p /\ p < 1 /\ 0 < r /\ p * r / (1 - p) == 5 /\
  p * r / ((1 - p) ^ 2) == (3 # 10) * 5 ^ 2 + 2 * 5.
Proof.
  destruct (@get_pr_moments (3 # 10) 2 5) as (_ & _ & H1 & H2 & H3 & H4 & H5).
  - reflexivity.
  - reflexivity.
  - repeat split; assumption.
Defined.

Lemma get_pr_valid (a b m : Q) :
  valid_mean a b m ->
  0 < fst (get_pr a b m) /\ 0 < snd (get_pr a b m).
Proof.
  intros [Hm Hab].
  pose proof (s2_above_mean Hm Hab) as Hgt.
  pose proof (s2_pos Hm Hab) as Hs2.
  pose proof (excess_pos Hm Hab) as Hex.
  unfold get_pr. cbn [fst snd]. split.
  - apply Qlt_shift_div_l; lra.
  - apply Qlt_shift_div_l; [assumption|].
    setoid_replace (m ^ 2) with (m * m) by ring. nra.
Qed.

Lemma negbin_rvs_valid (p r : Q) (s : tape) :
  0 < p -> 0 < r -> negbin_rvs p r s = next_int s.
Proof.
  intros Hp Hr. unfold negbin_rvs.
  destruct (Qle_bool p 0) eqn:E1; [apply Qle_bool_iff in E1; lra|].
  destruct (Qle_bool r 0) eqn:E2; [apply Qle_bool_iff in E2; lra|].
  reflexivity.
Qed.

Lemma runs_negbin_rvs (a b m : Q) s (P : nat -> tape -> Prop) :
  valid_mean a b m ->
  P (ints s (ipos s)) (skip_ints 1 s) ->
  runs (negbin_rvs (fst (get_pr a b m)) (snd (get_pr a b m))) s P.
Proof.
  intros Hv HP. destruct (get_pr_valid Hv) as [Hp Hr].
  exists (ints s (ipos s)), (skip_ints 1 s).
  rewrite negbin_rvs_valid by assumption.
  split; [apply next_int_run | exact HP].
Qed.


(** ** Pseudotimes around a sample time *)

Lemma draw_floats (A : Type) (xs : list A) (s : tape) :
  mapM (fun _ => next_float) xs s
  = (Ok (upcoming s (length xs)), skip_floats (length xs) s).
Proof.
  revert s. induction xs as [|x tl IH]; intros s.
  - simpl. unfold ret, upcoming, skip_floats. simpl.
    rewrite Nat.add_0_r. destruct s; reflexivity.
  - simpl. unfold bind at 1. unfold next_float at 1.
    unfold bind at 1. rewrite IH. unfold ret.
    f_equal.
    + f_equal. unfold upcoming. simpl. rewrite Nat.add_0_r. f_equal.
      rewrite <- seq_shift, map_map. apply map_ext. intros i.
      f_equal. lia.
    + unfold skip_floats. simpl. f_equal. lia.
Qed.

Lemma norm_rvs_n_draws loc scale n s :
  norm_rvs_n loc scale n s = (Ok (upcoming s n), skip_floats n s).
Proof.
  unfold norm_rvs_n. rewrite draw_floats, length_seq. reflexivity.
Qed.

Lemma astype_int_negative (d : Q) : d < 0 -> (astype_int d <= 0)%Z.
Proof.
  intros H. unfold astype_int. apply Z.quot_le_upper_bound; [lia|].
  unfold Qlt in H. simpl in H. lia.
Qed.

Lemma astype_int_above (d : Q) (n : Z) :
  inject_Z n <= d -> (n <= astype_int d)%Z.
Proof.
  intros H. unfold astype_int. apply Z.quot_le_lower_bound; [lia|].
  unfold Qle in H. simpl in H. lia.
Qed.

Lemma clip_range Tmax t : (1 <= Tmax)%Z -> (0 <= clip Tmax t < Tmax)%Z.
Proof.
  intros H. unfold clip.
  destruct (t <? 0)%Z eqn:E1;
    [destruct (0 >=? Tmax)%Z eqn:E2 | destruct (t >=? Tmax)%Z eqn:E2]; lia.
Qed.

Lemma astype_int64_fits (d : Q) :
  (- 2 ^ 63 <= astype_int d < 2 ^ 63)%Z -> astype_int64 d = astype_int d.
Proof.
  intros H. unfold astype_int64.
  destruct (- 2 ^ 63 <=? astype_int d)%Z eqn:E1;
    destruct (astype_int d <? 2 ^ 63)%Z eqn:E2; simpl; lia.
Qed.

Lemma astype_int64_overflow (d : Q) :
  (2 ^ 63 <= astype_int d)%Z -> astype_int64 d = (- 2 ^ 63)%Z.
Proof.
  intros H. unfold astype_int64.
  destruct (- 2 ^ 63 <=? astype_int d)%Z eqn:E1;
    destruct (astype_int d <? 2 ^ 63)%Z eqn:E2; simpl; lia.
Qed.

Lemma astype_int64_cases (d : Q) :
  astype_int64 d = astype_int d \/ astype_int64 d = (- 2 ^ 63)%Z.
Proof.
  unfold astype_int64.
  destruct ((- 2 ^ 63 <=? astype_int d) && (astype_int d <? 2 ^ 63))%Z;
    [left | right]; reflexivity.
Qed.

Lemma collect_timestamps_run timepoint n Tmax t_s s :
  collect_timestamps timepoint n Tmax t_s s
  = (Ok (map (fun d => clip Tmax (astype_int64 d)) (upcoming s n)),
     skip_floats n s).
Proof.
  unfold collect_timestamps, bind. rewrite norm_rvs_n_draws.
  unfold ret. rewrite !map_map. reflexivity.
Qed.

(** C8. For every timepoint, every n, every Tmax with 1 <= Tmax < 2^63
    (an int64, as the entries of the array are) and every standard
    deviation t_s >= 0, on every tape,
    [collect_timestamps timepoint n Tmax t_s] returns exactly n integers,
    each in [0, Tmax), and a drawn value below 0 gives 0.  A drawn value
    at or above Tmax gives Tmax - 1 when its integer part fits int64,
    that is when it is below 2^63; a drawn value whose integer part is
    2^63 or more is cast to -2^63 by [astype(int)] and gives 0, not
    Tmax - 1, against the docstring of Tmax (all time points that exceed
    the differentiation duration are mapped to its end).  The last part runs
    the function on timepoint 2^70 with n = 1 and Tmax = 5, the draw
    being 2^70: the result is [0] where the claim asks for [4]. *)
Theorem collect_timestamps_clipped :
  (forall (timepoint : Q) (n : nat) (Tmax : Z) (t_s : Q) (s : tape),
      (1 <= Tmax < 2 ^ 63)%Z -> 0 <= t_s ->
      exists ts,
        collect_timestamps timepoint n Tmax t_s s
        = (Ok ts, skip_floats n s) /\
        length ts = n /\
        Forall (fun t => (0 <= t < Tmax)%Z) ts /\
        Forall2 (fun d t =>
                   (d < 0 -> t = 0%Z) /\
                   (inject_Z Tmax <= d -> (astype_int d < 2 ^ 63)%Z ->
                    t = (Tmax - 1)%Z) /\
                   ((2 ^ 63 <= astype_int d)%Z -> t = 0%Z))
                (upcoming s n) ts) /\
  (upcoming (constant_tape (inject_Z (2 ^ 70))) 1 = [inject_Z (2 ^ 70)] /\
   inject_Z 5 <= inject_Z (2 ^ 70) /\
   fst (collect_timestamps (inject_Z (2 ^ 70)) 1 5 4
          (constant_tape (inject_Z (2 ^ 70)))) = Ok [0%Z]).
Proof.
  split.
  - intros timepoint n Tmax t_s s HT _. eexists.
    split; [apply collect_timestamps_run|].
    split; [|split].
    + unfold upcoming. rewrite !length_map, length_seq. reflexivity.
    + apply Forall_forall. intros t Ht. apply in_map_iff in Ht.
      destruct Ht as (d & <- & _). apply clip_range. lia.
    + generalize (upcoming s n) as ds. induction ds as [|d ds IH]; simpl.
      * constructor.
      * constructor; [|exact IH]. split; [|split].
        -- intros Hd. apply astype_int_negative in Hd. unfold clip.
           destruct (astype_int64_cases d) as [E|E]; rewrite E;
             destruct (_ <? 0)%Z eqn:E1;
             destruct (_ >=? Tmax)%Z eqn:E2; lia.
        -- intros Hd Hfit. apply astype_int_above in Hd.
           rewrite astype_int64_fits by lia. unfold clip.
           destruct (astype_int d <? 0)%Z eqn:E1;
             [destruct (0 >=? Tmax)%Z eqn:E2
             | destruct (astype_int d >=? Tmax)%Z eqn:E2]; lia.
        -- intros Hd. rewrite astype_int64_overflow by exact Hd.
           unfold clip.
           destruct (- 2 ^ 63 <? 0)%Z eqn:E1;
             [destruct (0 >=? Tmax)%Z eqn:E2
             | destruct (- 2 ^ 63 >=? Tmax)%Z eqn:E2]; lia.
  - split; [reflexivity|]. split; [|vm_compute; reflexivity].
    rewrite <- Zle_Qle. vm_compute. discriminate.
Qed.

Lemma collect_timestamps_clipped_witness :
  exists ts,
    collect_timestamps 3 3 5 4 (tape_of_floats [-7 # 2; 7; 2])
    = (Ok ts, skip_floats 3 (tape_of_floats [-7 # 2; 7; 2])) /\
    ts = [0; 4; 2]%Z.
Proof.
  destruct (proj1 collect_timestamps_clipped 3 3%nat 5%Z 4
              (tape_of_floats [-7 # 2; 7; 2])) as (ts & Hrun & _);
    [lia | discriminate|].
  exists ts. split; [exact Hrun|].
  rewrite collect_timestamps_run in Hrun. injection Hrun as <-.
  vm_compute. reflexivity.
Defined.

(** ** Gene groups *)

Lemma insert_at_perm {A} (pos : nat) (v : A) (xs : list A) :
  Permutation (insert_at pos v xs) (v :: xs).
Proof.
  revert pos. induction xs as [|x tl IH]; intros [|p]; simpl;
    try apply Permutation_refl.
  rewrite IH. apply perm_swap.
Qed.

Lemma permutation_from_perm (n i : nat) (acc : list nat) s :
  runs (permutation_from i n acc) s
       (fun l _ => Permutation l (acc ++ seq i n)).
Proof.
  revert i acc s. induction n as [|n IH]; intros i acc s; simpl.
  - apply runs_ret. rewrite app_nil_r. apply Permutation_refl.
  - apply runs_bind, runs_next_int.
    eapply runs_weaken; [apply IH|]. intros l s' Hl.
    rewrite Hl, insert_at_perm.
    apply (Permutation_middle acc (seq (S i) n) i).
Qed.

Lemma np_permutation_perm (G : nat) s :
  runs (np_permutation G) s (fun l _ => Permutation l (seq 0 G)).
Proof. apply (permutation_from_perm G 0 [] s). Qed.

Lemma append_at_length {A} (results : list (list A)) x (v : A) :
  length (append_at results x v) = length results.
Proof.
  revert x. induction results as [|r tl IH]; intros [|x]; simpl; auto.
Qed.

Lemma append_at_concat {A} (results : list (list A)) x (v : A) :
  (x < length results)%nat ->
  Permutation (concat (append_at results x v)) (v :: concat results).
Proof.
  revert x. induction results as [|r tl IH]; intros [|x] Hx; simpl in *;
    try lia.
  - rewrite <- app_assoc. simpl. symmetry. apply Permutation_middle.
  - rewrite IH by lia. symmetry. apply Permutation_middle.
Qed.

Lemma random_partition_loop_perm {A} (k : nat) (iterable : list A) :
  (1 <= k)%nat ->
  forall results s, length results = k ->
    runs (random_partition_loop k iterable results) s
         (fun out _ => length out = k /\
                       Permutation (concat out) (concat results ++ iterable)).
Proof.
  intros Hk. induction iterable as [|v tl IH]; intros results s Hlen; simpl.
  - apply runs_ret. split; [exact Hlen|]. rewrite app_nil_r.
    apply Permutation_refl.
  - apply runs_bind. unfold randrange. destruct k as [|k']; [lia|].
    apply runs_bind, runs_next_int. apply runs_ret.
    set (x := (ints s (ipos s) mod S k')%nat).
    assert (Hx : (x < length results)%nat).
    { rewrite Hlen. apply Nat.mod_upper_bound. lia. }
    eapply runs_weaken;
      [apply IH; rewrite append_at_length; exact Hlen|].
    intros out _ (Hout & Hperm). split; [exact Hout|].
    rewrite Hperm, (append_at_concat _ v Hx).
    simpl. apply Permutation_middle.
Qed.

Lemma concat_repeat_nil {A} (k : nat) : concat (repeat (@nil A) k) = [].
Proof. induction k; simpl; auto. Qed.

Lemma random_partition_perm {A} (k : nat) (iterable : list A) s :
  (1 <= k)%nat ->
  runs (random_partition k iterable) s
       (fun out _ => length out = k /\ Permutation (concat out) iterable).
Proof.
  intros Hk. unfold random_partition.
  eapply runs_weaken;
    [apply random_partition_loop_perm; [exact Hk | apply repeat_length]|].
  intros out _ (Hlen & Hperm). split; [exact Hlen|].
  rewrite Hperm, concat_repeat_nil. apply Permutation_refl.
Qed.

Lemma zip_groups_concat {A} (g1 g2 : list (list A)) :
  length g1 = length g2 ->
  Permutation (concat (map (fun z => fst z ++ snd z) (combine g1 g2)))
              (concat g1 ++ concat g2).
Proof.
  revert g2. induction g1 as [|a g1 IH]; intros [|b g2] Hlen;
    simpl in *; try discriminate.
  - apply Permutation_refl.
  - rewrite IH by lia. rewrite <- !app_assoc.
    apply Permutation_app_head.
    rewrite !app_assoc. apply Permutation_app_tail.
    apply Permutation_app_comm.
Qed.

(** Every gene index is listed exactly twice over the K groups. *)
Lemma create_groups_perm (K G : nat) s :
  (1 <= K)%nat ->
  runs (create_groups K G) s
       (fun groups _ => length groups = K /\
                        Permutation (concat groups) (seq 0 G ++ seq 0 G)).
Proof.
  intros HK. unfold create_groups.
  apply runs_bind.
  eapply runs_weaken; [apply np_permutation_perm|]. intros genes1 s1 Hg1.
  apply runs_bind.
  eapply runs_weaken; [apply random_partition_perm, HK|].
  intros groups1 s2 (Hl1 & Hp1).
  apply runs_bind.
  eapply runs_weaken; [apply np_permutation_perm|]. intros genes2 s3 Hg2.
  apply runs_bind.
  eapply runs_weaken; [apply random_partition_perm, HK|].
  intros groups2 s4 (Hl2 & Hp2).
  apply runs_ret. split.
  - rewrite length_map, length_combine, Hl1, Hl2. apply Nat.min_id.
  - rewrite zip_groups_concat by congruence.
    rewrite Hp1, Hp2, Hg1, Hg2. apply Permutation_refl.
Qed.

(** C9. For every K >= 1 and G, on every tape, [create_groups K G] returns
    exactly K lists of gene indices; every listed index is below G and
    every index below G is listed in one of them. *)
Theorem create_groups_cover (K G : nat) (s : tape) :
  (1 <= K)%nat ->
  exists groups s',
    create_groups K G s = (Ok groups, s') /\
    length groups = K /\
    (forall g, In g (concat groups) -> (g < G)%nat) /\
    (forall g, (g < G)%nat -> In g (concat groups)).
Proof.
  intros HK.
  destruct (create_groups_perm G s HK) as (groups & s' & Hrun & Hlen & Hperm).
  exists groups, s'. repeat split; try assumption.
  - intros g Hg. apply (Permutation_in _ Hperm) in Hg.
    apply in_app_or in Hg. destruct Hg as [Hg | Hg];
      apply in_seq in Hg; lia.
  - intros g Hg. apply (Permutation_in _ (Permutation_sym Hperm)).
    apply in_or_app. left. apply in_seq. lia.
Qed.

Lemma create_groups_cover_witness :
  exists groups s',
    create_groups 3 5 (constant_tape 1) = (Ok groups, s') /\
    length groups = 3%nat /\
    (forall g, In g (concat groups) -> (g < 5)%nat) /\
    (forall g, (g < 5)%nat -> In g (concat groups)).
Proof.
  apply (@create_groups_cover 3 5 (constant_tape 1)). lia.
Defined.

(** ** Branch lookup *)

Lemma find_zone_outside (t : Z) (timezone : list interval) (i : Z) :
  (forall z, In z timezone -> ~ (fst z <= t <= snd z)%Z) ->
  find_zone t timezone i = (-1)%Z.
Proof.
  revert i. induction timezone as [|z tl IH]; intros i H; simpl.
  - reflexivity.
  - destruct ((t >=? fst z)%Z && (t <=? snd z)%Z) eqn:E.
    + exfalso. apply (H z); [left; reflexivity|].
      apply andb_true_iff in E. lia.
    + apply IH. intros z' Hz'. apply H. right. exact Hz'.
Qed.

(** The keys that [assign_branches] creates are indices of timezones. *)
Lemma dd_get_below (branch_times : list (nat * interval))
  (timezone : list interval) (i : nat) (b : Z) :
  (b < Z.of_nat i)%Z ->
  dd_get (assign_branches_from i branch_times timezone) b = [].
Proof.
  revert i. induction timezone as [|z tl IH]; intros i Hb; simpl.
  - reflexivity.
  - destruct (assign_zone branch_times z) as [|k ks].
    + apply IH. lia.
    + simpl. destruct (Z.of_nat i =? b)%Z eqn:E; [lia|].
      apply IH. lia.
Qed.

(** C5, as the code has it. When t lies outside every timezone interval,
    [pick_branch], on the assignments made by [assign_branches], raises
    nothing: the handler of its [try] takes the [IndexError] of the empty
    choice and the call returns [None], with the tape untouched. *)
Theorem pick_branch_outside_returns_None (t : Z) (timezone : list interval)
  (branch_times : list (nat * interval)) (s : tape) :
  (forall z, In z timezone -> ~ (fst z <= t <= snd z)%Z) ->
  pick_branch t timezone (assign_branches branch_times timezone) s
  = (Ok None, s).
Proof.
  intros H. unfold pick_branch. rewrite find_zone_outside by exact H.
  unfold assign_branches. rewrite dd_get_below by lia. reflexivity.
Qed.

Lemma pick_branch_outside_returns_None_witness :
  pick_branch 5 [(0, 3)%Z]
              (assign_branches [(0%nat, (0, 3)%Z)] [(0, 3)%Z])
              (constant_tape 1)
  = (Ok None, constant_tape 1).
Proof.
  apply (@pick_branch_outside_returns_None 5 [(0, 3)%Z]
           [(0%nat, (0, 3)%Z)] (constant_tape 1)).
  intros z [<- | []]. simpl. lia.
Defined.

(** Pseudotime 5 lies outside the single timezone [0, 3]; the lookup
    raises no error and hands [None] to its caller. *)
Lemma pick_branch_returns_sentinel :
  let run := pick_branch 5 [(0, 3)%Z]
               (assign_branches [(0%nat, (0, 3)%Z)] [(0, 3)%Z])
               (constant_tape 1) in
  (forall z, In z [(0, 3)%Z] -> ~ (fst z <= 5 <= snd z)%Z) /\
  fst run = Ok None /\
  ~ (exists e, fst run = Raise e).
Proof.
  split; [|split].
  - intros z [<- | []]. simpl. lia.
  - reflexivity.
  - intros (e & He). vm_compute in He. discriminate He.
Qed.

(** ** The mean of a gene at a pseudotime *)

Lemma index_beyond {A} (xs : list A) (i : Z) :
  (Z.of_nat (length xs) <= i)%Z -> Py.index xs i = None.
Proof.
  intros H. unfold Py.index.
  destruct (0 <=? i)%Z eqn:E; [|lia].
  apply nth_error_None. lia.
Qed.

Lemma index_before {A} (xs : list A) (i : Z) :
  (i < - Z.of_nat (length xs))%Z -> Py.index xs i = None.
Proof.
  intros H. unfold Py.index.
  destruct (0 <=? i)%Z eqn:E; [lia|].
  destruct (- Z.of_nat (length xs) <=? i)%Z eqn:E2; [lia | reflexivity].
Qed.

Lemma index_front {A} (xs : list A) (i : nat) (d : A) :
  (i < length xs)%nat -> Py.index xs (Z.of_nat i) = Some (nth i xs d).
Proof.
  intros H. unfold Py.index.
  destruct (0 <=? Z.of_nat i)%Z eqn:E; [|lia].
  rewrite Nat2Z.id. apply nth_error_nth'. exact H.
Qed.

Lemma index_back {A} (xs : list A) (i : Z) (d : A) :
  (- Z.of_nat (length xs) <= i < 0)%Z ->
  Py.index xs i = Some (nth (Z.to_nat (Z.of_nat (length xs) + i)) xs d).
Proof.
  intros H. unfold Py.index.
  destruct (0 <=? i)%Z eqn:E; [lia|].
  destruct (- Z.of_nat (length xs) <=? i)%Z eqn:E2; [|lia].
  apply nth_error_nth'. lia.
Qed.

Lemma index_last {A} (xs : list A) (d : A) :
  xs <> [] -> Py.index xs (-1) = Some (last xs d).
Proof.
  intros H. rewrite (@index_back _ xs (-1) d).
  - f_equal. rewrite <- (rev_involutive xs) at 2 3.
    destruct (rev xs) as [|x tl] eqn:E.
    + exfalso. apply H. rewrite <- (rev_involutive xs), E. reflexivity.
    + simpl. rewrite last_last.
      assert (Hlen : length xs = S (length tl)).
      { rewrite <- (length_rev xs), E. reflexivity. }
      rewrite Hlen.
      replace (Z.to_nat (Z.of_nat (S (length tl)) + -1)) with (length tl)
        by lia.
      rewrite app_nth2; rewrite length_rev; [|lia].
      rewrite Nat.sub_diag. reflexivity.
  - destruct xs; [contradiction | simpl length; lia].
Qed.








Lemma try_mean_cases (Mb : matrix) (i : Z) (g : nat) :
  match Py.index Mb i with
  | None => try_mean Mb i g = Raise Py.IndexError
  | Some row =>
      if (g <? length row)%nat then try_mean Mb i g = Ok (nth g row 0)
      else try_mean Mb i g = Raise Py.IndexError
  end.
Proof.
  destruct (Py.index Mb i) as [row|] eqn:Ei.
  - destruct (g <? length row)%nat eqn:E; unfold try_mean, getitem;
      rewrite Ei; cbn [of_option rbind].
    + apply Nat.ltb_lt in E.
      rewrite (@index_front _ row g 0 E). reflexivity.
    + apply Nat.ltb_ge in E. rewrite index_beyond by lia. reflexivity.
  - unfold try_mean, getitem. rewrite Ei. reflexivity.
Qed.

Lemma index_none_iff {A} (xs : list A) (i : Z) :
  Py.index xs i = None
  <-> (Z.of_nat (length xs) <= i \/ i < - Z.of_nat (length xs))%Z.
Proof.
  split.
  - intros H.
    destruct (Z_le_gt_dec (Z.of_nat (length xs)) i) as [|Hlt];
      [left; assumption|].
    destruct (Z_lt_ge_dec i (- Z.of_nat (length xs))) as [|Hge];
      [right; assumption|].
    exfalso. destruct (Z_lt_ge_dec i 0) as [Hn | Hp].
    + destruct xs as [|x tl]; [simpl in *; lia|].
      rewrite (@index_back _ (x :: tl) i x) in H by lia. discriminate H.
    + destruct xs as [|x tl]; [simpl in *; lia|].
      rewrite <- (Z2Nat.id i) in H by lia.
      rewrite (@index_front _ (x :: tl) (Z.to_nat i) x) in H by lia.
      discriminate H.
  - intros [H | H]; [apply index_beyond | apply index_before]; exact H.
Qed.

(** C10, as the code has it. On a mean matrix with T_b rows the [try] of
    the lookup raises [IndexError], so that the last-row handler runs,
    exactly when the row index is at least T_b, or is below -T_b, or
    names a row that has no entry for gene g; the [try] raises nothing
    else.  For a negative index with -T_b <= index < 0 whose row holds
    gene g there is no handler and no error, and the mean is read from
    row T_b + index, counted back from the end of the matrix. *)
Theorem mean_lookup_negative_index (Mb : matrix) (i : Z) (g : nat) :
  let Tb := Z.of_nat (length Mb) in
  (try_mean Mb i g = Raise Py.IndexError <->
   ((Tb <= i)%Z \/ (i < - Tb)%Z \/
    exists row, Py.index Mb i = Some row /\ (length row <= g)%nat)) /\
  (forall e, try_mean Mb i g = Raise e -> e = Py.IndexError) /\
  ((- Tb <= i < 0)%Z ->
   (g < length (nth (Z.to_nat (Tb + i)) Mb []))%nat ->
   try_mean Mb i g = Ok (nth g (nth (Z.to_nat (Tb + i)) Mb []) 0) /\
   mean_lookup Mb i g = Ok (nth g (nth (Z.to_nat (Tb + i)) Mb []) 0)).
Proof.
  intros Tb. pose proof (try_mean_cases Mb i g) as Hc.
  split; [split|split].
  - intros Htry. destruct (Py.index Mb i) as [row|] eqn:E.
    + right. right. exists row. split; [reflexivity|].
      destruct (g <? length row)%nat eqn:Eg.
      * rewrite Hc in Htry. discriminate Htry.
      * apply Nat.ltb_ge in Eg. exact Eg.
    + apply index_none_iff in E. fold Tb in E. tauto.
  - intros [Hi | [Hi | (row & Hrow & Hlen)]].
    + assert (E : Py.index Mb i = None) by (apply index_beyond; exact Hi).
      rewrite E in Hc. exact Hc.
    + assert (E : Py.index Mb i = None) by (apply index_before; exact Hi).
      rewrite E in Hc. exact Hc.
    + rewrite Hrow in Hc.
      destruct (g <? length row)%nat eqn:Eg; [|exact Hc].
      apply Nat.ltb_lt in Eg. lia.
  - intros e He. destruct (Py.index Mb i) as [row|].
    + destruct (g <? length row)%nat; rewrite Hc in He;
        [discriminate He | injection He as <-; reflexivity].
    + rewrite Hc in He. injection He as <-. reflexivity.
  - intros Hi Hg.
    assert (Htry : try_mean Mb i g
                   = Ok (nth g (nth (Z.to_nat (Tb + i)) Mb []) 0)).
    { rewrite (@index_back _ Mb i [] Hi) in Hc. fold Tb in Hc.
      apply Nat.ltb_lt in Hg. rewrite Hg in Hc. exact Hc. }
    split; [exact Htry|].
    unfold mean_lookup. rewrite Htry. reflexivity.
Qed.

Lemma mean_lookup_negative_index_witness :
  try_mean [[1]; [2]; [3]] (-2) 0 = Ok 2 /\
  mean_lookup [[1]; [2]; [3]] (-2) 0 = Ok 2.
Proof.
  destruct (@mean_lookup_negative_index [[1]; [2]; [3]] (-2) 0)
    as (_ & _ & H).
  apply H; simpl; lia.
Defined.

(** A branch of two rows with one gene each, sampled with G = 2 at
    pseudotime 0: the row index 0 is inside the matrix, yet the [try]
    raises [IndexError] at gene 1 and the handler runs, although the
    index is neither at least T_b = 2 nor negative; the handler's own
    lookup raises [IndexError] too and the sampler ends in it. *)
Lemma fallback_fires_inside_the_matrix :
  (astype_int 0 - 0 = 0)%Z /\
  ~ (Z.of_nat (length [[5]; [7]]) <= 0)%Z /\
  try_mean [[5]; [7]] 0 1 = Raise Py.IndexError /\
  last_row_mean [[5]; [7]] 1 = Raise Py.IndexError /\
  fst (sample_data_with_absolute_times 1 2 [(0, 3)%Z] [(0%nat, (0, 3)%Z)]
         [[[5]; [7]]] [0] (3 # 10) 2 (constant_tape 1))
  = Raise Py.IndexError.
Proof.
  split; [reflexivity|]. split; [simpl; lia|].
  split; [reflexivity|]. split; reflexivity.
Qed.

(** ** The comparison of a correlation with the cutoff *)

Lemma signed_square_nonneg (x : Q) : 0 <= x -> signed_square x == x * x.
Proof. intros H. unfold signed_square. rewrite Qabs_pos by exact H. ring. Qed.

Lemma signed_square_neg (x : Q) : x <= 0 -> signed_square x == - (x * x).
Proof. intros H. unfold signed_square. rewrite Qabs_neg by exact H. ring. Qed.

Lemma signed_square_le (x y : Q) :
  x <= y -> signed_square x <= signed_square y.
Proof.
  intros H.
  destruct (Qlt_le_dec x 0) as [Hx | Hx];
    destruct (Qlt_le_dec y 0) as [Hy | Hy].
  - rewrite (@signed_square_neg x), (@signed_square_neg y) by lra. nra.
  - rewrite (@signed_square_neg x), (@signed_square_nonneg y) by lra. nra.
  - lra.
  - rewrite (@signed_square_nonneg x), (@signed_square_nonneg y) by lra. nra.
Qed.

(** The map x -> x*|x| is strictly increasing, so comparing the signed
    squares, as [exceeds] does, is comparing the numbers. *)
Lemma signed_square_lt (x y : Q) :
  x < y <-> signed_square x < signed_square y.
Proof.
  split; intros H.
  - destruct (Qlt_le_dec x 0) as [Hx | Hx];
      destruct (Qlt_le_dec y 0) as [Hy | Hy].
    + rewrite (@signed_square_neg x), (@signed_square_neg y) by lra. nra.
    + rewrite (@signed_square_neg x), (@signed_square_nonneg y) by lra. nra.
    + lra.
    + rewrite (@signed_square_nonneg x), (@signed_square_nonneg y) by lra.
      nra.
  - apply Qnot_le_lt. intros Hle. apply signed_square_le in Hle. lra.
Qed.

(** ** The module trajectory builder *)

Lemma diffusion_steps_length (n : nat) (eta s_eps w v : Q) s :
  runs (diffusion_steps n eta s_eps w v) s (fun l _ => length l = n).
Proof.
  revert w v s. induction n as [|n IH]; intros w v s; simpl.
  - apply runs_ret. reflexivity.
  - apply runs_bind, runs_next_float. apply runs_bind.
    eapply runs_weaken; [apply IH|]. intros rest s' Hrest.
    apply runs_ret. simpl. congruence.
Qed.

Lemma diffusion_length (T : nat) s :
  (1 <= T)%nat -> runs (diffusion T) s (fun d _ => length d = T).
Proof.
  intros HT. destruct T as [|n]; [lia|]. unfold diffusion.
  apply runs_bind, runs_next_float.
  apply runs_bind, runs_next_float.
  apply runs_bind, runs_next_float.
  apply runs_bind.
  eapply runs_weaken; [apply diffusion_steps_length|].
  intros rest s' Hrest. apply runs_ret. simpl. congruence.
Qed.

Lemma range_empty (lo hi : Z) : (hi <= lo)%Z -> Py.range lo hi = [].
Proof.
  intros H. unfold Py.range.
  replace (Z.to_nat (hi - lo)) with O by lia. reflexivity.
Qed.

(** For k >= 1 the range [range(k-1, 0)] is empty: no earlier column is
    looked at. *)
Lemma test_correlation_later_column (W : matrix) (k : nat) (cutoff : Q) :
  (1 <= k)%nat -> test_correlation W k cutoff = Ok false.
Proof.
  intros Hk. unfold test_correlation. rewrite range_empty by lia.
  reflexivity.
Qed.

Lemma all_zero_repeat (n : nat) : forallb (Qeq_bool 0) (repeat 0 n) = true.
Proof. induction n as [|n IH]; simpl; [reflexivity | exact IH]. Qed.

Lemma zeros_constant (n : nat) : is_constant (zeros n) = true.
Proof.
  destruct n as [|n]; [reflexivity|].
  apply (all_zero_repeat (S n)).
Qed.

Lemma pearsonr_zeros (d : vector) :
  (2 <= length d)%nat -> pearsonr d (zeros (length d)) = Ok None.
Proof.
  intros Hd. unfold pearsonr.
  unfold zeros at 1. rewrite repeat_length, Nat.eqb_refl. simpl negb.
  cbv iota.
  destruct (length d <? 2)%nat eqn:E; [apply Nat.ltb_lt in E; lia|].
  rewrite zeros_constant, orb_true_r. reflexivity.
Qed.

Lemma last_repeat {A} (x d : A) (n : nat) : last (repeat x (S n)) d = x.
Proof.
  induction n as [|n IH]; [reflexivity|].
  change (repeat x (S (S n))) with (x :: repeat x (S n)).
  change (last (x :: repeat x (S n)) d) with (last (repeat x (S n)) d).
  exact IH.
Qed.

Lemma getitem_last_row (d z : vector) (K : nat) :
  @getitem (list Q) (d :: repeat z (S K)) (-1) = Ok z.
Proof.
  unfold getitem.
  rewrite (@index_last (list Q) (d :: repeat z (S K)) []) by discriminate.
  change (last (d :: repeat z (S K)) []) with (last (repeat z (S K)) []).
  rewrite last_repeat. reflexivity.
Qed.

(** For k = 0 the range is [-1]: the new row is compared with the last
    row of W, which still holds zeros when K >= 2; the coefficient is
    [nan] and the comparison is false. *)
Lemma test_correlation_first_column (d : vector) (K : nat) (cutoff : Q) :
  (2 <= length d)%nat ->
  test_correlation (d :: repeat (zeros (length d)) (S K)) 0 cutoff
  = Ok false.
Proof.
  intros Hd. unfold test_correlation.
  change (Py.range (Z.of_nat 0 - 1) 0) with [(-1)%Z].
  cbn [test_correlation_loop].
  change (getitem (d :: repeat (zeros (length d)) (S K)) (Z.of_nat 0))
    with (@Ok vector d).
  rewrite getitem_last_row. cbn [rbind].
  rewrite pearsonr_zeros by exact Hd. reflexivity.
Qed.

Lemma set_nth_app {A} (ds tl : list A) (x v : A) :
  Py.set_nth (ds ++ x :: tl) (length ds) v = Some (ds ++ v :: tl).
Proof.
  induction ds as [|y ds IH]; simpl; [reflexivity|].
  rewrite IH. reflexivity.
Qed.

Section NoRejection.

Variables (T K : nat) (cutoff : Q) (maxloops : Z).
Hypothesis T_two : (2 <= T)%nat.
Hypothesis maxloops_nonneg : (0 <= maxloops)%Z.

(** After the first column, every pass of the loop stores one drawn
    diffusion and moves on. *)
Lemma simulate_W_loop_draws (n : nat) :
  forall (ds : matrix) (fuel : nat) (loops : Z) (s : tape),
    (1 <= length ds)%nat -> (length ds + n = K)%nat -> (n < fuel)%nat ->
    simulate_W_loop fuel T K cutoff maxloops
                    (ds ++ repeat (zeros T) n) (length ds) loops s
    = (rest <- mapM (fun _ => diffusion T) (seq (length ds) n) ;;
       ret (transpose T (ds ++ rest))) s.
Proof.
  induction n as [|n IH]; intros ds fuel loops s Hds HK Hfuel;
    (destruct fuel as [|fuel]; [lia|]).
  - simpl. replace (length ds <? K)%nat with false
      by (symmetry; apply Nat.ltb_ge; lia).
    reflexivity.
  - cbn [simulate_W_loop].
    replace (length ds <? K)%nat with true
      by (symmetry; apply Nat.ltb_lt; lia).
    cbn [seq mapM repeat].
    unfold bind at 1. unfold bind at 3. unfold bind at 3.
    destruct (diffusion T s) as [[d | e |] s1]; [|reflexivity|reflexivity].
    unfold bind at 1. unfold lift at 1. unfold setrow.
    rewrite set_nth_app. cbn [of_option].
    unfold bind at 1. unfold lift at 1.
    rewrite test_correlation_later_column by exact Hds.
    replace (0 >? maxloops)%Z with false by lia.
    specialize (IH (ds ++ [d]) fuel 0%Z s1).
    rewrite length_app in IH. cbn [length] in IH.
    rewrite Nat.add_1_r in IH. rewrite <- app_assoc in IH.
    cbn [app] in IH. rewrite IH by lia.
    unfold bind.
    destruct (mapM (fun _ : nat => diffusion T) (seq (S (length ds)) n) s1)
      as [[rest | e |] s2]; try reflexivity.
    unfold ret. rewrite <- app_assoc. reflexivity.
Qed.

(** With at least two modules and two time steps the loop never rejects a
    column: [simulate_W] is K draws of [diffusion] and a transposition,
    whatever the cutoff. *)
Lemma simulate_W_never_rejects (fuel : nat) (s : tape) :
  (2 <= K)%nat -> (K < fuel)%nat ->
  simulate_W fuel T K cutoff maxloops s
  = (ds <- mapM (fun _ => diffusion T) (seq 0 K) ;;
     ret (transpose T ds)) s.
Proof.
  intros HK Hfuel. unfold simulate_W.
  destruct fuel as [|fuel]; [lia|].
  destruct K as [|[|K2]] eqn:EK; try lia.
  cbn [simulate_W_loop].
  change (seq 0 (S (S K2))) with (0%nat :: seq 1 (S K2)). cbn [mapM].
  change (0 <? S (S K2))%nat with true. cbv iota.
  unfold bind at 1. unfold bind at 3. unfold bind at 3.
  destruct (diffusion_length s (T := T)) as (d & s1 & Hd & Hlen); [lia|].
  rewrite Hd.
  unfold bind at 1. unfold lift at 1.
  change (setrow (zeros2 (S (S K2)) T) 0 d)
    with (@Ok matrix (d :: repeat (zeros T) (S K2))).
  unfold bind at 1. unfold lift at 1.
  rewrite <- Hlen at 1.
  rewrite test_correlation_first_column by lia.
  replace (0 >? maxloops)%Z with false by lia.
  pose proof (@simulate_W_loop_draws (S K2) [d] fuel 0%Z s1) as Hloop.
  rewrite EK in Hloop. cbn [length app] in Hloop.
  etransitivity; [apply Hloop; lia|].
  unfold bind.
  destruct (mapM (fun _ : nat => diffusion T) (seq 1 (S K2)) s1)
    as [[rest | e |] s2]; reflexivity.
Qed.

End NoRejection.

(** On the tape of ones every diffusion of length 2 is [1; 2]. *)
Lemma diffusion_on_ones (fp ip : nat) (g : nat -> nat) :
  diffusion 2 {| floats := fun _ => 1; fpos := fp; ints := g; ipos := ip |}
  = (Ok [1; 2],
     {| floats := fun _ => 1; fpos := 4 + fp; ints := g; ipos := ip |}).
Proof. reflexivity. Qed.

(** C1, at a failing input. With T = 2, K = 2, the default cutoff 0.2 and
    the tape of ones, both diffusions drawn are [1; 2]; [simulate_W]
    returns the matrix with these two equal columns: their correlation
    is 1, above the cutoff, and the second column was not rejected. *)
Theorem simulate_W_keeps_correlated_columns :
  let W := [[1; 1]; [2; 2]] in
  fst (simulate_W 3 2 2 default_cutoff default_maxloops (constant_tape 1))
  = Ok W /\
  exists r,
    pearsonr (column W 0) (column W 1) = Ok (Some r) /\
    r == 1 /\
    exceeds (Some r) default_cutoff = true /\
    within_cutoff (Some r) default_cutoff = false.
Proof.
  split; [reflexivity|].
  eexists. split; [reflexivity|].
  split; [reflexivity | split; reflexivity].
Qed.

Lemma single_module_loops (fuel : nat) (maxloops loops : Z) (w : vector)
  (fp ip : nat) (g : nat -> nat) :
  fst (simulate_W_loop fuel 2 1 default_cutoff maxloops [w] 0 loops
         {| floats := fun _ => 1; fpos := fp; ints := g; ipos := ip |})
  = Diverge.
Proof.
  revert loops w fp. induction fuel as [|fuel IH]; intros loops w fp.
  - reflexivity.
  - cbn [simulate_W_loop]. change (0 <? 1)%nat with true. cbv iota.
    unfold bind at 1. rewrite diffusion_on_ones.
    unfold bind at 1. unfold lift at 1.
    change (setrow [w] 0 [1; 2]) with (@Ok matrix [[1; 2]]).
    unfold bind at 1. unfold lift at 1.
    change (test_correlation [[1; 2]] 0 default_cutoff) with (@Ok bool true).
    apply IH.
Qed.

(** C3, at a failing input. With T = 2, K = 1 and the tape of ones the
    only column is compared with itself and rejected in every pass; the
    [continue] skips the test of [loops] against [maxloops], so for every
    amount of fuel, every [maxloops] and every value the rejection count
    has reached, the loop is still running: nothing is returned and the
    restart is never taken. *)
Theorem simulate_W_single_module_never_restarts (fuel : nat)
  (maxloops loops : Z) :
  fst (simulate_W fuel 2 1 default_cutoff maxloops (constant_tape 1))
  = Diverge /\
  fst (simulate_W_loop fuel 2 1 default_cutoff maxloops [[1; 2]] 0 loops
         (constant_tape 1))
  = Diverge.
Proof.
  split; apply single_module_loops.
Qed.

(** ** Continuity across branch points *)

Lemma map2_length {A B C} (f : A -> B -> C) (xs : list A) (ys : list B) :
  length xs = length ys -> length (map2 f xs ys) = length xs.
Proof.
  revert ys. induction xs as [|x xs IH]; intros [|y ys] H; simpl in *;
    try discriminate; auto.
Qed.

Lemma vsub_vsub (x y : vector) :
  length x = length y -> same_row (vsub x (vsub x y)) y.
Proof.
  revert y. induction x as [|a x IH]; intros [|b y] H; simpl in *;
    try discriminate.
  - constructor.
  - constructor; [ring | apply IH; lia].
Qed.

Lemma set_nth_spec {A} (xs : list A) (i : nat) (v : A) :
  (i < length xs)%nat ->
  exists xs', Py.set_nth xs i v = Some xs' /\
              length xs' = length xs /\
              nth_error xs' i = Some v /\
              (forall j, j <> i -> nth_error xs' j = nth_error xs j) /\
              (forall x, In x xs' -> x = v \/ In x xs).
Proof.
  revert i. induction xs as [|x xs IH]; intros [|i] Hi; simpl in *;
    try lia.
  - eexists. split; [reflexivity|].
    split; [reflexivity | split; [reflexivity | split]].
    + intros [|j] Hj; [contradiction | reflexivity].
    + intros y [<- | Hy]; auto.
  - destruct (IH i) as (xs' & -> & Hlen & Hnth & Hother & Hin); [lia|].
    eexists. split; [reflexivity|]. simpl.
    split; [congruence | split; [exact Hnth | split]].
    + intros [|j] Hj; [reflexivity | apply Hother; congruence].
    + intros y [<- | Hy]; auto. destruct (Hin y Hy); auto.
Qed.

Lemma getitem_nat {A} (xs : list A) (i : nat) :
  (i < length xs)%nat ->
  exists x, getitem xs (Z.of_nat i) = Ok x /\ nth_error xs i = Some x /\
            In x xs.
Proof.
  intros Hi. destruct (nth_error xs i) as [x|] eqn:E.
  - exists x. unfold getitem, Py.index.
    destruct (0 <=? Z.of_nat i)%Z eqn:E0; [|lia].
    rewrite Nat2Z.id, E. repeat split. eapply nth_error_In, E.
  - apply nth_error_None in E. lia.
Qed.

Lemma bifurc_adjust_spec (G : nat) (child parent : matrix) :
  child <> [] -> (forall row, In row child -> length row = G) ->
  parent <> [] -> (forall row, In row parent -> length row = G) ->
  exists adjusted first last,
    bifurc_adjust child parent = Ok adjusted /\
    adjusted <> [] /\
    (forall row, In row adjusted -> length row = G) /\
    Py.index adjusted 0 = Some first /\
    Py.index parent (-1) = Some last /\
    same_row first last.
Proof.
  intros Hc Hcrows Hp Hprows.
  destruct child as [|c0 ctl]; [contradiction|].
  pose proof (@index_last _ parent [] Hp) as Hlast.
  assert (Hlen_last : length (last parent []) = G).
  { apply Hprows. destruct parent as [|p0 ptl]; [contradiction|].
    apply exists_last in Hp. destruct Hp as (l & a & ->).
    rewrite last_last. apply in_or_app. right. left. reflexivity. }
  assert (Hlen_c0 : length c0 = G) by (apply Hcrows; left; reflexivity).
  exists (map (fun row => vsub row (vsub c0 (last parent []))) (c0 :: ctl)),
         (vsub c0 (vsub c0 (last parent []))), (last parent []).
  split; [|split; [|split; [|split; [|split]]]].
  - unfold bifurc_adjust, getitem. rewrite Hlast. reflexivity.
  - discriminate.
  - intros row Hrow. apply in_map_iff in Hrow.
    destruct Hrow as (r & <- & Hr). unfold vsub.
    rewrite map2_length; [apply Hcrows, Hr|].
    rewrite map2_length; [|congruence].
    rewrite (Hcrows r Hr). congruence.
  - reflexivity.
  - exact Hlast.
  - apply vsub_vsub. congruence.
Qed.

Lemma topological_cons (e : nat * nat) (rest : list (nat * nat)) :
  topological (e :: rest) = true ->
  fst e <> snd e /\
  (forall e', In e' rest -> snd e' <> fst e /\ snd e' <> snd e) /\
  topological rest = true.
Proof.
  simpl. intros H.
  apply andb_true_iff in H. destruct H as (H & Hrest).
  apply andb_true_iff in H. destruct H as (Hne & Hall).
  split; [|split; [|exact Hrest]].
  - apply negb_true_iff, Nat.eqb_neq in Hne. exact Hne.
  - intros e' He'. rewrite forallb_forall in Hall.
    specialize (Hall e' He'). apply andb_true_iff in Hall.
    destruct Hall as (H1 & H2).
    apply negb_true_iff, Nat.eqb_neq in H1.
    apply negb_true_iff, Nat.eqb_neq in H2. auto.
Qed.

(** The adjustment loop on an edge list in that order: it returns, it
    writes only the children of the edges, and every edge is continuous
    in the result. *)
Lemma adjust_edges_continuous (G : nat) (edges : list (nat * nat)) :
  forall Ms : list matrix,
    shaped G Ms ->
    topological edges = true ->
    (forall e, In e edges ->
       (fst e < length Ms)%nat /\ (snd e < length Ms)%nat) ->
    exists Ms',
      adjust_edges edges Ms = Ok Ms' /\
      length Ms' = length Ms /\
      shaped G Ms' /\
      (forall j, (forall e, In e edges -> snd e <> j) ->
                 nth_error Ms' j = nth_error Ms j) /\
      (forall e, In e edges -> continuous Ms' e).
Proof.
  induction edges as [|[p c] rest IH]; intros Ms Hshape Htopo Hrange.
  - exists Ms. split; [reflexivity | split; [reflexivity|]].
    split; [exact Hshape | split; [reflexivity | intros e []]].
  - apply topological_cons in Htopo.
    destruct Htopo as (Hpc & Hlater & Htopo). simpl in Hpc.
    destruct (Hrange (p, c)) as (Hp & Hc); [left; reflexivity|].
    simpl in Hp, Hc.
    destruct (getitem_nat Ms Hc) as (child & Hgc & Hnc & Hinc).
    destruct (getitem_nat Ms Hp) as (parent & Hgp & Hnp & Hinp).
    destruct (Hshape child Hinc) as (Hcne & Hcrows).
    destruct (Hshape parent Hinp) as (Hpne & Hprows).
    destruct (bifurc_adjust_spec Hcne Hcrows Hpne Hprows)
      as (adjusted & first & last & Hadj & Hane & Harows & Hfirst & Hlast
          & Hsame).
    destruct (set_nth_spec Ms adjusted Hc)
      as (Ms1 & Hset & Hlen1 & Hnth1 & Hother1 & Hin1).
    assert (Hshape1 : shaped G Ms1).
    { intros Mb HMb. destruct (Hin1 Mb HMb) as [-> | HMb'];
        [split; assumption | apply Hshape, HMb']. }
    destruct (IH Ms1 Hshape1 Htopo) as (Ms' & Hrun & Hlen' & Hshape' & Hkeep
                                         & Hcont).
    { intros e He. rewrite Hlen1. apply Hrange. right. exact He. }
    exists Ms'. split; [|split; [|split; [|split]]].
    + cbn [adjust_edges fst snd]. rewrite Hgc. cbn [rbind].
      rewrite Hgp. cbn [rbind]. rewrite Hadj. cbn [rbind].
      rewrite Hset. cbn [of_option rbind]. exact Hrun.
    + congruence.
    + exact Hshape'.
    + intros j Hj. rewrite Hkeep.
      * apply Hother1. intros ->. apply (Hj (p, c)); [left|]; reflexivity.
      * intros e He. apply Hj. right. exact He.
    + intros e [<- | He]; [|apply Hcont, He].
      exists parent, adjusted, first, last. cbn [fst snd].
      repeat split; try assumption.
      * rewrite Hkeep; [rewrite Hother1 by exact Hpc; exact Hnp|].
        intros e He. apply Hlater, He.
      * rewrite Hkeep; [exact Hnth1|].
        intros e He. apply Hlater, He.
Qed.

(** The adjustment loop returns on any edge list whose indices are
    branches. *)
Lemma adjust_edges_returns (G : nat) (edges : list (nat * nat)) :
  forall Ms : list matrix,
    shaped G Ms ->
    (forall e, In e edges ->
       (fst e < length Ms)%nat /\ (snd e < length Ms)%nat) ->
    exists Ms',
      adjust_edges edges Ms = Ok Ms' /\ length Ms' = length Ms /\
      shaped G Ms'.
Proof.
  induction edges as [|[p c] rest IH]; intros Ms Hshape Hrange.
  - exists Ms. split; [reflexivity | split; [reflexivity | exact Hshape]].
  - destruct (Hrange (p, c)) as (Hp & Hc); [left; reflexivity|].
    simpl in Hp, Hc.
    destruct (getitem_nat Ms Hc) as (child & Hgc & Hnc & Hinc).
    destruct (getitem_nat Ms Hp) as (parent & Hgp & Hnp & Hinp).
    destruct (Hshape child Hinc) as (Hcne & Hcrows).
    destruct (Hshape parent Hinp) as (Hpne & Hprows).
    destruct (bifurc_adjust_spec Hcne Hcrows Hpne Hprows)
      as (adjusted & first & last & Hadj & Hane & Harows & _).
    destruct (set_nth_spec Ms adjusted Hc)
      as (Ms1 & Hset & Hlen1 & _ & _ & Hin1).
    assert (Hshape1 : shaped G Ms1).
    { intros Mb HMb. destruct (Hin1 Mb HMb) as [-> | HMb'];
        [split; assumption | apply Hshape, HMb']. }
    destruct (IH Ms1 Hshape1) as (Ms' & Hrun & Hlen' & Hshape').
    { intros e He. rewrite Hlen1. apply Hrange. right. exact He. }
    exists Ms'. split; [|split; [congruence | exact Hshape']].
    cbn [adjust_edges fst snd]. rewrite Hgc. cbn [rbind].
    rewrite Hgp. cbn [rbind]. rewrite Hadj. cbn [rbind].
    rewrite Hset. cbn [of_option rbind]. exact Hrun.
Qed.

(** ** The composer returns on a well-formed tree *)

Lemma draw_diffusions (T : nat) (ks : list nat) s :
  (1 <= T)%nat ->
  runs (mapM (fun _ => diffusion T) ks) s
       (fun ds _ => length ds = length ks).
Proof.
  intros HT.
  eapply runs_weaken.
  - apply (@runs_mapM nat vector (fun _ => diffusion T) (fun _ _ => True)).
    intros k s0 _. eapply runs_weaken; [apply diffusion_length, HT|].
    intros; exact I.
  - intros ds s' Hall. symmetry. eapply Forall2_length, Hall.
Qed.

(** The shape of what [simulate_W] returns: T rows of K entries. *)
Lemma simulate_W_shape (fuel T K : nat) (cutoff : Q) (maxloops : Z) s :
  (2 <= T)%nat -> (2 <= K)%nat -> (0 <= maxloops)%Z -> (K < fuel)%nat ->
  runs (simulate_W fuel T K cutoff maxloops) s
       (fun W _ => length W = T /\ forall row, In row W -> length row = K).
Proof.
  intros HT HK Hml Hfuel. unfold runs.
  rewrite simulate_W_never_rejects by assumption.
  apply runs_bind.
  eapply runs_weaken; [apply draw_diffusions; lia|].
  intros ds s1 Hds. rewrite length_seq in Hds. apply runs_ret.
  unfold transpose. split.
  - rewrite length_map, length_seq. reflexivity.
  - intros row Hrow. apply in_map_iff in Hrow.
    destruct Hrow as (t & <- & _). rewrite length_map. exact Hds.
Qed.

Lemma simulate_H_row_runs (a b : Q) (G : nat) (gs : list nat) :
  (forall g, In g gs -> (g < G)%nat) ->
  forall (row : vector) s, length row = G ->
    runs (simulate_H_row a b gs row) s (fun out _ => length out = G).
Proof.
  induction gs as [|g tl IH]; intros Hgs row s Hrow; simpl.
  - apply runs_ret. exact Hrow.
  - assert (Hg : (g < length row)%nat)
      by (rewrite Hrow; apply Hgs; left; reflexivity).
    destruct (getitem_nat row Hg) as (old & Hold & _).
    apply runs_bind. eapply runs_lift; [exact Hold|].
    apply runs_bind, runs_next_float.
    destruct (set_nth_spec row (old + floats s (fpos s)) Hg)
      as (row' & Hset & Hlen & _).
    apply runs_bind. eapply runs_lift; [rewrite Hset; reflexivity|].
    apply IH; [intros g' Hg'; apply Hgs; right; exact Hg' | congruence].
Qed.

Lemma simulate_H_runs (K G : nat) (groups : list (list nat)) (a b : Q) s :
  length groups = K ->
  (forall g, In g (concat groups) -> (g < G)%nat) ->
  runs (simulate_H K G groups a b) s (fun H _ => length H = K).
Proof.
  intros Hlen Hin. unfold simulate_H.
  eapply runs_weaken.
  - apply (@runs_mapM nat vector _ (fun _ row => length row = G)).
    intros k s0 Hk. apply in_seq in Hk.
    assert (Hk' : (k < length groups)%nat) by lia.
    destruct (getitem_nat groups Hk') as (gs & Hgs & _ & Hgin).
    apply runs_bind. eapply runs_lift; [exact Hgs|].
    apply simulate_H_row_runs.
    + intros g Hg. apply Hin. apply in_concat. exists gs. split; assumption.
    + apply repeat_length.
  - intros H s' Hall. apply Forall2_length in Hall.
    rewrite length_seq in Hall. symmetry. exact Hall.
Qed.

Lemma dot_shape (W H : matrix) (G : nat) :
  length (dot W H G) = length W /\
  forall row, In row (dot W H G) -> length row = G.
Proof.
  unfold dot. split.
  - apply length_map.
  - intros row Hrow. apply in_map_iff in Hrow.
    destruct Hrow as (w & <- & _). rewrite length_map. apply length_seq.
Qed.

Lemma simulate_branch_runs (fuel G : nat) (Ts Ks : list nat) (i : nat) s :
  (i < length Ts)%nat -> (i < length Ks)%nat ->
  Forall (fun T => (2 <= T)%nat) Ts ->
  Forall (fun K => (2 <= K)%nat) Ks ->
  Forall (fun K => (K < fuel)%nat) Ks ->
  runs (simulate_branch fuel G Ts Ks i) s
       (fun WM _ =>
          snd WM <> [] /\ forall row, In row (snd WM) -> length row = G).
Proof.
  intros HiT HiK HTs HKs Hfuel. unfold simulate_branch.
  destruct (getitem_nat Ks HiK) as (K & HK & _ & HKin).
  destruct (getitem_nat Ts HiT) as (T & HT & _ & HTin).
  rewrite Forall_forall in HTs, HKs, Hfuel.
  apply runs_bind. eapply runs_lift; [exact HK|].
  apply runs_bind. eapply runs_lift; [exact HT|].
  apply runs_bind.
  eapply runs_weaken;
    [apply simulate_W_shape;
     [apply HTs, HTin | apply HKs, HKin | unfold default_maxloops; lia
     | apply Hfuel, HKin]|].
  intros W s1 (HWlen & _).
  apply runs_bind.
  assert (HK1 : (1 <= K)%nat) by (specialize (HKs K HKin); lia).
  eapply runs_weaken; [apply (create_groups_perm G s1 HK1)|].
  intros groups s2 (Hglen & Hperm).
  apply runs_bind.
  eapply runs_weaken; [apply simulate_H_runs; [exact Hglen|]|].
  { intros g Hg. apply (Permutation_in _ Hperm) in Hg.
    apply in_app_or in Hg. destruct Hg as [Hg | Hg];
      apply in_seq in Hg; lia. }
  intros H s3 _. apply runs_ret. cbn [snd].
  destruct (dot_shape W H G) as (Hlen & Hrows).
  split; [|exact Hrows].
  intros E. rewrite E in Hlen. simpl in Hlen.
  specialize (HTs T HTin). lia.
Qed.

Lemma Forall2_right {A B} (R : A -> B -> Prop) (xs : list A) (ys : list B) :
  Forall2 R xs ys -> forall y, In y ys -> exists x, In x xs /\ R x y.
Proof.
  induction 1 as [|x y xs ys HR _ IH]; intros y0 Hy; [contradiction|].
  destruct Hy as [<- | Hy].
  - exists x. split; [left; reflexivity | exact HR].
  - destruct (IH y0 Hy) as (x0 & Hx0 & HR0).
    exists x0. split; [right; exact Hx0 | exact HR0].
Qed.

(** The per-branch loop returns one pair per branch, each mean matrix
    with at least one row and G columns. *)
Lemma simulate_branches_run (fuel G : nat) (tree : Tree) s :
  well_formed tree ->
  Forall (fun K => (K < fuel)%nat) (modules tree) ->
  runs (mapM (simulate_branch fuel G (time tree) (modules tree))
             (seq 0 (branches tree))) s
       (fun WMs _ => length WMs = branches tree /\
                     shaped G (map snd WMs)).
Proof.
  intros (HlT & HlK & HTs & HKs & _) Hfuel.
  eapply runs_weaken.
  - apply (@runs_mapM nat (matrix * matrix) _
             (fun _ WM => snd WM <> [] /\
                          forall row, In row (snd WM) -> length row = G)).
    intros i s0 Hi. apply in_seq in Hi.
    apply simulate_branch_runs; try assumption; lia.
  - intros WMs s' Hall. split.
    + apply Forall2_length in Hall. rewrite length_seq in Hall.
      symmetry. exact Hall.
    + intros Mb HMb. apply in_map_iff in HMb.
      destruct HMb as (WM & <- & HWM).
      destruct (Forall2_right Hall WM HWM) as (_ & _ & HR). exact HR.
Qed.

(** ** Where the process exit can come from *)

Create HintDb quiet.

Lemma rquiet_Ok {A} (a : A) : rquiet (Ok a).
Proof. intros c H. discriminate H. Qed.

Lemma rquiet_of_option_index {A} (o : option A) :
  rquiet (of_option o Py.IndexError).
Proof. intros c H. destruct o; discriminate H. Qed.

Lemma rquiet_getitem {A} (xs : list A) (i : Z) : rquiet (getitem xs i).
Proof. apply rquiet_of_option_index. Qed.

Lemma rquiet_rbind {A B} (r : res A) (f : A -> res B) :
  rquiet r -> (forall a, rquiet (f a)) -> rquiet (rbind r f).
Proof.
  intros Hr Hf c H. destruct r as [a | e |]; simpl in H.
  - exact (Hf a c H).
  - apply (Hr c). congruence.
  - discriminate H.
Qed.

Lemma rquiet_pearsonr (x y : vector) : rquiet (pearsonr x y).
Proof.
  intros c H. unfold pearsonr in H.
  destruct (negb (length x =? length y)%nat); [discriminate H|].
  destruct (length x <? 2)%nat; [discriminate H|].
  destruct (is_constant x || is_constant y); discriminate H.
Qed.

#[local] Hint Resolve rquiet_Ok rquiet_of_option_index rquiet_getitem
  rquiet_pearsonr : quiet.

Lemma rquiet_test_correlation_loop (W : matrix) (k : nat) (cutoff : Q)
  (idxs : list Z) : rquiet (test_correlation_loop W k cutoff idxs).
Proof.
  induction idxs as [|i rest IH]; simpl; auto with quiet.
  apply rquiet_rbind; [auto with quiet|]. intros wk.
  apply rquiet_rbind; [auto with quiet|]. intros wi.
  apply rquiet_rbind; [auto with quiet|]. intros p.
  destruct (exceeds p cutoff); auto with quiet.
Qed.

Lemma rquiet_bifurc_adjust (Mu_bif Mu : matrix) :
  rquiet (bifurc_adjust Mu_bif Mu).
Proof.
  unfold bifurc_adjust.
  apply rquiet_rbind; [auto with quiet|]. intros first.
  apply rquiet_rbind; auto with quiet.
Qed.

Lemma rquiet_adjust_edges (edges : list (nat * nat)) (Ms : list matrix) :
  rquiet (adjust_edges edges Ms).
Proof.
  revert Ms. induction edges as [|b rest IH]; intros Ms; simpl;
    auto with quiet.
  apply rquiet_rbind; [auto with quiet|]. intros child.
  apply rquiet_rbind; [auto with quiet|]. intros parent.
  apply rquiet_rbind; [apply rquiet_bifurc_adjust|]. intros adjusted.
  apply rquiet_rbind; auto with quiet.
Qed.

Lemma quiet_ret {A} (a : A) : quiet (ret a).
Proof. intros s c H. discriminate H. Qed.

Lemma quiet_diverge {A} : quiet (@diverge A).
Proof. intros s c H. discriminate H. Qed.

Lemma quiet_lift {A} (r : res A) : rquiet r -> quiet (lift r).
Proof. intros Hr s c H. exact (Hr c H). Qed.

Lemma quiet_next_float : quiet next_float.
Proof. intros s c H. discriminate H. Qed.

Lemma quiet_next_int : quiet next_int.
Proof. intros s c H. discriminate H. Qed.

Lemma quiet_bind {A B} (m : M A) (f : A -> M B) :
  quiet m -> (forall a, quiet (f a)) -> quiet (bind m f).
Proof.
  intros Hm Hf s c H. unfold bind in H.
  specialize (Hm s c). destruct (m s) as [[a | e |] s'].
  - exact (Hf a s' c H).
  - apply Hm. simpl in *. congruence.
  - discriminate H.
Qed.

Lemma quiet_mapM {A B} (f : A -> M B) (xs : list A) :
  (forall x, quiet (f x)) -> quiet (mapM f xs).
Proof.
  intros Hf. induction xs as [|x tl IH]; simpl.
  - apply quiet_ret.
  - apply quiet_bind; [apply Hf|]. intros y.
    apply quiet_bind; [exact IH|]. intros ys. apply quiet_ret.
Qed.

Lemma quiet_raise_index {A} : quiet (@raise A Py.IndexError).
Proof. intros s c H. discriminate H. Qed.

Lemma quiet_raise_value {A} : quiet (@raise A Py.ValueError).
Proof. intros s c H. discriminate H. Qed.

Lemma quiet_raise_type {A} : quiet (@raise A Py.TypeError).
Proof. intros s c H. discriminate H. Qed.

#[local] Hint Resolve quiet_ret quiet_diverge quiet_lift quiet_next_float
  quiet_next_int quiet_raise_index quiet_raise_value quiet_raise_type
  rquiet_test_correlation_loop rquiet_bifurc_adjust rquiet_adjust_edges
  : quiet.

(** Peel the binds of a computation and close the leaves from the hint
    database. *)
Ltac quiet_steps :=
  repeat first
    [ progress auto with quiet
    | apply quiet_bind; [|intro]
    | apply quiet_mapM; intro ].

Lemma quiet_diffusion_steps (n : nat) (eta s_eps w v : Q) :
  quiet (diffusion_steps n eta s_eps w v).
Proof.
  revert w v. induction n as [|n IH]; intros w v; simpl.
  - quiet_steps.
  - apply quiet_bind; [apply quiet_next_float|]. intros epsilon.
    apply quiet_bind; [apply IH|]. intros rest. apply quiet_ret.
Qed.

Lemma quiet_diffusion (T : nat) : quiet (diffusion T).
Proof.
  destruct T as [|n]; unfold diffusion, uniform_rvs, norm_rvs.
  - quiet_steps.
  - apply quiet_bind; [apply quiet_next_float|]. intros w0.
    apply quiet_bind; [apply quiet_next_float|]. intros v0.
    apply quiet_bind; [apply quiet_next_float|]. intros eta.
    apply quiet_bind; [apply quiet_diffusion_steps|]. intros rest.
    apply quiet_ret.
Qed.

Lemma quiet_simulate_W (fuel T K : nat) (cutoff : Q) (maxloops : Z) :
  quiet (simulate_W fuel T K cutoff maxloops).
Proof.
  unfold simulate_W. generalize (zeros2 K T) 0%nat 0%Z.
  induction fuel as [|fuel IH]; intros W k loops; cbn [simulate_W_loop].
  - apply quiet_diverge.
  - destruct (k <? K)%nat; [|apply quiet_ret].
    apply quiet_bind; [apply quiet_diffusion|]. intros d.
    apply quiet_bind.
    { apply quiet_lift. unfold setrow. auto with quiet. }
    intros W'. apply quiet_bind.
    { apply quiet_lift. unfold test_correlation. auto with quiet. }
    intros [|]; [apply IH|].
    destruct (0 >? maxloops)%Z; [apply quiet_raise_type | apply IH].
Qed.

Lemma quiet_randrange (k : nat) : quiet (randrange k).
Proof. destruct k; unfold randrange; quiet_steps. Qed.

Lemma quiet_random_partition {A} (k : nat) (iterable : list A) :
  quiet (random_partition k iterable).
Proof.
  unfold random_partition. generalize (repeat (@nil A) k).
  induction iterable as [|v tl IH]; intros results; simpl.
  - apply quiet_ret.
  - apply quiet_bind; [apply quiet_randrange|]. intros x. apply IH.
Qed.

Lemma quiet_np_permutation (G : nat) : quiet (np_permutation G).
Proof.
  unfold np_permutation. generalize 0%nat (@nil nat).
  induction G as [|n IH]; intros i acc; simpl.
  - apply quiet_ret.
  - apply quiet_bind; [apply quiet_next_int|]. intros x. apply IH.
Qed.

Lemma quiet_create_groups (K G : nat) : quiet (create_groups K G).
Proof.
  unfold create_groups.
  apply quiet_bind; [apply quiet_np_permutation|]. intros genes1.
  apply quiet_bind; [apply quiet_random_partition|]. intros groups1.
  apply quiet_bind; [apply quiet_np_permutation|]. intros genes2.
  apply quiet_bind; [apply quiet_random_partition|]. intros groups2.
  apply quiet_ret.
Qed.

Lemma quiet_simulate_H_row (a b : Q) (gs : list nat) (row : vector) :
  quiet (simulate_H_row a b gs row).
Proof.
  revert row. induction gs as [|g tl IH]; intros row; simpl.
  - apply quiet_ret.
  - apply quiet_bind; [auto with quiet|]. intros old.
    apply quiet_bind; [apply quiet_next_float|]. intros x.
    apply quiet_bind; [auto with quiet|]. intros row'. apply IH.
Qed.

Lemma quiet_simulate_H (K G : nat) (groups : list (list nat)) (a b : Q) :
  quiet (simulate_H K G groups a b).
Proof.
  unfold simulate_H. apply quiet_mapM. intros k.
  apply quiet_bind; [auto with quiet|]. intros gs.
  apply quiet_simulate_H_row.
Qed.

Lemma quiet_simulate_branch (fuel G : nat) (Ts Ks : list nat) (i : nat) :
  quiet (simulate_branch fuel G Ts Ks i).
Proof.
  unfold simulate_branch.
  apply quiet_bind; [auto with quiet|]. intros K.
  apply quiet_bind; [auto with quiet|]. intros T.
  apply quiet_bind; [apply quiet_simulate_W|]. intros W.
  apply quiet_bind; [apply quiet_create_groups|]. intros groups.
  apply quiet_bind; [apply quiet_simulate_H|]. intros H.
  apply quiet_ret.
Qed.

(** ** The composer: validation and continuity *)

Lemma lengths_checked (tree : Tree) :
  forallb (fun l => (l =? branches tree)%nat)
          [length (time tree); length (modules tree)] = true
  <-> length (time tree) = branches tree /\
      length (modules tree) = branches tree.
Proof.
  simpl. rewrite andb_true_r, andb_true_iff, !Nat.eqb_eq. reflexivity.
Qed.

Lemma simulate_branching_data_returns (fuel G : nat) (tree : Tree) s :
  well_formed tree ->
  Forall (fun K => (K < fuel)%nat) (modules tree) ->
  exists WMs s',
    mapM (simulate_branch fuel G (time tree) (modules tree))
         (seq 0 (branches tree)) s = (Ok WMs, s') /\
    length WMs = branches tree /\
    shaped G (map snd WMs) /\
    forall Ms', adjust_edges (topology tree) (map snd WMs) = Ok Ms' ->
                simulate_branching_data fuel G tree s
                = (Ok (Ms', map fst WMs), s').
Proof.
  intros Hwf Hfuel.
  destruct (simulate_branches_run G s Hwf Hfuel)
    as (WMs & s' & Hrun & Hlen & Hshape).
  exists WMs, s'.
  split; [exact Hrun | split; [exact Hlen | split; [exact Hshape|]]].
  intros Ms' Hadj. unfold simulate_branching_data.
  destruct Hwf as (HlT & HlK & _).
  replace (forallb (fun l => (l =? branches tree)%nat)
                   [length (time tree); length (modules tree)])
    with true by (symmetry; apply lengths_checked; auto).
  cbn [negb]. unfold bind at 1. rewrite Hrun.
  unfold bind, lift. rewrite Hadj. reflexivity.
Qed.

(** C2, as the code has it. On a well-formed tree whose edge list is in
    topological order, [simulate_branching_data] returns, and for every
    edge (parent, child) of the list the first mean row of the child
    equals, gene by gene, the last mean row of the parent. *)
Theorem simulate_branching_data_continuous (fuel G : nat) (tree : Tree)
  (s : tape) :
  well_formed tree ->
  Forall (fun K => (K < fuel)%nat) (modules tree) ->
  topological (topology tree) = true ->
  exists Ms Ws s',
    simulate_branching_data fuel G tree s = (Ok (Ms, Ws), s') /\
    forall e, In e (topology tree) -> continuous Ms e.
Proof.
  intros Hwf Hfuel Htopo.
  destruct (simulate_branching_data_returns G s Hwf Hfuel)
    as (WMs & s' & _ & Hlen & Hshape & Hfinish).
  destruct (@adjust_edges_continuous G (topology tree) (map snd WMs))
    as (Ms' & Hadj & _ & _ & _ & Hcont).
  - exact Hshape.
  - exact Htopo.
  - destruct Hwf as (_ & _ & _ & _ & Hedges).
    rewrite Forall_forall in Hedges. rewrite length_map, Hlen.
    exact Hedges.
  - exists Ms', (map fst WMs), s'. split; [apply Hfinish, Hadj | exact Hcont].
Qed.

Lemma docstring_tree_well_formed : well_formed docstring_tree.
Proof.
  unfold well_formed, docstring_tree. cbn.
  repeat split; repeat constructor; cbn; lia.
Qed.

Lemma simulate_branching_data_continuous_witness :
  exists Ms Ws s',
    simulate_branching_data 3 2 docstring_tree (constant_tape 1)
    = (Ok (Ms, Ws), s') /\
    forall e, In e (topology docstring_tree) -> continuous Ms e.
Proof.
  apply (@simulate_branching_data_continuous 3 2 docstring_tree
           (constant_tape 1)).
  - exact docstring_tree_well_formed.
  - repeat constructor.
  - reflexivity.
Defined.

(** With the edge (1, 2) listed before (0, 1), branch 2 is fitted to
    branch 1 before branch 1 is moved: in the result the first row of
    branch 2 is not the last row of branch 1. *)
Lemma continuity_fails_out_of_order :
  exists Ms Ws s',
    simulate_branching_data 3 1 chain_tree (constant_tape 1)
    = (Ok (Ms, Ws), s') /\
    In (1, 2)%nat (topology chain_tree) /\
    ~ continuous Ms (1, 2)%nat.
Proof.
  eexists _, _, _. split; [vm_compute; reflexivity|].
  split; [left; reflexivity|].
  intros (parent & child & first & last & Hp & Hc & Hf & Hl & Hsame).
  cbn in Hp, Hc. injection Hp as <-. injection Hc as <-.
  cbn in Hf, Hl. injection Hf as <-. injection Hl as <-.
  inversion Hsame as [|x y xs ys Hxy _]; subst.
  vm_compute in Hxy. discriminate Hxy.
Qed.

Lemma quiet_simulate_branches_then_adjust (fuel G : nat) (tree : Tree) :
  quiet (WMs <- mapM (simulate_branch fuel G (time tree) (modules tree))
                     (seq 0 (branches tree)) ;;
         Ms' <- lift (adjust_edges (topology tree) (map snd WMs)) ;;
         ret (Ms', map fst WMs)).
Proof.
  apply quiet_bind.
  - apply quiet_mapM. intros i. apply quiet_simulate_branch.
  - intros WMs. apply quiet_bind; [auto with quiet|].
    intros Ms'. apply quiet_ret.
Qed.

(** C7, as the code has it. [simulate_branching_data] ends in
    [sys.exit(1)] exactly when the length of [tree.time] or of
    [tree.modules] differs from the branch count, and it exits nowhere
    else; when both lengths agree and, in addition, every branch has at
    least two time steps and two modules and the edges name branches,
    it simulates every branch and returns one M and one W matrix per
    branch. *)
Theorem simulate_branching_data_validation (fuel G : nat) (tree : Tree)
  (s : tape) :
  let run := simulate_branching_data fuel G tree s in
  let mismatch := length (time tree) <> branches tree \/
                  length (modules tree) <> branches tree in
  (mismatch -> run = (Raise (Py.SystemExit 1), s)) /\
  ((exists c, fst run = Raise (Py.SystemExit c)) -> mismatch) /\
  (well_formed tree ->
   Forall (fun K => (K < fuel)%nat) (modules tree) ->
   exists Ms Ws s',
     run = (Ok (Ms, Ws), s') /\
     length Ms = branches tree /\ length Ws = branches tree).
Proof.
  intros run mismatch.
  destruct (forallb (fun l => (l =? branches tree)%nat)
                    [length (time tree); length (modules tree)]) eqn:E.
  - pose proof (proj1 (lengths_checked tree) E) as (HlT & HlK).
    split; [|split].
    + intros [H | H]; contradiction.
    + intros (c & Hc). exfalso. unfold run, simulate_branching_data in Hc.
      rewrite E in Hc. cbn [negb] in Hc.
      exact (@quiet_simulate_branches_then_adjust fuel G tree s c Hc).
    + intros Hwf Hfuel.
      destruct (simulate_branching_data_returns G s Hwf Hfuel)
        as (WMs & s' & _ & Hlen & Hshape & Hfinish).
      destruct (@adjust_edges_returns G (topology tree) (map snd WMs))
        as (Ms' & Hadj & Hlen' & _).
      * exact Hshape.
      * destruct Hwf as (_ & _ & _ & _ & Hedges).
        rewrite Forall_forall in Hedges. rewrite length_map, Hlen.
        exact Hedges.
      * exists Ms', (map fst WMs), s'.
        split; [apply Hfinish, Hadj|].
        rewrite Hlen', !length_map. split; exact Hlen.
  - assert (Hmis : mismatch).
    { unfold mismatch.
      destruct (Nat.eq_dec (length (time tree)) (branches tree)) as [H1|H1];
        [|left; exact H1].
      destruct (Nat.eq_dec (length (modules tree)) (branches tree))
        as [H2|H2]; [|right; exact H2].
      exfalso. rewrite (proj2 (lengths_checked tree)) in E by auto.
      discriminate E. }
    split; [|split].
    + intros _. unfold run, simulate_branching_data. rewrite E. reflexivity.
    + intros _. exact Hmis.
    + intros (HlT & HlK & _). destruct Hmis; contradiction.
Qed.

Lemma simulate_branching_data_validation_witness :
  exists Ms Ws s',
    simulate_branching_data 3 2 docstring_tree (constant_tape 1)
    = (Ok (Ms, Ws), s') /\
    length Ms = 5%nat /\ length Ws = 5%nat.
Proof.
  apply (@simulate_branching_data_validation 3 2 docstring_tree
           (constant_tape 1)).
  - exact docstring_tree_well_formed.
  - repeat constructor.
Defined.

(** One branch of length 0 with two modules: both lengths equal the
    branch count, the validation passes, and the first store of
    [diffusion] into an empty array raises [IndexError]; nothing is
    returned. *)
Lemma equal_lengths_do_not_ensure_return :
  let tree := {| branches := 1; time := [0%nat]; modules := [2%nat];
                 topology := [] |} in
  length (time tree) = branches tree /\
  length (modules tree) = branches tree /\
  (forall fuel,
     fst (simulate_branching_data (S fuel) 2 tree (constant_tape 1))
     = Raise Py.IndexError).
Proof.
  split; [reflexivity | split; [reflexivity|]].
  intros fuel. reflexivity.
Qed.

(** One branch with a single module: the validation passes and the
    module loop of that branch never ends. *)
Lemma single_module_branch_diverges (fuel : nat) :
  fst (simulate_branching_data fuel 2
         {| branches := 1; time := [2%nat]; modules := [1%nat];
            topology := [] |} (constant_tape 1))
  = Diverge.
Proof.
  unfold simulate_branching_data. cbn [time modules branches length forallb
    Nat.eqb andb negb seq mapM].
  unfold bind at 1. unfold bind at 1. unfold simulate_branch at 1.
  unfold bind at 1. unfold lift at 1. cbn [getitem Py.index].
  change (getitem [1%nat] (Z.of_nat 0)) with (@Ok nat 1%nat).
  unfold bind at 1. unfold lift at 1.
  change (getitem [2%nat] (Z.of_nat 0)) with (@Ok nat 2%nat).
  unfold bind at 1.
  pose proof (@single_module_loops fuel default_maxloops 0%Z (zeros 2)
                0 0 (fun n => n)) as Hloop.
  change (simulate_W_loop fuel 2 1 default_cutoff default_maxloops
            [zeros 2] 0 0)
    with (simulate_W fuel 2 1 default_cutoff default_maxloops) in Hloop.
  change {| floats := fun _ => 1; fpos := 0; ints := fun n => n; ipos := 0 |}
    with (constant_tape 1) in Hloop.
  destruct (simulate_W fuel 2 1 default_cutoff default_maxloops
              (constant_tape 1)) as [[W | e |] s1];
    simpl in Hloop; try discriminate Hloop.
  reflexivity.
Qed.

(** After the [None] of [pick_branch] the absolute-time sampler fails at
    its next line, the lookup [branching_times[b]]. *)
Lemma sample_at_outside_raises_KeyError (alpha beta : Q) (G : nat)
  (timezone : list interval) (branching_times : list (nat * interval))
  (means : list matrix) (timestamp : Q) (s : tape) :
  (forall z, In z timezone ->
     ~ (fst z <= astype_int timestamp <= snd z)%Z) ->
  sample_at alpha beta G timezone branching_times means
            (assign_branches branching_times timezone) timestamp s
  = (Raise Py.KeyError, s).
Proof.
  intros H. unfold sample_at. unfold bind at 1. unfold pick_branch.
  rewrite find_zone_outside by exact H.
  unfold assign_branches. rewrite dd_get_below by lia. reflexivity.
Qed.

(** * Part III: further properties of the code *)

(** ** The diffusion generator *)

Lemma next_float_run (s : tape) :
  next_float s = (Ok (floats s (fpos s)), skip_floats 1 s).
Proof.
  unfold next_float, skip_floats. f_equal. f_equal. lia.
Qed.

Lemma skip_floats_add (n m : nat) (s : tape) :
  skip_floats n (skip_floats m s) = skip_floats (m + n) s.
Proof. unfold skip_floats. simpl. f_equal. lia. Qed.

Lemma diffusion_steps_run (n : nat) (eta s_eps w v : Q) (s : tape) :
  exists l,
    diffusion_steps n eta s_eps w v s = (Ok l, skip_floats n s) /\
    length l = n /\
    ((1 <= n)%nat -> nth 0 l 0 = w + v).
Proof.
  revert w v s. induction n as [|n IH]; intros w v s.
  - exists []. split; [|split; [reflexivity | lia]].
    simpl. unfold ret, skip_floats. rewrite Nat.add_0_r.
    destruct s; reflexivity.
  - cbn [diffusion_steps]. unfold norm_rvs, bind at 1.
    rewrite next_float_run.
    destruct (IH (w + v)
                 ((95 # 100) * v + floats s (fpos s) - eta * v)
                 (skip_floats 1 s)) as (l & Hl & Hlen & _).
    exists ((w + v) :: l). split; [|split].
    + unfold bind. rewrite Hl. unfold ret. rewrite skip_floats_add.
      reflexivity.
    + simpl. congruence.
    + intros _. reflexivity.
Qed.

(** [diffusion(T)] takes T + 2 values from the float tape and returns T
    positions: the first is the uniform draw, the second adds the first
    velocity draw to it.  [diffusion(0)] raises [IndexError] after one
    draw. *)
Theorem diffusion_length_and_draws (T : nat) (s : tape) :
  (T = 0%nat -> diffusion T s = (Raise Py.IndexError, skip_floats 1 s)) /\
  ((1 <= T)%nat ->
   exists W,
     diffusion T s = (Ok W, skip_floats (T + 2) s) /\
     length W = T /\
     nth 0 W 0 = floats s (fpos s) /\
     ((2 <= T)%nat ->
      nth 1 W 0 = floats s (fpos s) + floats s (fpos s + 1))).
Proof.
  split.
  - intros ->. unfold diffusion, uniform_rvs, bind.
    rewrite next_float_run. reflexivity.
  - intros HT. destruct T as [|n]; [lia|].
    unfold diffusion, uniform_rvs, norm_rvs.
    unfold bind at 1. rewrite next_float_run.
    unfold bind at 1. rewrite next_float_run.
    unfold bind at 1. rewrite next_float_run.
    rewrite !skip_floats_add.
    destruct (diffusion_steps_run n
                (floats (skip_floats (1 + 1) s) (fpos (skip_floats (1 + 1) s)))
                (1 / inject_Z (Z.of_nat (S n)))
                (floats s (fpos s))
                (floats (skip_floats 1 s) (fpos (skip_floats 1 s)))
                (skip_floats (1 + 1 + 1) s)) as (l & Hl & Hlen & Hhd).
    exists (floats s (fpos s) :: l). split; [|split; [|split]].
    + unfold bind. rewrite Hl. unfold ret. rewrite skip_floats_add.
      replace (1 + 1 + 1 + n)%nat with (S n + 2)%nat by lia. reflexivity.
    + simpl. congruence.
    + reflexivity.
    + intros H2. cbn [nth]. rewrite Hhd by lia. reflexivity.
Qed.

Lemma diffusion_length_and_draws_witness :
  exists W,
    diffusion 3 (constant_tape 1) = (Ok W, skip_floats (3 + 2) (constant_tape 1))
    /\ length W = 3%nat.
Proof.
  destruct (diffusion_length_and_draws 3 (constant_tape 1)) as (_ & H).
  destruct H as (W & Hrun & Hlen & _); [lia|].
  exists W. split; assumption.
Defined.

(** ** Which exceptions a computation can end in *)

Lemma rraises_only_Ok {A} (ok : Py.exn -> Prop) (a : A) :
  rraises_only ok (Ok a).
Proof. intros e H. discriminate H. Qed.

Lemma rraises_only_of_option {A} (ok : Py.exn -> Prop) (o : option A)
  (e : Py.exn) : ok e -> rraises_only ok (of_option o e).
Proof.
  intros He e' H. destruct o; simpl in H; [discriminate H|].
  injection H as <-. exact He.
Qed.

Lemma rraises_only_rbind {A B} (ok : Py.exn -> Prop) (r : res A)
  (f : A -> res B) :
  rraises_only ok r -> (forall a, rraises_only ok (f a)) ->
  rraises_only ok (rbind r f).
Proof.
  intros Hr Hf e H. destruct r as [a | e' |]; simpl in H.
  - exact (Hf a e H).
  - injection H as <-. apply Hr. reflexivity.
  - discriminate H.
Qed.

Lemma raises_only_ret {A} (ok : Py.exn -> Prop) (a : A) :
  raises_only ok (ret a).
Proof. intros s e H. discriminate H. Qed.

Lemma raises_only_raise {A} (ok : Py.exn -> Prop) (e : Py.exn) :
  ok e -> raises_only ok (@raise A e).
Proof. intros He s e' H. simpl in H. injection H as <-. exact He. Qed.

Lemma raises_only_lift {A} (ok : Py.exn -> Prop) (r : res A) :
  rraises_only ok r -> raises_only ok (lift r).
Proof. intros Hr s e H. exact (Hr e H). Qed.

Lemma raises_only_next_float (ok : Py.exn -> Prop) :
  raises_only ok next_float.
Proof. intros s e H. discriminate H. Qed.

Lemma raises_only_next_int (ok : Py.exn -> Prop) : raises_only ok next_int.
Proof. intros s e H. discriminate H. Qed.

Lemma raises_only_bind {A B} (ok : Py.exn -> Prop) (m : M A)
  (f : A -> M B) :
  raises_only ok m -> (forall a, raises_only ok (f a)) ->
  raises_only ok (bind m f).
Proof.
  intros Hm Hf s e H. unfold bind in H.
  specialize (Hm s). destruct (m s) as [[a | e' |] s'].
  - exact (Hf a s' e H).
  - simpl in H. injection H as <-. apply Hm. reflexivity.
  - discriminate H.
Qed.

Lemma raises_only_mapM {A B} (ok : Py.exn -> Prop) (f : A -> M B)
  (xs : list A) :
  (forall x, raises_only ok (f x)) -> raises_only ok (mapM f xs).
Proof.
  intros Hf. induction xs as [|x tl IH]; simpl.
  - apply raises_only_ret.
  - apply raises_only_bind; [apply Hf|]. intros y.
    apply raises_only_bind; [exact IH|]. intros ys.
    apply raises_only_ret.
Qed.

Lemma raises_only_diffusion_steps (ok : Py.exn -> Prop) (n : nat)
  (eta s_eps w v : Q) : raises_only ok (diffusion_steps n eta s_eps w v).
Proof.
  revert w v. induction n as [|n IH]; intros w v; simpl.
  - apply raises_only_ret.
  - apply raises_only_bind; [apply raises_only_next_float|]. intros eps.
    apply raises_only_bind; [apply IH|]. intros rest.
    apply raises_only_ret.
Qed.

Lemma raises_only_diffusion (ok : Py.exn -> Prop) (T : nat) :
  ok Py.IndexError -> raises_only ok (diffusion T).
Proof.
  intros Hok. destruct T as [|n]; unfold diffusion, uniform_rvs, norm_rvs.
  - apply raises_only_bind; [apply raises_only_next_float|]. intros _.
    apply raises_only_raise, Hok.
  - apply raises_only_bind; [apply raises_only_next_float|]. intros w0.
    apply raises_only_bind; [apply raises_only_next_float|]. intros v0.
    apply raises_only_bind; [apply raises_only_next_float|]. intros eta.
    apply raises_only_bind; [apply raises_only_diffusion_steps|].
    intros rest. apply raises_only_ret.
Qed.

Lemma rraises_only_pearsonr (ok : Py.exn -> Prop) (x y : vector) :
  ok Py.ValueError -> rraises_only ok (pearsonr x y).
Proof.
  intros Hok e H. unfold pearsonr in H.
  destruct (negb (length x =? length y)%nat);
    [injection H as <-; exact Hok|].
  destruct (length x <? 2)%nat; [injection H as <-; exact Hok|].
  destruct (is_constant x || is_constant y); discriminate H.
Qed.

Lemma rraises_only_test_correlation (W : matrix) (k : nat) (cutoff : Q) :
  rraises_only index_or_value (test_correlation W k cutoff).
Proof.
  unfold test_correlation. generalize (Py.range (Z.of_nat k - 1) 0).
  intros idxs. induction idxs as [|i rest IH]; simpl.
  - apply rraises_only_Ok.
  - apply rraises_only_rbind;
      [apply rraises_only_of_option; left; reflexivity|]. intros wk.
    apply rraises_only_rbind;
      [apply rraises_only_of_option; left; reflexivity|]. intros wi.
    apply rraises_only_rbind;
      [apply rraises_only_pearsonr; right; reflexivity|]. intros p.
    destruct (exceeds p cutoff); [apply rraises_only_Ok | exact IH].
Qed.

(** ** The module trajectory builder: restart and cutoff *)

(** With a non-negative [maxloops] the restart of [simulate_W] cannot be
    reached: [loops] is tested only after it was reset to 0.  The call
    can then only end in the [IndexError] of an empty trajectory or the
    [ValueError] of a correlation of trajectories of length 1, never in
    the [TypeError] of the restart. *)
Theorem simulate_W_restart_unreachable (fuel T K : nat) (cutoff : Q)
  (maxloops : Z) (s : tape) :
  (0 <= maxloops)%Z ->
  fst (simulate_W fuel T K cutoff maxloops s) <> Raise Py.TypeError /\
  forall e, fst (simulate_W fuel T K cutoff maxloops s) = Raise e ->
            index_or_value e.
Proof.
  intros Hml.
  assert (H : raises_only index_or_value
                (simulate_W fuel T K cutoff maxloops)).
  { unfold simulate_W. generalize (zeros2 K T) 0%nat 0%Z.
    induction fuel as [|fuel IH]; intros W k loops; cbn [simulate_W_loop].
    - intros s0 e He. discriminate He.
    - destruct (k <? K)%nat; [|apply raises_only_ret].
      apply raises_only_bind;
        [apply raises_only_diffusion; left; reflexivity|]. intros d.
      apply raises_only_bind.
      { apply raises_only_lift, rraises_only_of_option. left. reflexivity. }
      intros W'. apply raises_only_bind.
      { apply raises_only_lift, rraises_only_test_correlation. }
      intros [|]; [apply IH|].
      replace (0 >? maxloops)%Z with false by lia. apply IH. }
  split.
  - intros E. destruct (H s _ E) as [E' | E']; discriminate E'.
  - intros e E. exact (H s e E).
Qed.

Lemma simulate_W_restart_unreachable_witness :
  fst (simulate_W 5 1 2 default_cutoff default_maxloops (constant_tape 1))
  <> Raise Py.TypeError.
Proof.
  apply (@simulate_W_restart_unreachable 5 1 2 default_cutoff
           default_maxloops (constant_tape 1)).
  unfold default_maxloops. lia.
Defined.

(** With a negative [maxloops], at least two time steps and two modules,
    the first column is accepted, [0 > maxloops] holds, and the restart
    [simulate_W(T)] is called without its argument K: the call ends in
    [TypeError] on every tape. *)
Theorem simulate_W_negative_maxloops (fuel T K : nat) (cutoff : Q)
  (maxloops : Z) (s : tape) :
  (2 <= T)%nat -> (2 <= K)%nat -> (maxloops < 0)%Z -> (1 <= fuel)%nat ->
  fst (simulate_W fuel T K cutoff maxloops s) = Raise Py.TypeError.
Proof.
  intros HT HK Hml Hfuel. unfold simulate_W.
  destruct fuel as [|fuel]; [lia|].
  destruct K as [|[|K2]]; try lia.
  cbn [simulate_W_loop].
  change (0 <? S (S K2))%nat with true. cbv iota.
  unfold bind at 1.
  destruct (diffusion_length s (T := T)) as (d & s1 & Hd & Hlen); [lia|].
  rewrite Hd.
  unfold bind at 1. unfold lift at 1.
  change (setrow (zeros2 (S (S K2)) T) 0 d)
    with (@Ok matrix (d :: repeat (zeros T) (S K2))).
  unfold bind at 1. unfold lift at 1.
  rewrite <- Hlen at 1.
  rewrite test_correlation_first_column by lia.
  replace (0 >? maxloops)%Z with true by lia.
  reflexivity.
Qed.

Lemma simulate_W_negative_maxloops_witness :
  fst (simulate_W 1 2 2 default_cutoff (-1) (constant_tape 1))
  = Raise Py.TypeError.
Proof.
  apply (@simulate_W_negative_maxloops 1 2 2 default_cutoff (-1)
           (constant_tape 1)); lia.
Defined.

(** With at least two time steps and two modules the cutoff has no
    effect on [simulate_W]: on the same tape any two cutoffs give the
    same matrix, of T rows and K columns. *)
Theorem simulate_W_ignores_cutoff (fuel T K : nat) (c1 c2 : Q)
  (maxloops : Z) (s : tape) :
  (2 <= T)%nat -> (2 <= K)%nat -> (0 <= maxloops)%Z -> (K < fuel)%nat ->
  simulate_W fuel T K c1 maxloops s = simulate_W fuel T K c2 maxloops s /\
  exists W s',
    simulate_W fuel T K c1 maxloops s = (Ok W, s') /\
    length W = T /\
    forall row, In row W -> length row = K.
Proof.
  intros HT HK Hml Hfuel. split.
  - rewrite !simulate_W_never_rejects by assumption. reflexivity.
  - exact (@simulate_W_shape fuel T K c1 maxloops s HT HK Hml Hfuel).
Qed.

Lemma simulate_W_ignores_cutoff_witness :
  simulate_W 4 2 3 (1 # 100) 100 (constant_tape 1)
  = simulate_W 4 2 3 (99 # 100) 100 (constant_tape 1).
Proof.
  apply (@simulate_W_ignores_cutoff 4 2 3 (1 # 100) (99 # 100) 100
           (constant_tape 1)); lia.
Defined.

(** ** Random partitions and gene groups *)

Lemma nth_append_at {A} (results : list (list A)) (d j : nat) (x : A) :
  (j < length results)%nat ->
  nth j (append_at results d x) []
  = nth j results [] ++ (if (d =? j)%nat then [x] else []).
Proof.
  revert d j. induction results as [|r tl IH]; intros d j Hj; simpl in Hj;
    [lia|].
  destruct d as [|d], j as [|j]; simpl.
  - reflexivity.
  - rewrite app_nil_r. reflexivity.
  - rewrite app_nil_r. reflexivity.
  - apply IH. lia.
Qed.

Lemma map_nth_all {A} (l : list A) (d : A) :
  map (fun j => nth j l d) (seq 0 (length l)) = l.
Proof.
  induction l as [|x l IH]; [reflexivity|].
  cbn [length seq map nth]. f_equal.
  rewrite <- seq_shift, map_map. exact IH.
Qed.

Lemma random_partition_loop_groups {A} (k : nat) (xs : list A) :
  (1 <= k)%nat ->
  forall (results : list (list A)) (s : tape),
    length results = k ->
    random_partition_loop k xs results s
    = (Ok (map (fun j => nth j results []
                         ++ drawn_group k xs (upcoming_ints s (length xs)) j)
               (seq 0 k)),
       skip_ints (length xs) s).
Proof.
  intros Hk. induction xs as [|x xs IH]; intros results s Hlen.
  - simpl. unfold ret. rewrite skip_ints_0. do 2 f_equal.
    rewrite <- (map_nth_all results []) at 1. rewrite Hlen.
    apply map_ext. intros j. unfold drawn_group. simpl.
    rewrite app_nil_r. reflexivity.
  - cbn [random_partition_loop length]. unfold randrange.
    destruct k as [|k']; [lia|].
    unfold bind at 1. unfold bind at 1. rewrite next_int_run.
    unfold ret at 1.
    rewrite IH by (rewrite append_at_length; exact Hlen).
    rewrite skip_ints_add. f_equal. f_equal.
    apply map_ext_in. intros j Hj. apply in_seq in Hj.
    rewrite nth_append_at by lia.
    rewrite upcoming_ints_S. unfold drawn_group.
    cbn [combine filter snd].
    rewrite <- app_assoc. f_equal.
    destruct (ints s (ipos s) mod S k' =? j)%nat; reflexivity.
Qed.

(** [random_partition(k, iterable)] for k >= 1 takes one integer draw
    per element and returns k groups; group j holds, in the order of the
    iterable, the elements whose draw fell on j. *)
Theorem random_partition_groups {A} (k : nat) (xs : list A) (s : tape) :
  (1 <= k)%nat ->
  random_partition k xs s
  = (Ok (map (drawn_group k xs (upcoming_ints s (length xs))) (seq 0 k)),
     skip_ints (length xs) s).
Proof.
  intros Hk. unfold random_partition.
  rewrite random_partition_loop_groups by (auto using repeat_length).
  do 2 f_equal. apply map_ext_in. intros j Hj. apply in_seq in Hj.
  rewrite nth_repeat_lt by lia. reflexivity.
Qed.

Lemma random_partition_groups_witness :
  random_partition 2 [10; 11; 12]%nat (constant_tape 1)
  = (Ok [[10; 12]; [11]]%nat, skip_ints 3 (constant_tape 1)).
Proof.
  apply (@random_partition_groups nat 2 [10; 11; 12]%nat (constant_tape 1)).
  lia.
Defined.

Lemma count_occ_seq (a n g : nat) :
  count_occ Nat.eq_dec (seq a n) g
  = if (a <=? g)%nat && (g <? a + n)%nat then 1%nat else 0%nat.
Proof.
  revert a. induction n as [|n IH]; intros a; simpl.
  - destruct (a <=? g)%nat eqn:E1; destruct (g <? a + 0)%nat eqn:E2;
      try reflexivity.
    apply Nat.leb_le in E1. apply Nat.ltb_lt in E2. lia.
  - rewrite IH. destruct (Nat.eq_dec a g) as [-> | Hne].
    + replace (S g <=? g)%nat with false
        by (symmetry; apply Nat.leb_gt; lia).
      replace (g <=? g)%nat with true by (symmetry; apply Nat.leb_le; lia).
      replace (g <? g + S n)%nat with true
        by (symmetry; apply Nat.ltb_lt; lia).
      reflexivity.
    + destruct (a <=? g)%nat eqn:E1; destruct (S a <=? g)%nat eqn:E2;
        destruct (g <? a + S n)%nat eqn:E3;
        destruct (g <? S a + n)%nat eqn:E4; try reflexivity;
        repeat match goal with
               | H : (_ <=? _)%nat = true |- _ => apply Nat.leb_le in H
               | H : (_ <=? _)%nat = false |- _ => apply Nat.leb_gt in H
               | H : (_ <? _)%nat = true |- _ => apply Nat.ltb_lt in H
               | H : (_ <? _)%nat = false |- _ => apply Nat.ltb_ge in H
               end; lia.
Qed.

(** For K >= 1, over the K lists of [create_groups(K, G)] every gene
    index below G is listed exactly twice and no other index is
    listed. *)
Theorem create_groups_each_gene_twice (K G : nat) (s : tape) :
  (1 <= K)%nat ->
  exists groups s',
    create_groups K G s = (Ok groups, s') /\
    forall g, count_occ Nat.eq_dec (concat groups) g
              = if (g <? G)%nat then 2%nat else 0%nat.
Proof.
  intros HK.
  destruct (create_groups_perm G s HK) as (groups & s' & Hrun & _ & Hperm).
  exists groups, s'. split; [exact Hrun|]. intros g.
  rewrite (proj1 (Permutation_count_occ Nat.eq_dec _ _) Hperm g).
  rewrite count_occ_app, count_occ_seq. simpl.
  destruct (g <? G)%nat; reflexivity.
Qed.

Lemma create_groups_each_gene_twice_witness :
  exists groups s',
    create_groups 3 4 (constant_tape 1) = (Ok groups, s') /\
    forall g, count_occ Nat.eq_dec (concat groups) g
              = if (g <? 4)%nat then 2%nat else 0%nat.
Proof.
  apply (@create_groups_each_gene_twice 3 4 (constant_tape 1)). lia.
Defined.

(** With no module, [create_groups(0, G)] returns the empty list for
    G = 0 and ends in the [ValueError] of [rng.randrange(0)] as soon as
    there is a gene to place. *)
Theorem create_groups_no_module (G : nat) (s : tape) :
  fst (create_groups 0 G s)
  = if (G =? 0)%nat then Ok [] else Raise Py.ValueError.
Proof.
  unfold create_groups. unfold bind at 1.
  destruct (np_permutation_perm G s) as (genes & s1 & Hrun & Hperm).
  rewrite Hrun. apply Permutation_length in Hperm.
  rewrite length_seq in Hperm.
  destruct G as [|G'].
  - destruct genes; [|discriminate Hperm].
    unfold bind at 1. unfold random_partition at 1.
    cbn [repeat random_partition_loop]. unfold ret at 1.
    unfold bind at 1.
    destruct (np_permutation_perm 0 s1) as (genes2 & s2 & Hrun2 & Hperm2).
    rewrite Hrun2. apply Permutation_length in Hperm2.
    destruct genes2; [|discriminate Hperm2]. reflexivity.
  - destruct genes as [|g genes]; [discriminate Hperm|]. reflexivity.
Qed.

(** ** The membership matrix *)


Lemma nth_of_nth_error {A} (xs ys : list A) (j : nat) (d : A) :
  length xs = length ys -> nth_error xs j = nth_error ys j ->
  nth j xs d = nth j ys d.
Proof.
  intros Hlen H. destruct (Nat.lt_ge_cases j (length ys)) as [Hj | Hj].
  - rewrite (nth_error_nth' ys d Hj) in H.
    apply nth_error_nth. exact H.
  - rewrite !nth_overflow by lia. reflexivity.
Qed.

Lemma Forall2_seq_nth {B} (R : nat -> B -> Prop) (ys : list B) (d : B) :
  forall a n, Forall2 R (seq a n) ys ->
    forall k, (k < n)%nat -> R (a + k)%nat (nth k ys d).
Proof.
  induction ys as [|y ys IH]; intros a n H k Hk.
  - apply Forall2_length in H. rewrite length_seq in H. simpl in H. lia.
  - destruct n as [|n]; [lia|]. simpl in H.
    inversion H as [|? ? ? ? Hy Hrest]; subst.
    destruct k as [|k]; simpl.
    + rewrite Nat.add_0_r. exact Hy.
    + replace (a + S k)%nat with (S a + k)%nat by lia.
      apply (IH (S a) n Hrest). lia.
Qed.




(** ** The continuity adjustment *)

Lemma vsub_cancel (x y d : vector) :
  length x = length d -> length y = length d ->
  same_row (vsub (vsub x d) (vsub y d)) (vsub x y).
Proof.
  revert y d. induction x as [|a x IH]; intros [|b y] [|c d] Hx Hy;
    simpl in *; try discriminate; try constructor.
  - ring.
  - apply IH; lia.
Qed.

Lemma nth_map_rows (f : vector -> vector) (Mb : matrix) (i : nat) :
  (i < length Mb)%nat -> nth i (map f Mb) [] = f (nth i Mb []).
Proof.
  intros Hi. rewrite (nth_indep _ [] (f [])) by (rewrite length_map; exact Hi).
  apply map_nth.
Qed.

Lemma bifurc_adjust_rows (child parent adjusted : matrix) :
  bifurc_adjust child parent = Ok adjusted ->
  length adjusted = length child.
Proof.
  unfold bifurc_adjust. intros H.
  destruct (getitem child 0) as [first | |]; simpl in H; try discriminate H.
  destruct (getitem parent (-1)) as [last | |]; simpl in H;
    try discriminate H.
  injection H as <-. apply length_map.
Qed.

(** [bifurc_adjust(Mu_bif, Mu)] on two matrices with at least one row
    and G columns moves every row of [Mu_bif] by the same amounts: the
    number of rows is kept, the first row becomes the last row of [Mu],
    and the difference of any two rows of the result is the difference
    of the same rows of [Mu_bif]. *)
Theorem bifurc_adjust_keeps_differences (G : nat) (child parent : matrix) :
  child <> [] -> (forall row, In row child -> length row = G) ->
  parent <> [] -> (forall row, In row parent -> length row = G) ->
  exists adjusted,
    bifurc_adjust child parent = Ok adjusted /\
    length adjusted = length child /\
    same_row (nth 0 adjusted []) (last parent []) /\
    forall i j, (i < length child)%nat -> (j < length child)%nat ->
      same_row (vsub (nth i adjusted []) (nth j adjusted []))
               (vsub (nth i child []) (nth j child [])).
Proof.
  intros Hc Hcrows Hp Hprows.
  pose proof (@index_last _ parent [] Hp) as Hlast.
  assert (Hlen_last : length (last parent []) = G).
  { apply Hprows. apply exists_last in Hp. destruct Hp as (l & a & ->).
    rewrite last_last. apply in_or_app. right. left. reflexivity. }
  destruct child as [|c0 ctl]; [contradiction|].
  assert (Hlen_c0 : length c0 = G) by (apply Hcrows; left; reflexivity).
  set (dif := vsub c0 (last parent [])).
  assert (Hdif : length dif = G).
  { unfold dif, vsub. rewrite map2_length; congruence. }
  exists (map (fun row => vsub row dif) (c0 :: ctl)).
  split; [|split; [|split]].
  - unfold bifurc_adjust, getitem. rewrite Hlast. reflexivity.
  - apply length_map.
  - cbn [map nth]. unfold dif. apply vsub_vsub. congruence.
  - intros i j Hi Hj. rewrite !nth_map_rows by assumption.
    apply vsub_cancel.
    + rewrite Hdif. apply Hcrows, nth_In, Hi.
    + rewrite Hdif. apply Hcrows, nth_In, Hj.
Qed.

Lemma bifurc_adjust_keeps_differences_witness :
  exists adjusted,
    bifurc_adjust [[1; 5]; [2; 7]] [[0; 0]; [10; 20]] = Ok adjusted /\
    length adjusted = 2%nat /\
    same_row (nth 0 adjusted []) [10; 20].
Proof.
  destruct (@bifurc_adjust_keeps_differences 2 [[1; 5]; [2; 7]]
              [[0; 0]; [10; 20]]) as (adjusted & Hrun & Hlen & Hfirst & _).
  - discriminate.
  - intros row [<- | [<- | []]]; reflexivity.
  - discriminate.
  - intros row [<- | [<- | []]]; reflexivity.
  - exists adjusted. split; [exact Hrun | split; [exact Hlen | exact Hfirst]].
Defined.

Lemma adjust_edges_frame (G : nat) (edges : list (nat * nat)) :
  forall Ms : list matrix,
    shaped G Ms ->
    (forall e, In e edges ->
       (fst e < length Ms)%nat /\ (snd e < length Ms)%nat) ->
    exists Ms',
      adjust_edges edges Ms = Ok Ms' /\
      length Ms' = length Ms /\
      shaped G Ms' /\
      (forall j, (forall e, In e edges -> snd e <> j) ->
                 nth j Ms' [] = nth j Ms []) /\
      (forall j, length (nth j Ms' []) = length (nth j Ms [])).
Proof.
  induction edges as [|[p c] rest IH]; intros Ms Hshape Hrange.
  - exists Ms. split; [reflexivity | split; [reflexivity|]].
    split; [exact Hshape | split; reflexivity].
  - destruct (Hrange (p, c)) as (Hp & Hc); [left; reflexivity|].
    simpl in Hp, Hc.
    destruct (getitem_nat Ms Hc) as (child & Hgc & Hnc & Hinc).
    destruct (getitem_nat Ms Hp) as (parent & Hgp & Hnp & Hinp).
    destruct (Hshape child Hinc) as (Hcne & Hcrows).
    destruct (Hshape parent Hinp) as (Hpne & Hprows).
    destruct (bifurc_adjust_spec Hcne Hcrows Hpne Hprows)
      as (adjusted & first & last & Hadj & Hane & Harows & _).
    pose proof (bifurc_adjust_rows _ _ Hadj) as Hrows.
    destruct (set_nth_spec Ms adjusted Hc)
      as (Ms1 & Hset & Hlen1 & Hnth1 & Hother1 & Hin1).
    assert (Hshape1 : shaped G Ms1).
    { intros Mb HMb. destruct (Hin1 Mb HMb) as [-> | HMb'];
        [split; assumption | apply Hshape, HMb']. }
    destruct (IH Ms1 Hshape1) as (Ms' & Hrun & Hlen' & Hshape' & Hkeep & Hcnt).
    { intros e He. rewrite Hlen1. apply Hrange. right. exact He. }
    exists Ms'. split; [|split; [congruence | split; [exact Hshape'|]]].
    + cbn [adjust_edges fst snd]. rewrite Hgc. cbn [rbind].
      rewrite Hgp. cbn [rbind]. rewrite Hadj. cbn [rbind].
      rewrite Hset. cbn [of_option rbind]. exact Hrun.
    + split.
      * intros j Hj. rewrite Hkeep by (intros e He; apply Hj; right; exact He).
        apply nth_of_nth_error; [exact Hlen1|].
        apply Hother1. intros ->. apply (Hj (p, c)); [left|]; reflexivity.
      * intros j. rewrite Hcnt.
        destruct (Nat.eq_dec j c) as [-> | Hne].
        -- assert (E1 : nth c Ms1 [] = adjusted)
             by (apply nth_error_nth; exact Hnth1).
           assert (E2 : nth c Ms [] = child)
             by (apply nth_error_nth; exact Hnc).
           congruence.
        -- f_equal. apply nth_of_nth_error; [exact Hlen1|].
           apply Hother1, Hne.
Qed.

(** The adjustment loop, on matrices with at least one row and G columns
    and edges that name branches, returns for every order of the edges;
    it keeps the number of branches and the number of rows of every
    branch, and a branch that is the child of no edge keeps its
    matrix. *)
Theorem adjust_edges_changes_children_only (G : nat)
  (edges : list (nat * nat)) (Ms : list matrix) :
  shaped G Ms ->
  Forall (fun e => (fst e < length Ms)%nat /\ (snd e < length Ms)%nat)
         edges ->
  exists Ms',
    adjust_edges edges Ms = Ok Ms' /\
    length Ms' = length Ms /\
    (forall j, ~ In j (map snd edges) -> nth j Ms' [] = nth j Ms []) /\
    (forall j, length (nth j Ms' []) = length (nth j Ms [])).
Proof.
  intros Hshape Hrange. rewrite Forall_forall in Hrange.
  destruct (adjust_edges_frame edges Hshape Hrange)
    as (Ms' & Hrun & Hlen & _ & Hkeep & Hcnt).
  exists Ms'. split; [exact Hrun | split; [exact Hlen | split]].
  - intros j Hj. apply Hkeep. intros e He E. apply Hj.
    rewrite <- E. apply in_map. exact He.
  - exact Hcnt.
Qed.

Lemma adjust_edges_changes_children_only_witness :
  exists Ms',
    adjust_edges [(1, 2); (0, 1)]%nat [[[1]; [2]]; [[5]; [7]]; [[0]; [4]]]
    = Ok Ms' /\
    nth 0 Ms' [] = [[1]; [2]].
Proof.
  destruct (@adjust_edges_changes_children_only 1 [(1, 2); (0, 1)]%nat
              [[[1]; [2]]; [[5]; [7]]; [[0]; [4]]])
    as (Ms' & Hrun & _ & Hkeep & _).
  - intros Mb [<- | [<- | [<- | []]]];
      (split; [discriminate | intros row [<- | [<- | []]]; reflexivity]).
  - repeat constructor.
  - exists Ms'. split; [exact Hrun|].
    apply (Hkeep 0%nat). simpl. intros [H | [H | []]]; discriminate H.
Defined.

(** ** The shapes of what the composer returns *)

Lemma simulate_branch_shapes (fuel G : nat) (Ts Ks : list nat) (i : nat) s :
  (i < length Ts)%nat -> (i < length Ks)%nat ->
  Forall (fun T => (2 <= T)%nat) Ts ->
  Forall (fun K => (2 <= K)%nat) Ks ->
  Forall (fun K => (K < fuel)%nat) Ks ->
  runs (simulate_branch fuel G Ts Ks i) s
       (fun WM _ =>
          length (fst WM) = nth i Ts 0%nat /\
          (forall row, In row (fst WM) -> length row = nth i Ks 0%nat) /\
          length (snd WM) = nth i Ts 0%nat /\
          (forall row, In row (snd WM) -> length row = G)).
Proof.
  intros HiT HiK HTs HKs Hfuel. unfold simulate_branch.
  destruct (getitem_nat Ks HiK) as (K & HK & HKnth & HKin).
  destruct (getitem_nat Ts HiT) as (T & HT & HTnth & HTin).
  rewrite Forall_forall in HTs, HKs, Hfuel.
  rewrite (nth_error_nth _ _ 0%nat HKnth), (nth_error_nth _ _ 0%nat HTnth).
  apply runs_bind. eapply runs_lift; [exact HK|].
  apply runs_bind. eapply runs_lift; [exact HT|].
  apply runs_bind.
  eapply runs_weaken;
    [apply simulate_W_shape;
     [apply HTs, HTin | apply HKs, HKin | unfold default_maxloops; lia
     | apply Hfuel, HKin]|].
  intros W s1 (HWlen & HWrows).
  apply runs_bind.
  assert (HK1 : (1 <= K)%nat) by (specialize (HKs K HKin); lia).
  eapply runs_weaken; [apply (create_groups_perm G s1 HK1)|].
  intros groups s2 (Hglen & Hperm).
  apply runs_bind.
  eapply runs_weaken; [apply simulate_H_runs; [exact Hglen|]|].
  { intros g Hg. apply (Permutation_in _ Hperm) in Hg.
    apply in_app_or in Hg. destruct Hg as [Hg | Hg];
      apply in_seq in Hg; lia. }
  intros H s3 _. apply runs_ret. cbn [fst snd].
  destruct (dot_shape W H G) as (Hlen & Hrows).
  split; [exact HWlen | split; [exact HWrows | split]].
  - congruence.
  - exact Hrows.
Qed.

(** On a well-formed tree [simulate_branching_data] returns, for every
    branch i, a mean matrix of [time[i]] rows and G columns and a module
    matrix of [time[i]] rows and [modules[i]] columns. *)
Theorem simulate_branching_data_shapes (fuel G : nat) (tree : Tree)
  (s : tape) :
  well_formed tree ->
  Forall (fun K => (K < fuel)%nat) (modules tree) ->
  exists Ms Ws s',
    simulate_branching_data fuel G tree s = (Ok (Ms, Ws), s') /\
    length Ms = branches tree /\ length Ws = branches tree /\
    forall i, (i < branches tree)%nat ->
      length (nth i Ms []) = nth i (time tree) 0%nat /\
      (forall row, In row (nth i Ms []) -> length row = G) /\
      length (nth i Ws []) = nth i (time tree) 0%nat /\
      (forall row, In row (nth i Ws []) ->
                   length row = nth i (modules tree) 0%nat).
Proof.
  intros Hwf Hfuel.
  destruct (simulate_branching_data_returns G s Hwf Hfuel)
    as (WMs & s' & Hrun & Hlen & Hshape & Hfinish).
  destruct Hwf as (HlT & HlK & HTs & HKs & Hedges).
  destruct (@runs_mapM nat (matrix * matrix)
              (simulate_branch fuel G (time tree) (modules tree))
              (fun i WM =>
                 length (fst WM) = nth i (time tree) 0%nat /\
                 (forall row, In row (fst WM) ->
                              length row = nth i (modules tree) 0%nat) /\
                 length (snd WM) = nth i (time tree) 0%nat /\
                 (forall row, In row (snd WM) -> length row = G))
              (seq 0 (branches tree))) with (s := s)
    as (WMs' & s'' & Hrun' & Hall).
  { intros i s0 Hi. apply in_seq in Hi.
    apply simulate_branch_shapes; try assumption; lia. }
  rewrite Hrun in Hrun'. injection Hrun' as <- <-.
  destruct (@adjust_edges_frame G (topology tree) (map snd WMs))
    as (Ms' & Hadj & Hlen' & Hshape' & _ & Hcnt).
  - exact Hshape.
  - rewrite Forall_forall in Hedges. rewrite length_map, Hlen.
    exact Hedges.
  - exists Ms', (map fst WMs), s'.
    split; [apply Hfinish, Hadj|].
    split; [rewrite Hlen', length_map; exact Hlen|].
    split; [rewrite length_map; exact Hlen|].
    intros i Hi.
    pose proof (@Forall2_seq_nth _ _ WMs ([], []) 0 _ Hall i Hi) as HR.
    cbn [Nat.add] in HR. destruct HR as (HW1 & HW2 & HM1 & HM2).
    assert (Efst : nth i (map fst WMs) [] = fst (nth i WMs ([], [])))
      by (apply (map_nth fst WMs ([], []) i)).
    assert (Esnd : nth i (map snd WMs) [] = snd (nth i WMs ([], [])))
      by (apply (map_nth snd WMs ([], []) i)).
    split; [|split; [|split]].
    + rewrite Hcnt. rewrite Esnd. exact HM1.
    + apply Hshape'. apply nth_In. rewrite Hlen', length_map, Hlen.
      exact Hi.
    + rewrite Efst. exact HW1.
    + rewrite Efst. exact HW2.
Qed.

Lemma simulate_branching_data_shapes_witness :
  exists Ms Ws s',
    simulate_branching_data 3 2 docstring_tree (constant_tape 1)
    = (Ok (Ms, Ws), s') /\
    length Ms = 5%nat /\ length Ws = 5%nat.
Proof.
  destruct (@simulate_branching_data_shapes 3 2 docstring_tree
              (constant_tape 1))
    as (Ms & Ws & s' & Hrun & HlM & HlW & _).
  - exact docstring_tree_well_formed.
  - repeat constructor.
  - exists Ms, Ws, s'. split; [exact Hrun | split; assumption].
Defined.

(** ** Negative-binomial parameters outside the precondition *)

(** For a positive mean with 0 < a*m + b < 1 the variance a*m^2 + b*m is
    below the mean, and both parameters of [get_pr] are negative: no
    negative binomial has them. *)
Theorem get_pr_underdispersed (a b m : Q) :
  0 < m -> 0 < a * m + b -> a * m + b < 1 ->
  fst (get_pr a b m) < 0 /\ snd (get_pr a b m) < 0.
Proof.
  intros Hm Hlo Hhi. unfold get_pr. cbn [fst snd].
  set (s2 := a * m ^ 2 + b * m).
  assert (Hs2 : s2 == (a * m + b) * m) by (unfold s2; ring).
  assert (Hs2pos : 0 < s2) by (rewrite Hs2; nra).
  assert (Hs2lt : s2 < m) by (rewrite Hs2; nra).
  split.
  - apply Qlt_shift_div_r; [exact Hs2pos | lra].
  - assert (Hr : m ^ 2 / (s2 - m) == - (m ^ 2 / (m - s2)))
      by (field; split; lra).
    rewrite Hr.
    assert (0 < m ^ 2 / (m - s2)); [|lra].
    apply Qlt_shift_div_l; [lra|].
    setoid_replace (m ^ 2) with (m * m) by ring. nra.
Qed.

Lemma get_pr_underdispersed_witness :
  fst (get_pr (1 # 10) (1 # 2) 2) < 0 /\ snd (get_pr (1 # 10) (1 # 2) 2) < 0.
Proof.
  apply (@get_pr_underdispersed (1 # 10) (1 # 2) 2); reflexivity.
Defined.

(** ** Pseudotimes: what the two masked assignments do *)




(** ** The mean lookup on its normal path and on its errors *)

Lemma index_in {A} (xs : list A) (i : Z) (x : A) :
  Py.index xs i = Some x -> In x xs.
Proof.
  unfold Py.index. intros H.
  destruct (0 <=? i)%Z; [eapply nth_error_In, H|].
  destruct (- Z.of_nat (length xs) <=? i)%Z; [|discriminate H].
  eapply nth_error_In, H.
Qed.

Lemma getitem_short {A} (xs : list A) (g : nat) :
  (length xs <= g)%nat -> getitem xs (Z.of_nat g) = Raise Py.IndexError.
Proof.
  intros H. unfold getitem. rewrite index_beyond by lia. reflexivity.
Qed.

(** For a row index with 0 <= index < T_b, on a matrix whose rows hold
    gene g, the lookup reads row [index] itself. *)
Theorem mean_lookup_in_range (Mb : matrix) (i : Z) (g : nat) :
  (forall row, In row Mb -> (g < length row)%nat) ->
  (0 <= i < Z.of_nat (length Mb))%Z ->
  mean_lookup Mb i g = Ok (nth g (nth (Z.to_nat i) Mb []) 0).
Proof.
  intros Hrows Hi. unfold mean_lookup, try_mean, getitem.
  rewrite <- (Z2Nat.id i) at 1 by lia.
  rewrite (@index_front _ Mb (Z.to_nat i) []) by lia. cbn [of_option rbind].
  rewrite (@index_front _ (nth (Z.to_nat i) Mb []) g 0);
    [reflexivity|].
  apply Hrows, nth_In. lia.
Qed.

Lemma mean_lookup_in_range_witness :
  mean_lookup [[1; 2]; [3; 4]] 1 1 = Ok 4.
Proof.
  apply (@mean_lookup_in_range [[1; 2]; [3; 4]] 1 1).
  - intros row [<- | [<- | []]]; simpl; lia.
  - simpl. lia.
Defined.

(** The handler of the lookup does not catch its own [IndexError]: for a
    gene index at or beyond the length of every row, and so on a matrix
    without rows, the lookup raises [IndexError] for every row index. *)
Theorem mean_lookup_gene_out_of_range (Mb : matrix) (i : Z) (g : nat) :
  (forall row, In row Mb -> (length row <= g)%nat) ->
  mean_lookup Mb i g = Raise Py.IndexError.
Proof.
  intros Hrows.
  assert (Hlast : last_row_mean Mb g = Raise Py.IndexError).
  { unfold last_row_mean, getitem at 1.
    destruct (Py.index Mb (-1)) as [row|] eqn:E; [|reflexivity].
    cbn [of_option rbind]. apply getitem_short, Hrows.
    eapply index_in, E. }
  unfold mean_lookup, try_mean, getitem at 1.
  destruct (Py.index Mb i) as [row|] eqn:E.
  - cbn [of_option rbind]. rewrite getitem_short.
    + exact Hlast.
    + apply Hrows. eapply index_in, E.
  - exact Hlast.
Qed.

Lemma mean_lookup_gene_out_of_range_witness :
  mean_lookup [[1; 2]; [3; 4]] 0 2 = Raise Py.IndexError.
Proof.
  apply (@mean_lookup_gene_out_of_range [[1; 2]; [3; 4]] 0 2).
  intros row [<- | [<- | []]]; simpl; lia.
Defined.

(** ** Branch assignment and branch choice *)

Lemma dd_get_assign_from (branch_times : list (nat * interval))
  (timezone : list interval) :
  forall i j,
    dd_get (assign_branches_from i branch_times timezone)
           (Z.of_nat (i + j))
    = match nth_error timezone j with
      | Some z => assign_zone branch_times z
      | None => []
      end.
Proof.
  induction timezone as [|z tl IH]; intros i j.
  - destruct j; reflexivity.
  - cbn [assign_branches_from].
    destruct j as [|j].
    + rewrite Nat.add_0_r. cbn [nth_error].
      destruct (assign_zone branch_times z) as [|k ks] eqn:E.
      * apply dd_get_below. lia.
      * cbn [dd_get]. rewrite Z.eqb_refl. reflexivity.
    + cbn [nth_error]. replace (i + S j)%nat with (S i + j)%nat by lia.
      destruct (assign_zone branch_times z) as [|k ks] eqn:E.
      * apply IH.
      * cbn [dd_get].
        replace (Z.of_nat i =? Z.of_nat (S i + j))%Z with false
          by (symmetry; apply Z.eqb_neq; lia).
        apply IH.
Qed.

Lemma assign_zone_in (branch_times : list (nat * interval)) (z : interval)
  (k : nat) :
  In k (assign_zone branch_times z) <->
  exists iv, In (k, iv) branch_times /\
             (fst iv <= fst z)%Z /\ (snd z <= snd iv)%Z.
Proof.
  unfold assign_zone. rewrite in_map_iff. split.
  - intros ((k', iv) & Hk & Hin). simpl in Hk. subst k'.
    apply filter_In in Hin. destruct Hin as (Hin & Hb).
    unfold belongs_to in Hb. simpl in Hb.
    apply andb_true_iff in Hb. exists iv. split; [exact Hin | lia].
  - intros (iv & Hin & Hlo & Hhi). exists (k, iv). split; [reflexivity|].
    apply filter_In. split; [exact Hin|].
    unfold belongs_to. simpl. apply andb_true_iff. lia.
Qed.

(** What [assign_branches] stores and [assignments[b]] reads back: for
    the index b of a timezone, the keys of the branches whose interval
    holds that timezone, in the order of [branch_times]; for any other
    b, the empty list. *)
Theorem assign_branches_lookup (branch_times : list (nat * interval))
  (timezone : list interval) (b : Z) :
  dd_get (assign_branches branch_times timezone) b
  = match (if (0 <=? b)%Z then nth_error timezone (Z.to_nat b) else None)
    with
    | Some z => assign_zone branch_times z
    | None => []
    end /\
  forall z k,
    In k (assign_zone branch_times z) <->
    exists iv, In (k, iv) branch_times /\
               (fst iv <= fst z)%Z /\ (snd z <= snd iv)%Z.
Proof.
  split; [|intros z k; apply assign_zone_in].
  unfold assign_branches. destruct (0 <=? b)%Z eqn:E.
  - rewrite <- (Z2Nat.id b) at 1 by lia.
    apply (dd_get_assign_from branch_times timezone 0 (Z.to_nat b)).
  - apply dd_get_below. lia.
Qed.

Lemma find_zone_spec (t : Z) (timezone : list interval) :
  forall i0,
    (find_zone t timezone i0 = (-1)%Z /\
     forall z, In z timezone -> ~ within t z) \/
    (exists j z, find_zone t timezone i0 = (i0 + Z.of_nat j)%Z /\
                 nth_error timezone j = Some z /\ within t z).
Proof.
  induction timezone as [|z tl IH]; intros i0.
  - left. split; [reflexivity | intros z []].
  - cbn [find_zone].
    destruct ((t >=? fst z)%Z && (t <=? snd z)%Z) eqn:E.
    + right. exists 0%nat, z. apply andb_true_iff in E.
      split; [lia | split; [reflexivity | unfold within; lia]].
    + destruct (IH (i0 + 1)%Z) as [(Hf & Hout) | (j & z' & Hf & Hj & Hin)].
      * left. split; [exact Hf|]. intros z' [<- | Hz']; [|apply Hout, Hz'].
        unfold within. apply andb_false_iff in E. lia.
      * right. exists (S j), z'.
        split; [rewrite Hf; lia | split; assumption].
Qed.

Lemma choice_in {A} (xs : list A) (s : tape) :
  xs <> [] ->
  exists x, choice xs s = (Ok x, skip_ints 1 s) /\ In x xs.
Proof.
  intros Hne. destruct xs as [|x0 tl]; [contradiction|].
  unfold choice, bind. rewrite next_int_run. unfold ret.
  eexists. split; [reflexivity|].
  apply nth_In. apply Nat.mod_upper_bound. discriminate.
Qed.

(** The lookup as a whole, on the assignments of [assign_branches]:
    either a key of [branch_times] one of whose intervals holds t, after
    one integer draw, or [None] without a draw, when t lies in no
    timezone or the first timezone that holds t lies in no branch. *)
Lemma pick_branch_cases (t : Z) (timezone : list interval)
  (branch_times : list (nat * interval)) (s : tape) :
  (exists k iv,
     pick_branch t timezone (assign_branches branch_times timezone) s
     = (Ok (Some k), skip_ints 1 s) /\
     In (k, iv) branch_times /\ within t iv) \/
  (pick_branch t timezone (assign_branches branch_times timezone) s
   = (Ok None, s) /\
   ((forall z, In z timezone -> ~ within t z) \/
    exists z, In z timezone /\ within t z /\
              assign_zone branch_times z = [])).
Proof.
  unfold pick_branch.
  destruct (find_zone_spec t timezone 0)
    as [(Hf & Hout) | (j & z & Hf & Hj & Hin)].
  - right. rewrite Hf. unfold assign_branches.
    rewrite dd_get_below by lia. split; [reflexivity | left; exact Hout].
  - rewrite Hf. unfold assign_branches.
    replace (0 + Z.of_nat j)%Z with (Z.of_nat (0 + j)) by lia.
    rewrite dd_get_assign_from, Hj.
    destruct (assign_zone branch_times z) as [|k0 ks] eqn:E.
    + right. split; [reflexivity|]. right. exists z.
      split; [eapply nth_error_In, Hj | split; assumption].
    + left. destruct (@choice_in _ (k0 :: ks) s) as (k & Hrun & Hk);
        [discriminate|].
      rewrite <- E in Hk. apply assign_zone_in in Hk.
      destruct Hk as (iv & Hiv & Hlo & Hhi).
      exists k, iv. split; [|split; [exact Hiv|]].
      * unfold catch_index, bind. rewrite Hrun. reflexivity.
      * unfold within in *. lia.
Qed.

Lemma dict_get_unique (d : list (nat * interval)) (k : nat)
  (iv : interval) :
  NoDup (map fst d) -> In (k, iv) d -> dict_get d (Some k) = Ok iv.
Proof.
  unfold dict_get. induction d as [|[k0 iv0] d IH]; intros Hnd Hin;
    [destruct Hin|].
  cbn [map fst] in Hnd. inversion Hnd as [|x l Hnotin Hnd' E]; subst.
  cbn [find fst]. destruct (k0 =? k)%nat eqn:Ek.
  - apply Nat.eqb_eq in Ek. subst k0.
    destruct Hin as [E | Hin]; [injection E as <-; reflexivity|].
    exfalso. apply Hnotin.
    change k with (fst (k, iv)). apply in_map, Hin.
  - destruct Hin as [E | Hin].
    + injection E as E1 E2. subst k0. rewrite Nat.eqb_refl in Ek.
      discriminate Ek.
    + apply IH; assumption.
Qed.

(** In [sample_data_with_absolute_times] the row index t - T_off is
    never negative when the keys of [branching_times] are distinct, as
    those of a dict are: the branch that [pick_branch] returns has an
    interval that holds t, and T_off is where that interval starts. *)
Lemma sample_at_index_nonneg (t : Z) (timezone : list interval)
  (branch_times : list (nat * interval)) (s s' : tape) (k : nat) :
  NoDup (map fst branch_times) ->
  pick_branch t timezone (assign_branches branch_times timezone) s
  = (Ok (Some k), s') ->
  exists iv, dict_get branch_times (Some k) = Ok iv /\
             (0 <= t - fst iv)%Z.
Proof.
  intros Hnd Hrun.
  destruct (pick_branch_cases t timezone branch_times s)
    as [(k0 & iv & Hrun0 & Hiv & Hwithin) | (Hnone & _)].
  - rewrite Hrun0 in Hrun. injection Hrun as Ek _. subst k0.
    exists iv. split; [apply dict_get_unique; assumption|].
    unfold within in Hwithin. lia.
  - rewrite Hnone in Hrun. discriminate Hrun.
Qed.

(** [pick_branch] never raises.  On the assignments made by
    [assign_branches] it returns either [None] or the key of a branch
    one of whose recorded intervals contains t; it returns a branch
    whenever t lies in a timezone and every timezone lies in some
    branch. *)
Theorem pick_branch_covers (t : Z) (timezone : list interval)
  (branch_times : list (nat * interval)) (s : tape) :
  exists r s',
    pick_branch t timezone (assign_branches branch_times timezone) s
    = (Ok r, s') /\
    (forall k, r = Some k ->
       exists iv, In (k, iv) branch_times /\ within t iv) /\
    ((exists z, In z timezone /\ within t z) ->
     (forall z, In z timezone -> assign_zone branch_times z <> []) ->
     r <> None).
Proof.
  destruct (pick_branch_cases t timezone branch_times s)
    as [(k & iv & Hrun & Hiv & Hin) | (Hrun & Hnone)].
  - exists (Some k), (skip_ints 1 s). split; [exact Hrun | split].
    + intros k' E. injection E as <-. exists iv. split; assumption.
    + intros _ _. discriminate.
  - exists None, s. split; [exact Hrun | split].
    + intros k E. discriminate E.
    + intros (z & Hz & Hin) Hcov _.
      destruct Hnone as [Hout | (z' & Hz' & _ & Hempty)].
      * exact (Hout z Hz Hin).
      * exact (Hcov z' Hz' Hempty).
Qed.

(** ** The absolute-time sampler *)

Lemma mean_lookup_total (Mb : matrix) (i : Z) (g : nat) :
  Mb <> [] -> (forall row, In row Mb -> (g < length row)%nat) ->
  exists mu row, mean_lookup Mb i g = Ok mu /\ In row Mb /\ In mu row.
Proof.
  intros Hne Hrows.
  assert (Hrow : forall row, In row Mb ->
            getitem row (Z.of_nat g) = Ok (nth g row 0)).
  { intros row Hin. unfold getitem.
    rewrite (@index_front _ row g 0) by (apply Hrows, Hin). reflexivity. }
  unfold mean_lookup, try_mean, getitem at 1.
  destruct (Py.index Mb i) as [row|] eqn:E.
  - cbn [of_option rbind]. rewrite Hrow by (eapply index_in, E).
    exists (nth g row 0), row. split; [reflexivity|].
    split; [eapply index_in, E|].
    apply nth_In, Hrows. eapply index_in, E.
  - cbn [of_option rbind rcatch_index Py.is_IndexError].
    unfold last_row_mean, getitem at 1.
    pose proof (@index_last _ Mb [] Hne) as Hlast. rewrite Hlast.
    cbn [of_option rbind]. rewrite Hrow by (eapply index_in, Hlast).
    exists (nth g (last Mb []) 0), (last Mb []). split; [reflexivity|].
    split; [eapply index_in, Hlast|].
    apply nth_In, Hrows. eapply index_in, Hlast.
Qed.

Lemma sample_cell_runs (alpha beta : Q) (G : nat) (Mb : matrix)
  (t T_off : Z) (s : tape) :
  Mb <> [] -> (forall row, In row Mb -> length row = G) ->
  (forall row mu, In row Mb -> In mu row -> valid_mean alpha beta mu) ->
  runs (sample_cell alpha beta G Mb t T_off) s (fun x _ => length x = G).
Proof.
  intros Hne Hrows Hvalid. unfold sample_cell.
  eapply runs_weaken.
  - apply (@runs_mapM nat nat _ (fun _ _ => True)).
    intros g s0 Hg. apply in_seq in Hg.
    destruct (@mean_lookup_total Mb (t - T_off) g Hne)
      as (mu & row & Hmu & Hrow & Hin).
    { intros row Hin. rewrite (Hrows row Hin). lia. }
    apply runs_bind. eapply runs_lift; [exact Hmu|].
    cbv zeta. apply runs_negbin_rvs; [|exact I].
    exact (Hvalid row mu Hrow Hin).
  - intros x s' Hall. apply Forall2_length in Hall.
    rewrite length_seq in Hall. symmetry. exact Hall.
Qed.

Lemma dict_get_present (d : list (nat * interval)) (k : nat)
  (iv : interval) :
  In (k, iv) d -> exists iv', dict_get d (Some k) = Ok iv'.
Proof.
  intros Hin. unfold dict_get.
  destruct (find (fun kb => (fst kb =? k)%nat) d) as [kb|] eqn:E.
  - eexists. reflexivity.
  - exfalso. pose proof (find_none _ _ E _ Hin) as H. simpl in H.
    rewrite Nat.eqb_refl in H. discriminate H.
Qed.

Section AbsoluteTimes.

Variables (alpha beta : Q) (G : nat).
Variables (timezone : list interval)
          (branching_times : list (nat * interval))
          (means : list matrix).

Hypothesis zones_covered :
  forall z, In z timezone -> assign_zone branching_times z <> [].
Hypothesis keys_have_means :
  forall k iv, In (k, iv) branching_times -> (k < length means)%nat.
Hypothesis means_shaped : shaped G means.
Hypothesis means_valid : valid_means alpha beta means.

Lemma sample_at_runs (timestamp : Q) (s : tape) :
  (exists z, In z timezone /\ within (astype_int timestamp) z) ->
  runs (sample_at alpha beta G timezone branching_times means
          (assign_branches branching_times timezone) timestamp) s
       (fun cell _ => cell_of G branching_times timestamp cell).
Proof.
  intros (z & Hz & Hin). unfold sample_at.
  destruct (pick_branch_cases (astype_int timestamp) timezone
              branching_times s)
    as [(k & iv & Hrun & Hiv & Hwithin) | (_ & Hnone)].
  - apply runs_bind. exists (Some k), (skip_ints 1 s).
    split; [exact Hrun|].
    destruct (dict_get_present _ _ _ Hiv) as (iv' & Hget).
    apply runs_bind. eapply runs_lift; [exact Hget|].
    destruct (getitem_nat means (keys_have_means _ _ Hiv))
      as (Mb & HMb & _ & HMbin).
    apply runs_bind. eapply runs_lift; [exact HMb|].
    destruct (means_shaped Mb HMbin) as (Hne & Hrows).
    apply runs_bind.
    eapply runs_weaken;
      [apply sample_cell_runs; [assumption | assumption|];
       intros row mu; apply means_valid; exact HMbin|].
    intros x s' Hx. destruct G as [|G'] eqn:EG.
    + apply runs_ret. split; [exact Hx | intros H; lia].
    + apply runs_ret. split; [exact Hx|]. intros _.
      split; [reflexivity|]. exists iv. split; assumption.
  - exfalso. destruct Hnone as [Hout | (z' & Hz' & _ & Hempty)].
    + exact (Hout z Hz Hin).
    + exact (zones_covered z' Hz' Hempty).
Qed.

End AbsoluteTimes.

Lemma flat_map_repeat_length {A} (n : nat) (xs : list A) :
  length (flat_map (fun t => repeat t n) xs) = (n * length xs)%nat.
Proof.
  induction xs as [|x xs IH]; simpl; [lia|].
  rewrite length_app, repeat_length, IH. lia.
Qed.

(** When every sample time falls in a timezone, every timezone lies in
    some branch, every branch key has a mean matrix, the mean matrices
    have at least one row and G columns, and every mean m in them has
    m > 0 and alpha*m + beta > 1, so that [custm.rvs] takes its
    parameters, [sample_data_with_absolute_times] returns
    n_factor * len(sample_times) cells; the cells of a sample time are
    consecutive, each has G counts and, when G >= 1, carries the integer
    part of its sample time as label and a branch whose interval
    contains that time. *)
Theorem sample_data_with_absolute_times_cells (n_factor G : nat)
  (timezone : list interval) (branching_times : list (nat * interval))
  (means : list matrix) (sample_times : list Q) (alpha beta : Q)
  (s : tape) :
  (forall z, In z timezone -> assign_zone branching_times z <> []) ->
  (forall k iv, In (k, iv) branching_times -> (k < length means)%nat) ->
  shaped G means ->
  valid_means alpha beta means ->
  (forall ts, In ts sample_times ->
     exists z, In z timezone /\ within (astype_int ts) z) ->
  exists cells s',
    sample_data_with_absolute_times n_factor G timezone branching_times
      means sample_times alpha beta s = (Ok cells, s') /\
    length cells = (n_factor * length sample_times)%nat /\
    Forall2 (cell_of G branching_times)
            (flat_map (fun t => repeat t n_factor) sample_times) cells.
Proof.
  intros Hcov Hkeys Hshape Hvalid Htimes.
  unfold sample_data_with_absolute_times.
  destruct (@runs_mapM Q (list nat * Z * nat)
              (sample_at alpha beta G timezone branching_times means
                 (assign_branches branching_times timezone))
              (cell_of G branching_times)
              (flat_map (fun t => repeat t n_factor) sample_times))
    with (s := s) as (cells & s' & Hrun & Hall).
  - intros ts s0 Hts. apply in_flat_map in Hts.
    destruct Hts as (t0 & Ht0 & Hrep). apply repeat_spec in Hrep. subst ts.
    apply sample_at_runs; auto.
  - exists cells, s'. split; [exact Hrun | split; [|exact Hall]].
    apply Forall2_length in Hall. rewrite <- Hall.
    apply flat_map_repeat_length.
Qed.

Lemma sample_data_with_absolute_times_cells_witness :
  exists cells s',
    sample_data_with_absolute_times 2 1 [(0, 3)%Z] [(0%nat, (0, 3)%Z)]
      [[[1]; [2]]] [1; 7 # 2] (3 # 10) 2 (constant_tape 1)
    = (Ok cells, s') /\
    length cells = (2 * 2)%nat.
Proof.
  destruct (@sample_data_with_absolute_times_cells 2 1 [(0, 3)%Z]
              [(0%nat, (0, 3)%Z)] [[[1]; [2]]] [1; 7 # 2] (3 # 10) 2
              (constant_tape 1)) as (cells & s' & Hrun & Hlen & _).
  - intros z [<- | []]. discriminate.
  - intros k iv [E | []]. injection E as E1 E2. subst k. simpl. lia.
  - intros Mb [<- | []].
    split; [discriminate | intros row [<- | [<- | []]]; reflexivity].
  - intros Mb row mu [<- | []] [<- | [<- | []]] [<- | []];
      split; reflexivity.
  - intros ts [<- | [<- | []]]; exists (0, 3)%Z;
      (split; [left; reflexivity | vm_compute; split; discriminate]).
  - exists cells, s'. split; assumption.
Defined.

(** There is no partial result: when the first sample time lies in no
    timezone and is sampled at least once, the whole call ends in the
    [KeyError] of [branching_times[None]] before any draw. *)
Theorem sample_data_with_absolute_times_outside (n_factor G : nat)
  (timezone : list interval) (branching_times : list (nat * interval))
  (means : list matrix) (ts : Q) (rest : list Q) (alpha beta : Q)
  (s : tape) :
  (1 <= n_factor)%nat ->
  (forall z, In z timezone -> ~ within (astype_int ts) z) ->
  sample_data_with_absolute_times n_factor G timezone branching_times
    means (ts :: rest) alpha beta s
  = (Raise Py.KeyError, s).
Proof.
  intros Hn Hout. unfold sample_data_with_absolute_times.
  destruct n_factor as [|n]; [lia|].
  cbn [flat_map repeat app mapM]. unfold bind at 1.
  rewrite sample_at_outside_raises_KeyError by exact Hout.
  reflexivity.
Qed.

Lemma sample_data_with_absolute_times_outside_witness :
  sample_data_with_absolute_times 1 1 [(0, 3)%Z] [(0%nat, (0, 3)%Z)]
    [[[1]; [2]]] [5; 1] (3 # 10) 2 (constant_tape 1)
  = (Raise Py.KeyError, constant_tape 1).
Proof.
  apply (@sample_data_with_absolute_times_outside 1 1 [(0, 3)%Z]
           [(0%nat, (0, 3)%Z)] [[[1]; [2]]] 5 [1] (3 # 10) 2
           (constant_tape 1)).
  - lia.
  - intros z [<- | []]. vm_compute. intros [_ H]. apply H. reflexivity.
Defined.

(** ** An edge that names no branch *)

Lemma adjust_edges_app (pre rest : list (nat * nat)) (Ms : list matrix) :
  adjust_edges (pre ++ rest) Ms
  = (Ms1 <-- adjust_edges pre Ms ;; adjust_edges rest Ms1).
Proof.
  revert Ms. induction pre as [|b pre IH]; intros Ms; [reflexivity|].
  cbn [app adjust_edges].
  destruct (getitem Ms (Z.of_nat (snd b))) as [child | |]; try reflexivity.
  cbn [rbind].
  destruct (getitem Ms (Z.of_nat (fst b))) as [parent | |]; try reflexivity.
  cbn [rbind].
  destruct (bifurc_adjust child parent) as [adjusted | |]; try reflexivity.
  cbn [rbind].
  destruct (of_option (Py.set_nth Ms (snd b) adjusted) Py.IndexError)
    as [Ms' | |]; try reflexivity.
  cbn [rbind]. apply IH.
Qed.

Lemma adjust_edges_bad_edge (G : nat) (pre post : list (nat * nat))
  (e : nat * nat) (Ms : list matrix) :
  shaped G Ms ->
  (forall e', In e' pre ->
     (fst e' < length Ms)%nat /\ (snd e' < length Ms)%nat) ->
  (length Ms <= fst e)%nat \/ (length Ms <= snd e)%nat ->
  adjust_edges (pre ++ e :: post) Ms = Raise Py.IndexError.
Proof.
  intros Hshape Hpre Hbad. rewrite adjust_edges_app.
  destruct (adjust_edges_frame pre Hshape Hpre)
    as (Ms1 & Hrun & Hlen & _).
  rewrite Hrun. cbn [rbind adjust_edges].
  destruct (Nat.lt_ge_cases (snd e) (length Ms1)) as [Hc | Hc].
  - destruct (getitem_nat Ms1 Hc) as (child & Hgc & _).
    rewrite Hgc. cbn [rbind].
    rewrite getitem_short by lia. reflexivity.
  - rewrite getitem_short by exact Hc. reflexivity.
Qed.

(** The edges are not validated: when the lengths agree and every branch
    has at least two time steps and two modules, but some edge of
    [tree.topology] names a branch index at or beyond the branch count,
    all branches are simulated first and the call then ends in
    [IndexError] at the first such edge. *)
Theorem simulate_branching_data_bad_edge (fuel G : nat) (tree : Tree)
  (pre post : list (nat * nat)) (e : nat * nat) (s : tape) :
  length (time tree) = branches tree ->
  length (modules tree) = branches tree ->
  Forall (fun T => (2 <= T)%nat) (time tree) ->
  Forall (fun K => (2 <= K)%nat) (modules tree) ->
  Forall (fun K => (K < fuel)%nat) (modules tree) ->
  topology tree = pre ++ e :: post ->
  Forall (fun e' => (fst e' < branches tree)%nat /\
                    (snd e' < branches tree)%nat) pre ->
  (branches tree <= fst e)%nat \/ (branches tree <= snd e)%nat ->
  fst (simulate_branching_data fuel G tree s) = Raise Py.IndexError.
Proof.
  intros HlT HlK HTs HKs Hfuel Htopo Hpre Hbad.
  set (tree0 := {| branches := branches tree; time := time tree;
                   modules := modules tree; topology := [] |}).
  assert (Hwf : well_formed tree0).
  { unfold well_formed, tree0. cbn.
    repeat (split; [assumption|]). constructor. }
  destruct (@simulate_branches_run fuel G tree0 s Hwf Hfuel)
    as (WMs & s' & Hrun & Hlen & Hshape).
  cbn [tree0 time modules branches] in Hrun, Hlen.
  unfold simulate_branching_data.
  replace (forallb (fun l => (l =? branches tree)%nat)
                   [length (time tree); length (modules tree)])
    with true by (symmetry; apply lengths_checked; auto).
  cbn [negb]. unfold bind at 1. rewrite Hrun.
  unfold bind, lift. rewrite Htopo.
  rewrite (@adjust_edges_bad_edge G pre post e (map snd WMs)).
  - reflexivity.
  - exact Hshape.
  - rewrite Forall_forall in Hpre. rewrite length_map, Hlen. exact Hpre.
  - rewrite length_map, Hlen. exact Hbad.
Qed.

Lemma simulate_branching_data_bad_edge_witness :
  fst (simulate_branching_data 3 2
         {| branches := 2; time := [2; 2]%nat; modules := [2; 2]%nat;
            topology := [(0, 1); (1, 2)]%nat |} (constant_tape 1))
  = Raise Py.IndexError.
Proof.
  apply (@simulate_branching_data_bad_edge 3 2
           {| branches := 2; time := [2; 2]%nat; modules := [2; 2]%nat;
              topology := [(0, 1); (1, 2)]%nat |}
           [(0, 1)]%nat [] (1, 2)%nat (constant_tape 1)).
  - reflexivity.
  - reflexivity.
  - repeat constructor.
  - repeat constructor.
  - repeat constructor.
  - reflexivity.
  - repeat constructor.
  - right. simpl. lia.
Defined.

(** ** Blending two branches *)

Lemma set_nth_nth {A} (xs xs' : list A) (i : nat) (v d : A) :
  Py.set_nth xs i v = Some xs' -> (i < length xs)%nat ->
  length xs' = length xs /\ nth i xs' d = v /\
  forall j, j <> i -> nth j xs' d = nth j xs d.
Proof.
  intros Hset Hi.
  destruct (set_nth_spec xs v Hi) as (ys & Hy & Hlen & Hnth & Hother & _).
  rewrite Hset in Hy. injection Hy as <-.
  split; [exact Hlen | split].
  - apply nth_error_nth. exact Hnth.
  - intros j Hj. apply nth_of_nth_error; [exact Hlen | apply Hother, Hj].
Qed.

Lemma np_add_same (x y : vector) :
  length x = length y -> np_add x y = Ok (map2 Qplus x y).
Proof.
  intros H. unfold np_add. rewrite H, Nat.eqb_refl. reflexivity.
Qed.

Lemma np_setrow_same (Mx : matrix) (i : nat) (row old : vector) :
  getitem Mx (Z.of_nat i) = Ok old -> length row = length old ->
  np_setrow Mx i row = setrow Mx i row.
Proof.
  intros Hold Hlen. unfold np_setrow. rewrite Hold. cbn [rbind].
  rewrite Hlen, Nat.eqb_refl. reflexivity.
Qed.

Lemma blend_first_length (tl i : nat) (a b : vector) :
  length a = length b -> length (blend_first tl i a b) = length a.
Proof.
  intros H. unfold blend_first, vscale. cbv zeta.
  rewrite map2_length; rewrite !length_map; [reflexivity | exact H].
Qed.

Lemma blend_second_length (tl i : nat) (a b : vector) :
  length a = length b -> length (blend_second tl i a b) = length a.
Proof.
  intros H. unfold blend_second, vscale. cbv zeta.
  rewrite map2_length; rewrite !length_map;
    [symmetry; exact H | rewrite blend_first_length; auto].
Qed.

Lemma transition_adjust_loop_rows (tl G : nat) (idxs : list nat) :
  NoDup idxs ->
  forall Ma Mb : matrix,
    (forall row, In row Ma -> length row = G) ->
    (forall row, In row Mb -> length row = G) ->
    (forall i, In i idxs -> (i < length Ma)%nat /\ (i < length Mb)%nat) ->
    exists Ma' Mb',
      transition_adjust_loop tl idxs Ma Mb = Ok (Ma', Mb') /\
      length Ma' = length Ma /\ length Mb' = length Mb /\
      (forall j, ~ In j idxs ->
         nth j Ma' [] = nth j Ma [] /\ nth j Mb' [] = nth j Mb []) /\
      (forall i, In i idxs ->
         nth i Ma' [] = blend_first tl i (nth i Ma []) (nth i Mb []) /\
         nth i Mb' [] = blend_second tl i (nth i Ma []) (nth i Mb [])).
Proof.
  induction 1 as [|i rest Hnotin Hnodup IH]; intros Ma Mb HwA HwB Hrange.
  - exists Ma, Mb. split; [reflexivity|]. split; [reflexivity|].
    split; [reflexivity|]. split; [intros; split; reflexivity|].
    intros i [].
  - destruct (Hrange i (or_introl eq_refl)) as (HiA & HiB).
    destruct (getitem_nat Ma HiA) as (a & Ha & Hna & HinA).
    destruct (getitem_nat Mb HiB) as (b & Hb & Hnb & HinB).
    assert (Ea : nth i Ma [] = a) by (apply nth_error_nth; exact Hna).
    assert (Eb : nth i Mb [] = b) by (apply nth_error_nth; exact Hnb).
    assert (Hla : length a = G) by (apply HwA, HinA).
    assert (Hlb : length b = G) by (apply HwB, HinB).
    assert (Hab : length a = length b) by congruence.
    set (na := blend_first tl i a b).
    assert (Hlna : length na = G)
      by (unfold na; rewrite blend_first_length; assumption).
    destruct (set_nth_spec Ma na HiA) as (Ma1 & HsetA & _ & _ & _ & HmemA).
    destruct (@set_nth_nth _ Ma Ma1 i na [] HsetA HiA)
      as (HlenA & HnthA & HotherA).
    assert (HiA1 : (i < length Ma1)%nat) by lia.
    destruct (getitem_nat Ma1 HiA1) as (a' & Ha' & Hna' & _).
    assert (Ea' : a' = na).
    { rewrite <- HnthA. symmetry. apply nth_error_nth. exact Hna'. }
    set (nb := blend_second tl i a b).
    assert (Hlnb : length nb = G)
      by (unfold nb; rewrite blend_second_length; assumption).
    destruct (set_nth_spec Mb nb HiB) as (Mb1 & HsetB & _ & _ & _ & HmemB).
    destruct (@set_nth_nth _ Mb Mb1 i nb [] HsetB HiB)
      as (HlenB & HnthB & HotherB).
    destruct (IH Ma1 Mb1) as (Ma' & Mb' & Hrun & HlA & HlB & Hkeep & Hblend).
    { intros row Hrow. destruct (HmemA row Hrow) as [-> | Hold];
        [exact Hlna | apply HwA, Hold]. }
    { intros row Hrow. destruct (HmemB row Hrow) as [-> | Hold];
        [exact Hlnb | apply HwB, Hold]. }
    { intros j Hj. rewrite HlenA, HlenB. apply Hrange. right. exact Hj. }
    exists Ma', Mb'. split; [|split; [congruence | split; [congruence|]]].
    + cbn [transition_adjust_loop]. rewrite Ha. cbn [rbind].
      rewrite Hb. cbn [rbind].
      rewrite np_add_same by (unfold vscale; rewrite !length_map; exact Hab).
      cbn [rbind]. fold (blend_first tl i a b). fold na.
      rewrite (@np_setrow_same Ma i na a Ha) by congruence.
      unfold setrow at 1. rewrite HsetA. cbn [of_option rbind].
      rewrite Ha'. cbn [rbind]. rewrite Ea'.
      rewrite np_add_same
        by (unfold vscale; rewrite !length_map; congruence).
      cbn [rbind]. unfold na. fold (blend_second tl i a b). fold nb.
      rewrite (@np_setrow_same Mb i nb b Hb) by congruence.
      unfold setrow at 1. rewrite HsetB.
      cbn [of_option rbind]. exact Hrun.
    + split.
      * intros j Hj.
        assert (Hji : j <> i) by (intros ->; apply Hj; left; reflexivity).
        destruct (Hkeep j) as (H1 & H2);
          [intros H; apply Hj; right; exact H|].
        rewrite H1, H2, HotherA, HotherB by exact Hji.
        split; reflexivity.
      * intros j [<- | Hj].
        -- destruct (Hkeep i Hnotin) as (H1 & H2).
           rewrite H1, H2, HnthA, HnthB, Ea, Eb. split; reflexivity.
        -- assert (Hji : j <> i) by (intros ->; exact (Hnotin Hj)).
           destruct (Hblend j Hj) as (H1 & H2).
           rewrite H1, H2, HotherA, HotherB by exact Hji.
           split; reflexivity.
Qed.

(** [transition_adjust] on two matrices with G columns and at least
    [transition_length] rows keeps their numbers of rows and every row
    from [transition_length] on; for i below it, row i of the first
    result is the weighted mean of the two rows i, and row i of the
    second result is the weighted mean of row i of the second argument
    and of that new row, not of row i of the first argument. *)
Theorem transition_adjust_rows (Ma Mb : matrix) (tl G : nat) :
  (tl <= length Ma)%nat -> (tl <= length Mb)%nat ->
  (forall row, In row Ma -> length row = G) ->
  (forall row, In row Mb -> length row = G) ->
  exists Ma' Mb',
    transition_adjust Ma Mb tl = Ok (Ma', Mb') /\
    length Ma' = length Ma /\ length Mb' = length Mb /\
    (forall j, (tl <= j)%nat ->
       nth j Ma' [] = nth j Ma [] /\ nth j Mb' [] = nth j Mb []) /\
    (forall i, (i < tl)%nat ->
       nth i Ma' [] = blend_first tl i (nth i Ma []) (nth i Mb []) /\
       nth i Mb' [] = blend_second tl i (nth i Ma []) (nth i Mb [])).
Proof.
  intros HA HB HwA HwB. unfold transition_adjust.
  destruct (@transition_adjust_loop_rows tl G (seq 0 tl) (seq_NoDup tl 0)
              Ma Mb HwA HwB)
    as (Ma' & Mb' & Hrun & HlA & HlB & Hkeep & Hblend).
  - intros i Hi. apply in_seq in Hi. lia.
  - exists Ma', Mb'. split; [exact Hrun|].
    split; [exact HlA | split; [exact HlB | split]].
    + intros j Hj. apply Hkeep. intros H. apply in_seq in H. lia.
    + intros i Hi. apply Hblend. apply in_seq. lia.
Qed.

Lemma transition_adjust_rows_witness :
  exists Ma' Mb',
    transition_adjust [[0; 1]; [0; 1]; [0; 1]] [[4; 3]; [4; 3]; [4; 3]] 2
    = Ok (Ma', Mb') /\
    length Ma' = 3%nat /\ length Mb' = 3%nat /\
    same_row (nth 0 Ma' []) [2; 2] /\ nth 2 Mb' [] = [4; 3].
Proof.
  destruct (@transition_adjust_rows [[0; 1]; [0; 1]; [0; 1]]
              [[4; 3]; [4; 3]; [4; 3]] 2 2)
    as (Ma' & Mb' & Hrun & HlA & HlB & Hkeep & Hblend).
  - simpl. lia.
  - simpl. lia.
  - intros row [<- | [<- | [<- | []]]]; reflexivity.
  - intros row [<- | [<- | [<- | []]]]; reflexivity.
  - exists Ma', Mb'. split; [exact Hrun|].
    split; [exact HlA | split; [exact HlB | split]].
    + destruct (Hblend 0%nat) as [E _]; [lia|]. rewrite E.
      unfold same_row. repeat (constructor; [reflexivity|]). constructor.
    + destruct (Hkeep 2%nat) as [_ E]; [lia|]. exact E.
Defined.

Lemma transition_adjust_loop_app (tl : nat) (pre rest : list nat) :
  forall Ma Mb : matrix,
    transition_adjust_loop tl (pre ++ rest) Ma Mb
    = (r <-- transition_adjust_loop tl pre Ma Mb ;;
       transition_adjust_loop tl rest (fst r) (snd r)).
Proof.
  induction pre as [|i pre IH]; intros Ma Mb; [reflexivity|].
  cbn [app transition_adjust_loop].
  destruct (getitem Ma (Z.of_nat i)) as [a | |]; try reflexivity.
  cbn [rbind].
  destruct (getitem Mb (Z.of_nat i)) as [b | |]; try reflexivity.
  cbn [rbind].
  destruct (np_add _ _) as [na | |]; try reflexivity.
  cbn [rbind].
  destruct (np_setrow Ma i na) as [Ma' | |]; try reflexivity.
  cbn [rbind].
  destruct (getitem Ma' (Z.of_nat i)) as [a' | |]; try reflexivity.
  cbn [rbind].
  destruct (np_add _ _) as [nb | |]; try reflexivity.
  cbn [rbind].
  destruct (np_setrow Mb i nb) as [Mb' | |]; try reflexivity.
  cbn [rbind]. apply IH.
Qed.

(** When one of two matrices with G columns has fewer than
    [transition_length] rows, [transition_adjust] ends in
    [IndexError]. *)
Theorem transition_adjust_too_short (Ma Mb : matrix) (tl G : nat) :
  (forall row, In row Ma -> length row = G) ->
  (forall row, In row Mb -> length row = G) ->
  (length Ma < tl)%nat \/ (length Mb < tl)%nat ->
  transition_adjust Ma Mb tl = Raise Py.IndexError.
Proof.
  intros HwA HwB Hshort. unfold transition_adjust.
  set (i0 := Nat.min (length Ma) (length Mb)).
  assert (Hi0 : (i0 < tl)%nat) by (unfold i0; lia).
  replace tl with (i0 + S (tl - i0 - 1))%nat at 2 by lia.
  rewrite seq_app. cbn [seq Nat.add].
  rewrite transition_adjust_loop_app.
  destruct (@transition_adjust_loop_rows tl G (seq 0 i0) (seq_NoDup i0 0)
              Ma Mb HwA HwB) as (Ma' & Mb' & Hrun & HlA & HlB & _).
  { intros i Hi. apply in_seq in Hi. unfold i0 in Hi. lia. }
  rewrite Hrun. cbn [rbind fst snd transition_adjust_loop].
  destruct (Nat.lt_ge_cases i0 (length Ma')) as [HA | HA].
  - destruct (getitem_nat Ma' HA) as (a & Ha & _).
    rewrite Ha. cbn [rbind].
    rewrite getitem_short by (unfold i0 in *; lia). reflexivity.
  - rewrite getitem_short by exact HA. reflexivity.
Qed.

Lemma transition_adjust_too_short_witness :
  transition_adjust [[0]] [[4]; [4]; [4]] 2 = Raise Py.IndexError.
Proof.
  apply (@transition_adjust_too_short [[0]] [[4]; [4]; [4]] 2 1).
  - intros row [<- | []]; reflexivity.
  - intros row [<- | [<- | [<- | []]]]; reflexivity.
  - left. simpl. lia.
Defined.

Lemma main_branch_weight_bounds (tl i : nat) :
  (i < tl)%nat ->
  (1 # 2) <= main_branch_weight tl i /\ main_branch_weight tl i < 1.
Proof.
  intros Hi. unfold main_branch_weight.
  set (n := inject_Z (Z.of_nat i)).
  set (d := inject_Z (Z.of_nat (tl * 2))).
  assert (Hd : 0 < d).
  { unfold d. rewrite <- (Zlt_Qlt 0). lia. }
  assert (Hn : 0 <= n).
  { unfold n. rewrite <- (Zle_Qle 0). lia. }
  assert (Hd2 : d == inject_Z (Z.of_nat tl) * 2).
  { unfold d. rewrite Nat2Z.inj_mul, inject_Z_mult. reflexivity. }
  assert (Hlt : n < inject_Z (Z.of_nat tl)).
  { unfold n. rewrite <- Zlt_Qlt. lia. }
  assert (Hnd : n < (1 # 2) * d) by (rewrite Hd2; lra).
  assert (H0 : 0 <= n / d).
  { apply Qle_shift_div_l; [exact Hd|]. lra. }
  assert (H1 : n / d < 1 # 2).
  { apply Qlt_shift_div_r; [exact Hd | exact Hnd]. }
  split; lra.
Qed.

Lemma nth_map2 {A B C} (f : A -> B -> C) (xs : list A) (ys : list B)
  (g : nat) (dx : A) (dy : B) (d : C) :
  (g < length xs)%nat -> (g < length ys)%nat ->
  nth g (map2 f xs ys) d = f (nth g xs dx) (nth g ys dy).
Proof.
  revert ys g. induction xs as [|x xs IH]; intros [|y ys] g Hx Hy;
    simpl in *; try lia.
  destruct g as [|g]; [reflexivity|]. apply IH; lia.
Qed.

Lemma nth_vscale (x : vector) (c : Q) (g : nat) :
  (g < length x)%nat -> nth g (vscale x c) 0 = nth g x 0 * c.
Proof.
  intros Hg. unfold vscale.
  rewrite (nth_indep _ 0 (0 * c)) by (rewrite length_map; exact Hg).
  apply (map_nth (fun v => v * c)).
Qed.

Lemma blend_entries (tl i g : nat) (a b : vector) :
  (g < length a)%nat -> (g < length b)%nat ->
  let w := main_branch_weight tl i in
  nth g (blend_first tl i a b) 0 = nth g a 0 * w + nth g b 0 * (1 - w) /\
  nth g (blend_second tl i a b) 0
  = nth g b 0 * w + (nth g a 0 * w + nth g b 0 * (1 - w)) * (1 - w).
Proof.
  intros Ha Hb w.
  assert (H1 : nth g (blend_first tl i a b) 0
               = nth g a 0 * w + nth g b 0 * (1 - w)).
  { unfold blend_first. fold w.
    rewrite (@nth_map2 _ _ _ Qplus _ _ g 0 0 0)
      by (unfold vscale; rewrite length_map; assumption).
    rewrite !nth_vscale by assumption. reflexivity. }
  split; [exact H1|].
  unfold blend_second. fold w.
  assert (Hlen : (g < length (blend_first tl i a b))%nat).
  { unfold blend_first, vscale.
    revert Ha Hb. generalize (main_branch_weight tl i).
    intros q Ha Hb. clear H1.
    revert b g Ha Hb. induction a as [|x a IH]; intros [|y b] g Ha Hb;
      simpl in *; try lia.
    destruct g as [|g]; [lia|]. apply -> Nat.succ_lt_mono.
    apply IH; lia. }
  rewrite (@nth_map2 _ _ _ Qplus _ _ g 0 0 0);
    [|unfold vscale; rewrite length_map; assumption
     |unfold vscale; rewrite length_map; exact Hlen].
  rewrite !nth_vscale by assumption. rewrite H1. reflexivity.
Qed.

(** Blending stays between its inputs: for i below
    [transition_length] and every gene g, entry (i, g) of both results
    of [transition_adjust] lies between the entries (i, g) of the two
    arguments. *)
Theorem transition_adjust_between (Ma Mb : matrix) (tl G : nat) :
  (tl <= length Ma)%nat -> (tl <= length Mb)%nat ->
  (forall row, In row Ma -> length row = G) ->
  (forall row, In row Mb -> length row = G) ->
  exists Ma' Mb',
    transition_adjust Ma Mb tl = Ok (Ma', Mb') /\
    forall i g, (i < tl)%nat -> (g < G)%nat ->
      let a := nth g (nth i Ma []) 0 in
      let b := nth g (nth i Mb []) 0 in
      let a' := nth g (nth i Ma' []) 0 in
      let b' := nth g (nth i Mb' []) 0 in
      (a <= b -> a <= a' <= b /\ a <= b' <= b) /\
      (b <= a -> b <= a' <= a /\ b <= b' <= a).
Proof.
  intros HA HB HrowsA HrowsB.
  destruct (@transition_adjust_loop_rows tl G (seq 0 tl) (seq_NoDup tl 0)
              Ma Mb HrowsA HrowsB) as (Ma' & Mb' & Hrun & _ & _ & _ & Hblend).
  { intros i Hi. apply in_seq in Hi. lia. }
  exists Ma', Mb'. split; [exact Hrun|].
  intros i g Hi Hg a b a' b'.
  destruct (Hblend i) as (E1 & E2); [apply in_seq; lia|].
  assert (HgA : (g < length (nth i Ma []))%nat)
    by (rewrite HrowsA; [exact Hg | apply nth_In; lia]).
  assert (HgB : (g < length (nth i Mb []))%nat)
    by (rewrite HrowsB; [exact Hg | apply nth_In; lia]).
  destruct (@blend_entries tl i g _ _ HgA HgB) as (Ha' & Hb').
  destruct (main_branch_weight_bounds Hi) as (Hw1 & Hw2).
  unfold a', b'. rewrite E1, E2, Ha', Hb'. fold a b.
  set (w := main_branch_weight tl i) in *.
  split; intros Hab.
  - assert (P1 : 0 <= (1 - w) * (b - a)) by (apply Qmult_le_0_compat; lra).
    assert (P2 : 0 <= w * (b - a)) by (apply Qmult_le_0_compat; lra).
    assert (P3 : 0 <= (1 - w) * ((1 - w) * (b - a)))
      by (apply Qmult_le_0_compat; lra).
    assert (P4 : 0 <= (1 - w) * (w * (b - a)))
      by (apply Qmult_le_0_compat; lra).
    repeat split; nra.
  - assert (P1 : 0 <= (1 - w) * (a - b)) by (apply Qmult_le_0_compat; lra).
    assert (P2 : 0 <= w * (a - b)) by (apply Qmult_le_0_compat; lra).
    assert (P3 : 0 <= (1 - w) * ((1 - w) * (a - b)))
      by (apply Qmult_le_0_compat; lra).
    assert (P4 : 0 <= (1 - w) * (w * (a - b)))
      by (apply Qmult_le_0_compat; lra).
    repeat split; nra.
Qed.

Lemma transition_adjust_between_witness :
  exists Ma' Mb',
    transition_adjust [[0]; [0]; [0]] [[4]; [4]; [4]] 2 = Ok (Ma', Mb').
Proof.
  destruct (@transition_adjust_between [[0]; [0]; [0]] [[4]; [4]; [4]] 2 1)
    as (Ma' & Mb' & Hrun & _).
  - simpl. lia.
  - simpl. lia.
  - intros row [<- | [<- | [<- | []]]]; reflexivity.
  - intros row [<- | [<- | [<- | []]]]; reflexivity.
  - exists Ma', Mb'. exact Hrun.
Defined.

(** ** The check of the branch ranges *)

Lemma fold_max_bounds (tl : list Q) :
  forall x,
    x <= fold_left Qmax tl x /\
    (forall y, In y tl -> y <= fold_left Qmax tl x) /\
    (forall c, x <= c -> (forall y, In y tl -> y <= c) ->
               fold_left Qmax tl x <= c).
Proof.
  induction tl as [|z tl IH]; intros x; cbn [fold_left].
  - split; [apply Qle_refl | split; [intros y [] | intros c Hc _; exact Hc]].
  - destruct (IH (Qmax x z)) as (H1 & H2 & H3). split; [|split].
    + eapply Qle_trans; [apply Q.le_max_l | exact H1].
    + intros y [<- | Hy]; [|apply H2, Hy].
      eapply Qle_trans; [apply Q.le_max_r | exact H1].
    + intros c Hc Hall. apply H3.
      * apply Q.max_lub; [exact Hc | apply Hall; left; reflexivity].
      * intros y Hy. apply Hall. right. exact Hy.
Qed.

Lemma fold_min_bounds (tl : list Q) :
  forall x,
    fold_left Qmin tl x <= x /\
    (forall y, In y tl -> fold_left Qmin tl x <= y) /\
    (forall c, c <= x -> (forall y, In y tl -> c <= y) ->
               c <= fold_left Qmin tl x).
Proof.
  induction tl as [|z tl IH]; intros x; cbn [fold_left].
  - split; [apply Qle_refl | split; [intros y [] | intros c Hc _; exact Hc]].
  - destruct (IH (Qmin x z)) as (H1 & H2 & H3). split; [|split].
    + eapply Qle_trans; [exact H1 | apply Q.le_min_l].
    + intros y [<- | Hy]; [|apply H2, Hy].
      eapply Qle_trans; [exact H1 | apply Q.le_min_r].
    + intros c Hc Hall. apply H3.
      * apply Q.min_glb; [exact Hc | apply Hall; left; reflexivity].
      * intros y Hy. apply Hall. right. exact Hy.
Qed.

Lemma mapR_all {A B} (f : A -> res B) (P : A -> B -> Prop) (xs : list A) :
  (forall x, In x xs -> exists y, f x = Ok y /\ P x y) ->
  exists ys, mapR f xs = Ok ys /\ Forall2 P xs ys.
Proof.
  induction xs as [|x tl IH]; intros H.
  - exists []. split; [reflexivity | constructor].
  - destruct (H x (or_introl eq_refl)) as (y & Hy & HP).
    destruct IH as (ys & Hys & Hall);
      [intros x' Hx'; apply H; right; exact Hx'|].
    exists (y :: ys). cbn [mapR]. rewrite Hy. cbn [rbind].
    rewrite Hys. split; [reflexivity | constructor; assumption].
Qed.

(** The range of a matrix with a row and a gene is defined and not
    negative; it is 0 when all rows are the same. *)
Lemma matrix_range_spec (r0 : vector) (tl : matrix) :
  r0 <> [] ->
  exists m,
    matrix_range (r0 :: tl) = Ok m /\ 0 <= m /\
    ((forall row, In row tl -> row = r0) -> m == 0).
Proof.
  intros Hr0. unfold matrix_range.
  destruct (@mapR_all nat Q
              (fun j =>
                 let col := map (fun row => nth j row 0) (r0 :: tl) in
                 hi <-- np_max col ;; lo <-- np_min col ;; Ok (hi - lo))
              (fun _ p => 0 <= p /\
                          ((forall row, In row tl -> row = r0) -> p == 0))
              (seq 0 (length r0))) as (ps & Hps & Hall).
  { intros j _. cbn [map np_max np_min rbind]. eexists.
    split; [reflexivity|].
    set (c := nth j r0 0).
    set (col := map (fun row => nth j row 0) tl).
    destruct (fold_max_bounds col c) as (Hhi & _ & Hlub).
    destruct (fold_min_bounds col c) as (Hlo & _ & Hglb).
    split; [lra|].
    intros Hconst.
    assert (Hcol : forall y, In y col -> y = c).
    { intros y Hy. unfold col in Hy. apply in_map_iff in Hy.
      destruct Hy as (row & <- & Hrow). rewrite (Hconst row Hrow).
      reflexivity. }
    assert (H1 : fold_left Qmax col c <= c).
    { apply Hlub; [apply Qle_refl|]. intros y Hy.
      rewrite (Hcol y Hy). apply Qle_refl. }
    assert (H2 : c <= fold_left Qmin col c).
    { apply Hglb; [apply Qle_refl|]. intros y Hy.
      rewrite (Hcol y Hy). apply Qle_refl. }
    lra. }
  assert (Hps' : ptp_columns (r0 :: tl) = Ok ps) by exact Hps.
  rewrite Hps'. cbn [rbind].
  assert (Hlen : length ps = length r0).
  { apply Forall2_length in Hall. rewrite length_seq in Hall.
    symmetry. exact Hall. }
  destruct ps as [|p ps];
    [destruct r0; [contradiction | discriminate Hlen]|].
  cbn [np_max]. eexists. split; [reflexivity|].
  assert (HP : forall q, In q (p :: ps) ->
             0 <= q /\ ((forall row, In row tl -> row = r0) -> q == 0)).
  { intros q Hq. destruct (Forall2_right Hall q Hq) as (_ & _ & H). exact H. }
  destruct (fold_max_bounds ps p) as (Hhi & _ & Hlub).
  destruct (HP p (or_introl eq_refl)) as (Hp0 & Hpc).
  split; [lra|].
  intros Hconst.
  assert (H1 : fold_left Qmax ps p <= 0).
  { apply Hlub.
    - rewrite (Hpc Hconst). apply Qle_refl.
    - intros y Hy. destruct (HP y (or_intror Hy)) as (_ & Hy0).
      rewrite (Hy0 Hconst). apply Qle_refl. }
  lra.
Qed.

(** When every matrix has at least one row and one gene and one of them
    is constant over its rows, [are_lengths_ok] returns [False] for
    every [abs_max] and every non-negative [rel_dif]: the smallest range
    is 0. *)
Theorem are_lengths_ok_constant_branch (G : nat) (Ms : list matrix)
  (abs_max rel_dif : Q) (Mc : matrix) :
  (1 <= G)%nat -> shaped G Ms ->
  In Mc Ms ->
  (forall row row', In row Mc -> In row' Mc -> row = row') ->
  0 <= rel_dif ->
  are_lengths_ok (Some Ms) abs_max rel_dif = Ok false.
Proof.
  intros HG Hshape HMc Hconst Hrel. unfold are_lengths_ok.
  destruct (@mapR_all matrix Q matrix_range
              (fun Mb m => 0 <= m /\ (Mb = Mc -> m == 0)) Ms)
    as (maxes & Hmaxes & Hall).
  { intros Mb HMb. destruct (Hshape Mb HMb) as (Hne & Hrows).
    destruct Mb as [|r0 tl]; [contradiction|].
    assert (Hr0 : r0 <> []).
    { intros E. specialize (Hrows r0 (or_introl eq_refl)).
      rewrite E in Hrows. simpl in Hrows. lia. }
    destruct (matrix_range_spec tl Hr0) as (m & Hm & Hpos & Hzero).
    exists m. split; [exact Hm | split; [exact Hpos|]].
    intros E. apply Hzero. intros row Hrow. apply Hconst; rewrite <- E.
    - right. exact Hrow.
    - left. reflexivity. }
  rewrite Hmaxes. cbn [rbind].
  destruct (In_nth_error _ _ HMc) as (n & Hn).
  assert (Hzero : exists m, In m maxes /\ m == 0).
  { clear - Hall HMc. induction Hall as [|Mb m Ms maxes (_ & Hm) _ IH].
    - contradiction.
    - destruct HMc as [E | HMc].
      + exists m. split; [left; reflexivity | apply Hm, E].
      + destruct (IH HMc) as (m' & Hin & Hm').
        exists m'. split; [right; exact Hin | exact Hm']. }
  assert (Hpos : forall m, In m maxes -> 0 <= m).
  { intros m Hm. destruct (Forall2_right Hall m Hm) as (_ & _ & H & _).
    exact H. }
  destruct Hzero as (z & Hz & Hz0).
  destruct maxes as [|m0 maxes]; [contradiction|].
  cbn [np_min np_max rbind].
  destruct (fold_min_bounds maxes m0) as (Hlo1 & Hlo2 & Hglb).
  assert (Hlo : fold_left Qmin maxes m0 == 0).
  { apply Qle_antisym.
    - destruct Hz as [<- | Hz];
        [rewrite <- Hz0; exact Hlo1 | rewrite <- Hz0; apply Hlo2, Hz].
    - apply Hglb; [apply Hpos; left; reflexivity|].
      intros y Hy. apply Hpos. right. exact Hy. }
  destruct (Qeq_bool (fold_left Qmax maxes m0) 0) eqn:E.
  - rewrite andb_false_r. reflexivity.
  - assert (Hq : fold_left Qmin maxes m0 / fold_left Qmax maxes m0 == 0).
    { unfold Qdiv. rewrite Hlo. ring. }
    assert (Hle : Qle_bool (fold_left Qmin maxes m0
                            / fold_left Qmax maxes m0) rel_dif = true).
    { apply Qle_bool_iff. rewrite Hq. exact Hrel. }
    rewrite Hle. cbn [negb]. rewrite andb_false_r. reflexivity.
Qed.

Lemma are_lengths_ok_constant_branch_witness :
  are_lengths_ok (Some [[[0; 1]; [4; 3]]; [[1; 1]; [1; 1]]]) 800 (3 # 10)
  = Ok false.
Proof.
  apply (@are_lengths_ok_constant_branch 2
           [[[0; 1]; [4; 3]]; [[1; 1]; [1; 1]]] 800 (3 # 10)
           [[1; 1]; [1; 1]]).
  - lia.
  - intros Mb [<- | [<- | []]];
      (split; [discriminate | intros row [<- | [<- | []]]; reflexivity]).
  - right. left. reflexivity.
  - intros row row' [<- | [<- | []]] [<- | [<- | []]]; reflexivity.
  - discriminate.
Defined.
